(** * Where to DINE: the hotspot pipeline, embedded and verified

    A shallow embedding of the analytic core of the pipeline:

    - [MergeRestaurants]      src/data_processing/02_merge_restaurants.py
    - [ClusterRestaurants]    src/data_processing/06_cluster_restaurants.py
    - [ClusterTaxi]           src/data_processing/07_cluster_taxi_dropoffs.py
    - [Clustering]            src/analysis/clustering.py
    - [SpatialIntersection]   src/data_processing/08_spatial_intersection.py

    Numbers.  A Python float is a rational ([Q]), with [==] the equality
    of rationals; integers are [Z], positions in a table are [nat].
    Comparisons of floats are exact.  Where a statement depends on the
    rounding of an operation, the operation is rounded as binary64 does
    ([Binary64], to the nearest number of 53 significant bits, ties to
    even; overflow and subnormal numbers are outside the model): this is
    so for the densities and scores of [calculate_composite_scores].
    The areas and ratios of the scan are taken as shapely and the
    division return them, and the distances of the merge as the KD-tree
    returns them.

    Libraries.  What the scripts delegate to shapely, scipy, scikit-learn,
    fuzzywuzzy and numpy's random generator is not part of the repository.
    Each of them enters the development as an interface (a type class) and
    the pipeline code is written once, generically, over the interface. *)

From Stdlib Require Import String Ascii.
From Stdlib Require Import List ZArith QArith Qminmax Qround Qabs Qpower.
From Stdlib Require Import Lia Lqa Bool Sorted.
Import ListNotations.

Set Implicit Arguments.
Local Open Scope Q_scope.

(** ** Python exceptions

    A function that may raise returns a [result]; [x <- e ;; k] runs [e]
    and, unless it raised, continues with [k]. *)

Inductive exn : Type :=
| ZeroDivisionError
| ValueError.

Inductive result (A : Type) : Type :=
| Ok (a : A)
| Raise (e : exn).

Arguments Ok {A} a.
Arguments Raise {A} e.

Definition bind {A B : Type} (r : result A) (k : A -> result B) : result B :=
  match r with
  | Ok a => k a
  | Raise e => Raise e
  end.

Notation "x <- e ;; k" := (bind e (fun x => k))
  (at level 61, e at next level, right associativity).

(** [a / b] on Python floats: division by zero raises. *)
Definition py_div (a b : Q) : result Q :=
  if Qeq_bool b 0 then Raise ZeroDivisionError else Ok (a / b).

(** [len(table)] where it is an operand of a true division. *)
Definition rows_of {A : Type} (table : list A) : Q :=
  inject_Z (Z.of_nat (length table)).

(** The builtin [min(a, b)]: the first argument unless the second is
    strictly smaller. *)
Definition py_min (a b : Q) : Q :=
  if Qlt_le_dec b a then b else a.

(** [Series.max()] of a non-empty column; [d] is returned for the empty
    column only, which no caller passes. *)
Definition series_max (d : Q) (col : list Q) : Q :=
  match col with
  | [] => d
  | v :: rest => fold_left Qmax rest v
  end.

(** ** Floats

    The arithmetic of Python floats (and of numpy's float64): the exact
    result of an operation, rounded. *)

Module Binary64.

(** The nearest integer, the even one of two that are equally near. *)
Definition nearest_even (t : Q) : Z :=
  let below := Qfloor t in
  match ((t - inject_Z below) ?= (1 # 2))%Q with
  | Lt => below
  | Gt => (below + 1)%Z
  | Eq => if Z.even below then below else (below + 1)%Z
  end.

(** For [x <> 0] in lowest terms: the exponent [e] of its unit in the
    last place, [2^(e + 52) <= |x| < 2^(e + 53)]. *)
Definition exponent (x : Q) : Z :=
  let k := (Z.log2 (Z.abs (Qnum x)) - Z.log2 (Zpos (Qden x)))%Z in
  ((if Qle_bool (2 ^ k) (Qabs x) then k else k - 1) - 52)%Z.

Definition round_reduced (x : Q) : Q :=
  if Qeq_bool x 0 then 0
  else inject_Z (nearest_even (x / 2 ^ exponent x)) * 2 ^ exponent x.

(** Rounding to the nearest number with a significand of 53 bits. *)
Definition fl (x : Q) : Q := round_reduced (Qred x).

(** The distance from 100 to the next float on either side. *)
Definition ulp_100 : Q := 2 ^ (-46).

Definition fadd (a b : Q) : Q := fl (a + b).
Definition fmul (a b : Q) : Q := fl (a * b).
Definition fdiv (a b : Q) : Q := fl (a / b).

End Binary64.

(** ** 08_spatial_intersection.py *)

Module SpatialIntersection.

(** shapely's [geom_type]. *)
Inductive GeomType : Type :=
| Point | LineString | LinearRing | Polygon
| MultiPoint | MultiLineString | MultiPolygon | GeometryCollection.

(** [geom_type not in ['Polygon', 'MultiPolygon']], negated. *)
Definition is_polygonal (t : GeomType) : bool :=
  match t with
  | Polygon | MultiPolygon => true
  | _ => false
  end.

(** The part of shapely the script calls on a geometry. *)
Class Geometry (G : Type) : Type := {
  intersects : G -> G -> bool;
  intersection : G -> G -> G;
  is_empty : G -> bool;
  geom_type : G -> GeomType;
  area : G -> Q
}.

(** What the script relies on without testing it: a non-empty polygonal
    geometry covers some area, and an intersection lies inside both of
    its operands. *)
Class GeometryLaws (G : Type) `{Geometry G} : Prop := {
  polygon_area_pos :
    forall g, is_empty g = false -> is_polygonal (geom_type g) = true ->
              0 < area g;
  intersection_area_l : forall a b, area (intersection a b) <= area a;
  intersection_area_r : forall a b, area (intersection a b) <= area b
}.

Arguments GeometryLaws G {_}.

Section Rows.
Context {G : Type} `{Geometry G}.

(** A row of dining_zones.geojson.  A column the file does not carry
    is [None]; [row.get(column, default)] then yields the default. *)
Record DiningZone : Type := {
  d_cluster_id : option Z;
  d_n_restaurants : option Z;
  d_avg_rating : option Q;
  d_geometry : G
}.

(** A row of taxi_hotspots.geojson. *)
Record TaxiZone : Type := {
  t_hotspot_id : option Z;
  t_n_dropoffs : option Z;
  t_total_weight : option Q;
  t_geometry : G
}.

(** The dictionary appended to [intersections]. *)
Record Candidate : Type := {
  dining_cluster_id : Z;
  taxi_hotspot_id : Z;
  n_restaurants : Z;
  n_taxi_dropoffs : Z;
  taxi_weight : Q;
  avg_rating : option Q;
  dining_area_sqm : Q;
  taxi_area_sqm : Q;
  intersection_area_sqm : Q;
  overlap_ratio_dining : Q;
  overlap_ratio_taxi : Q;
  min_overlap_ratio : Q;
  geometry : G
}.

Definition get {A : Type} (column : option A) (default : A) : A :=
  match column with
  | Some v => v
  | None => default
  end.

(** The three tests a pair goes through before anything is computed. *)
Definition overlaps (a b : G) : bool :=
  intersects a b
  && negb (is_empty (intersection a b))
  && is_polygonal (geom_type (intersection a b)).

(** The body of the inner loop for one pair of rows: nothing appended
    ([None]), one dictionary appended, or an exception. *)
Definition intersect_pair (idx_d : nat) (dining_zone : DiningZone)
           (idx_t : nat) (taxi_zone : TaxiZone) : result (option Candidate) :=
  if intersects (d_geometry dining_zone) (t_geometry taxi_zone) then
    let intersection_geom :=
      intersection (d_geometry dining_zone) (t_geometry taxi_zone) in
    if is_empty intersection_geom then Ok None
    else if negb (is_polygonal (geom_type intersection_geom)) then Ok None
    else
      let dining_area := area (d_geometry dining_zone) in
      let taxi_area := area (t_geometry taxi_zone) in
      let intersection_area := area intersection_geom in
      ratio_dining <- py_div intersection_area dining_area ;;
      ratio_taxi <- py_div intersection_area taxi_area ;;
      Ok (Some {|
        dining_cluster_id := get (d_cluster_id dining_zone) (Z.of_nat idx_d);
        taxi_hotspot_id := get (t_hotspot_id taxi_zone) (Z.of_nat idx_t);
        n_restaurants := get (d_n_restaurants dining_zone) 0%Z;
        n_taxi_dropoffs := get (t_n_dropoffs taxi_zone) 0%Z;
        taxi_weight := get (t_total_weight taxi_zone) 0;
        avg_rating := d_avg_rating dining_zone;
        dining_area_sqm := dining_area;
        taxi_area_sqm := taxi_area;
        intersection_area_sqm := intersection_area;
        overlap_ratio_dining := ratio_dining;
        overlap_ratio_taxi := ratio_taxi;
        min_overlap_ratio := py_min ratio_dining ratio_taxi;
        geometry := intersection_geom
      |})
  else Ok None.

(** [for idx_t, taxi_zone in gdf_t_proj.iterrows()], from row [idx_t]. *)
Fixpoint taxi_loop (idx_d : nat) (dining_zone : DiningZone)
         (idx_t : nat) (gdf_taxi : list TaxiZone) : result (list Candidate) :=
  match gdf_taxi with
  | [] => Ok []
  | taxi_zone :: rest =>
      found <- intersect_pair idx_d dining_zone idx_t taxi_zone ;;
      later <- taxi_loop idx_d dining_zone (S idx_t) rest ;;
      Ok (match found with Some c => c :: later | None => later end)
  end.

(** [for idx_d, dining_zone in gdf_d_proj.iterrows()], from row [idx_d]. *)
Fixpoint dining_loop (idx_d : nat) (gdf_dining : list DiningZone)
         (gdf_taxi : list TaxiZone) : result (list Candidate) :=
  match gdf_dining with
  | [] => Ok []
  | dining_zone :: rest =>
      here <- taxi_loop idx_d dining_zone 0 gdf_taxi ;;
      later <- dining_loop (S idx_d) rest gdf_taxi ;;
      Ok (here ++ later)
  end.

Definition compute_spatial_intersections
           (gdf_dining : list DiningZone) (gdf_taxi : list TaxiZone)
  : result (list Candidate) :=
  dining_loop 0 gdf_dining gdf_taxi.

(** [mask_area & mask_overlap] for one row. *)
Definition passes (min_area_sqm min_overlap : Q) (c : Candidate) : bool :=
  Qle_bool min_area_sqm (intersection_area_sqm c)
  && Qle_bool min_overlap (min_overlap_ratio c).

Definition apply_filtering_criteria (gdf_intersections : list Candidate)
           (min_area_sqm min_overlap : Q) : list Candidate :=
  if (length gdf_intersections =? 0)%nat then gdf_intersections
  else filter (passes min_area_sqm min_overlap) gdf_intersections.

(** The defaults of the signature. *)
Definition default_min_area_sqm : Q := 10000.
Definition default_min_overlap_ratio : Q := 0.15.

(** A row of the scored table: the candidate and the six columns
    [calculate_composite_scores] adds. *)
Record Hotspot : Type := {
  candidate : Candidate;
  restaurant_density : Q;
  taxi_density : Q;
  restaurant_score : Q;
  taxi_score : Q;
  popularity_score : Q;
  rank : Z
}.

(** Restaurants, or weighted drop-offs, per square kilometre:
    [amount / (intersection_area_sqm / 1_000_000)], two divisions of
    floats. *)
Definition density (amount : Q) (c : Candidate) : Q :=
  Binary64.fdiv amount (Binary64.fdiv (intersection_area_sqm c) 1000000).

(** The integer column [n_restaurants] is converted to float for the
    division. *)
Definition restaurant_density_of (c : Candidate) : Q :=
  density (Binary64.fl (inject_Z (n_restaurants c))) c.

Definition taxi_density_of (c : Candidate) : Q :=
  density (taxi_weight c) c.

(** One normalised column: [100 * column / column.max()] when the
    maximum is positive, the constant 0 otherwise.  The product is
    rounded, then the quotient. *)
Definition normalise (column_max v : Q) : Q :=
  if Qlt_le_dec 0 column_max
  then Binary64.fdiv (Binary64.fmul 100 v) column_max
  else 0.

(** [Series.rank(ascending=False, method='dense')]: one more than the
    number of distinct values above [v]. *)
Fixpoint distinct (col : list Q) : list Q :=
  match col with
  | [] => []
  | v :: rest =>
      if existsb (Qeq_bool v) rest then distinct rest else v :: distinct rest
  end.

Definition dense_rank (col : list Q) (v : Q) : Z :=
  1 + Z.of_nat (length (distinct (filter (fun u => negb (Qle_bool u v)) col))).

Definition popularity (restaurant_score taxi_score : Q) : Q :=
  Binary64.fadd (Binary64.fmul 0.5 restaurant_score)
                (Binary64.fmul 0.5 taxi_score).

Definition calculate_composite_scores (gdf_hotspots : list Candidate)
  : list Hotspot :=
  if (length gdf_hotspots =? 0)%nat then []
  else
    let restaurant_col := map restaurant_density_of gdf_hotspots in
    let taxi_col := map taxi_density_of gdf_hotspots in
    let restaurant_max := series_max 0 restaurant_col in
    let taxi_max := series_max 0 taxi_col in
    let score c :=
      popularity (normalise restaurant_max (restaurant_density_of c))
                 (normalise taxi_max (taxi_density_of c)) in
    let popularity_col := map score gdf_hotspots in
    map (fun c =>
           {| candidate := c;
              restaurant_density := restaurant_density_of c;
              taxi_density := taxi_density_of c;
              restaurant_score :=
                normalise restaurant_max (restaurant_density_of c);
              taxi_score := normalise taxi_max (taxi_density_of c);
              popularity_score := score c;
              rank := dense_rank popularity_col (score c) |})
        gdf_hotspots.

End Rows.

Arguments DiningZone G : clear implicits.
Arguments TaxiZone G : clear implicits.
Arguments Candidate G : clear implicits.
Arguments Hotspot G : clear implicits.

End SpatialIntersection.

(** ** 02_merge_restaurants.py *)

Module MergeRestaurants.

(** [str.lower] and fuzzywuzzy's [fuzz.ratio], a score from 0 to 100. *)
Class NameSimilarity : Type := {
  lower : string -> string;
  fuzz_ratio : string -> string -> Z
}.

(** A row of the restaurant table, after [to_crs("EPSG:2263")]: [x] and
    [y] are the projected coordinates, in the unit of the thresholds. *)
Record Restaurant : Type := {
  name : string;
  x : Q;
  y : Q;
  rating : option Q;
  source : string
}.

Definition coord (r : Restaurant) : Q * Q := (x r, y r).

Definition Qlt_bool (a b : Q) : bool := negb (Qle_bool b a).

(** scipy's [cKDTree], built on a table with rows.
    [tree.query(c, k=1)] returns the distance from [c] to a nearest
    indexed point and the position of that point.  [tree_distance] is the
    Euclidean distance as the library computes it, a float; which of
    several nearest points is reported is the library's choice. *)
Class KDTree : Type := {
  tree_distance : Q * Q -> Q * Q -> Q;
  query : list (Q * Q) -> Q * Q -> Q * nat
}.

Class KDTreeLaws `{KDTree} : Prop := {
  tree_distance_nonneg : forall p c, 0 <= tree_distance p c;
  (** the position reported holds a point at the distance reported *)
  query_in_table :
    forall points c,
      points <> [] ->
      exists p, nth_error points (snd (query points c)) = Some p /\
                fst (query points c) = tree_distance p c;
  (** and no indexed point is nearer *)
  query_is_nearest :
    forall points c q,
      In q points -> fst (query points c) <= tree_distance q c
}.

Section Deduplicate.
Context `{NameSimilarity} `{KDTree}.

Variables (gdf_primary : list Restaurant)
          (distance_threshold : Q) (name_similarity_threshold : Z).

(** The body of the loop for one secondary row, for a tree built on
    [gdf_primary]: is [idx2] appended to [duplicates]?  [iloc[idx1]]
    cannot miss when the position comes from an index that keeps its
    laws: the last branch is not reached then. *)
Definition is_duplicate (row2 : Restaurant) : bool :=
  let (distance, idx1) := query (map coord gdf_primary) (coord row2) in
  if Qlt_bool distance distance_threshold then
    match nth_error gdf_primary idx1 with
    | Some row1 =>
        let name1 := lower (name row1) in
        let name2 := lower (name row2) in
        let similarity := fuzz_ratio name1 name2 in
        (name_similarity_threshold <=? similarity)%Z
    | None => false
    end
  else false.

(** [for idx2, coord2 in enumerate(coords2)], from position [idx2]. *)
Fixpoint duplicates_from (idx2 : nat) (gdf_secondary : list Restaurant)
  : list nat :=
  match gdf_secondary with
  | [] => []
  | row2 :: rest =>
      if is_duplicate row2
      then idx2 :: duplicates_from (S idx2) rest
      else duplicates_from (S idx2) rest
  end.

(** [gdf.drop(gdf.index[duplicates])], from position [idx]. *)
Fixpoint drop_from (idx : nat) (duplicates : list nat)
         (rows : list Restaurant) : list Restaurant :=
  match rows with
  | [] => []
  | row :: rest =>
      if existsb (Nat.eqb idx) duplicates
      then drop_from (S idx) duplicates rest
      else row :: drop_from (S idx) duplicates rest
  end.

(** [cKDTree(coords1)] refuses a table without rows: the call raises
    ValueError before any secondary row is looked at. *)
Definition deduplicate_restaurants (gdf_secondary : list Restaurant)
  : result (list Restaurant) :=
  match gdf_primary with
  | [] => Raise ValueError
  | _ :: _ =>
      let duplicates := duplicates_from 0 gdf_secondary in
      let gdf2_unique := drop_from 0 duplicates gdf_secondary in
      Ok (gdf_primary ++ gdf2_unique)
  end.

End Deduplicate.

End MergeRestaurants.

(** ** numpy and scikit-learn, as far as the clustering scripts use them *)

Module Numpy.

(** [a[mask]] for a boolean mask as long as [a]. *)
Fixpoint select {A : Type} (mask : list bool) (a : list A) : list A :=
  match mask, a with
  | keep :: mask', v :: a' =>
      if keep then v :: select mask' a' else select mask' a'
  | _, _ => []
  end.

(** [a[indices]] for a list of positions inside [a]. *)
Definition take {A : Type} (a : list A) (indices : list nat) : list A :=
  flat_map (fun i => match nth_error a i with
                     | Some v => [v]
                     | None => []
                     end) indices.

(** [a[lo:hi]] for [0 <= lo]. *)
Definition slice {A : Type} (a : list A) (lo hi : nat) : list A :=
  firstn (hi - lo) (skipn lo a).

(** [labels != -1]. *)
Definition not_noise (labels : list Z) : list bool :=
  map (fun l => negb (l =? -1)%Z) labels.

(** [len(set(labels))]. *)
Definition n_distinct (labels : list Z) : nat :=
  length (nodup Z.eq_dec labels).

(** [list(labels).count(v)]. *)
Definition count (v : Z) (labels : list Z) : nat :=
  count_occ Z.eq_dec labels v.

(** [v in labels]. *)
Definition contains (v : Z) (labels : list Z) : bool :=
  existsb (Z.eqb v) labels.

(** [np.round]: to the nearest integer, a half to the even neighbour. *)
Definition round (w : Q) : Z :=
  let below := Qfloor w in
  match ((w - inject_Z below) ?= (1 # 2))%Q with
  | Lt => below
  | Gt => (below + 1)%Z
  | Eq => if Z.even below then below else (below + 1)%Z
  end.

(** [np.repeat(a, repeats, axis=0)], one count per row. *)
Fixpoint repeat_rows {A : Type} (a : list A) (repeats : list Z) : list A :=
  match a, repeats with
  | v :: a', k :: repeats' => repeat v (Z.to_nat k) ++ repeat_rows a' repeats'
  | _, _ => []
  end.

(** One step of [np.unique(a, return_counts=True)]: the table of values
    in increasing order, each with the number of times it was seen. *)
Fixpoint tally (v : Z) (table : list (Z * nat)) : list (Z * nat) :=
  match table with
  | [] => [(v, 1%nat)]
  | (u, n) :: rest =>
      if (v <? u)%Z then (v, 1%nat) :: table
      else if (v =? u)%Z then (u, S n) :: rest
      else (u, n) :: tally v rest
  end.

Definition unique_counts (a : list Z) : list (Z * nat) :=
  fold_right tally [] a.

(** [np.argmax]: the position of the first largest entry. *)
Fixpoint argmax_from (best_idx best : nat) (idx : nat) (counts : list nat)
  : nat :=
  match counts with
  | [] => best_idx
  | n :: rest =>
      if (best <? n)%nat then argmax_from idx n (S idx) rest
      else argmax_from best_idx best (S idx) rest
  end.

Definition argmax (counts : list nat) : result nat :=
  match counts with
  | [] => Raise ValueError
  | n :: rest => Ok (argmax_from 0 n 1 rest)
  end.

End Numpy.

(** [sklearn.metrics]: both scores take the points and their labels and
    may reject them with an exception. *)
Class ClusterMetrics : Type := {
  silhouette_score : list (Q * Q) -> list Z -> result Q;
  davies_bouldin_score : list (Q * Q) -> list Z -> result Q
}.

(** [hdbscan.HDBSCAN(...).fit_predict], for the parameters the object
    was built with. *)
Class Clusterer : Type := {
  fit_predict : list (Q * Q) -> result (list Z)
}.

(** The [metrics] dictionary both clustering scripts return. *)
Record Metrics : Type := {
  m_silhouette_score : option Q;
  m_davies_bouldin_index : option Q;
  n_clusters : Z;
  n_noise : Z;
  n_total : Z;
  pct_clustered : Q
}.

(** ** 06_cluster_restaurants.py *)

Module ClusterRestaurants.
Import Numpy.

(** [perform_clustering]: the labels of [fit_predict].  The two
    percentages of its log divide by [len(labels)], between Python
    integers. *)
Definition perform_clustering `{Clusterer} (coords : list (Q * Q))
  : result (list Z) :=
  labels <- fit_predict coords ;;
  let noise := Z.of_nat (count (-1) labels) in
  let total := Z.of_nat (length labels) in
  pct_noise <- py_div (inject_Z noise) (inject_Z total) ;;
  pct_clustered <- py_div (inject_Z (total - noise)) (inject_Z total) ;;
  Ok labels.

(** The four cluster statistics that close the function; the true
    division by [len(labels)] is between Python integers. *)
Definition cluster_statistics (scores : option Q * option Q)
           (labels : list Z) : result Metrics :=
  let clusters :=
    (Z.of_nat (n_distinct labels)
     - (if contains (-1) labels then 1 else 0))%Z in
  let noise := Z.of_nat (count (-1) labels) in
  let total := Z.of_nat (length labels) in
  fraction <- py_div (inject_Z (total - noise)) (inject_Z total) ;;
  Ok {| m_silhouette_score := fst scores;
        m_davies_bouldin_index := snd scores;
        n_clusters := clusters;
        n_noise := noise;
        n_total := total;
        pct_clustered := fraction * 100 |}.

Definition calculate_validation_metrics `{ClusterMetrics}
           (coords : list (Q * Q)) (labels : list Z) : result Metrics :=
  let mask := not_noise labels in
  let coords_clustered := select mask coords in
  let labels_clustered := select mask labels in
  scores <-
    (if (1 <? n_distinct labels_clustered)%nat then
       silhouette <- silhouette_score coords_clustered labels_clustered ;;
       db_index <- davies_bouldin_score coords_clustered labels_clustered ;;
       Ok (Some silhouette, Some db_index)
     else Ok (None, None)) ;;
  cluster_statistics scores labels.

End ClusterRestaurants.

(** ** 07_cluster_taxi_dropoffs.py *)

Module ClusterTaxi.
Import Numpy.

(** A row of the drop-off table: projected coordinates and the temporal
    weight. *)
Record Dropoff : Type := {
  coord : Q * Q;
  weight : Q
}.

(** [np.maximum(np.round(weights).astype(int), 1)]. *)
Definition weights_rounded (weights : list Q) : list Z :=
  map (fun w => Z.max (round w) 1) weights.

(** Returns [(coords_weighted, coords_proj)]. *)
Definition prepare_weighted_coordinates (df : list Dropoff)
  : list (Q * Q) * list (Q * Q) :=
  let coords_proj := map coord df in
  let weights := map weight df in
  let coords_weighted := repeat_rows coords_proj (weights_rounded weights) in
  (coords_weighted, coords_proj).

(** [prepare_weighted_coordinates] with the last line of its log, the
    expansion factor [len(coords_weighted)/len(coords_proj)]. *)
Definition prepare_weighted_coordinates_logged (df : list Dropoff)
  : result (list (Q * Q) * list (Q * Q)) :=
  let coords_weighted := fst (prepare_weighted_coordinates df) in
  let coords_proj := snd (prepare_weighted_coordinates df) in
  expansion_factor <- py_div (rows_of coords_weighted) (rows_of coords_proj) ;;
  Ok (coords_weighted, coords_proj).

(** [unique[np.argmax(counts)]] for one group of labels; the position
    [argmax] returns is always inside [unique]. *)
Definition most_common (label_group : list Z) : result Z :=
  let table := unique_counts label_group in
  position <- argmax (map snd table) ;;
  Ok (nth position (map fst table) (-1)%Z).

(** The loop of [main] that maps the labels of the copies back to the
    original points, from position [idx] of [labels]. *)
Fixpoint labels_original_from (labels : list Z) (idx : nat)
         (weights : list Z) : result (list Z) :=
  match weights with
  | [] => Ok []
  | weight :: rest =>
      let label_group := slice labels idx (idx + Z.to_nat weight) in
      label <- most_common label_group ;;
      later <- labels_original_from labels (idx + Z.to_nat weight) rest ;;
      Ok (label :: later)
  end.

Definition labels_original (labels : list Z) (weights : list Q)
  : result (list Z) :=
  labels_original_from labels 0 (weights_rounded weights).

(** numpy's global generator, seen from one run of the script:
    [choice n size] is what [np.random.choice(n, size, replace=False)]
    returns in that run.  The script never seeds the generator. *)
Definition Generator : Type := nat -> Z -> list nat.

(** The points and labels handed to scikit-learn. *)
Definition validation_sample (choice : Generator)
           (coords_clustered : list (Q * Q)) (labels_clustered : list Z)
  : list (Q * Q) * list Z :=
  if (100000 <? Z.of_nat (length coords_clustered))%Z then
    let indices := choice (length coords_clustered) 100000%Z in
    (take coords_clustered indices, take labels_clustered indices)
  else (coords_clustered, labels_clustered).

(** [perform_clustering]: the labels of [fit_predict].  The two
    percentages of its log divide by [len(labels)], between Python
    integers. *)
Definition perform_clustering `{Clusterer} (coords : list (Q * Q))
  : result (list Z) :=
  labels <- fit_predict coords ;;
  let noise := Z.of_nat (count (-1) labels) in
  let total := Z.of_nat (length labels) in
  pct_noise <- py_div (inject_Z noise) (inject_Z total) ;;
  pct_clustered <- py_div (inject_Z (total - noise)) (inject_Z total) ;;
  Ok labels.

Definition cluster_statistics (scores : option Q * option Q)
           (labels : list Z) : result Metrics :=
  let clusters :=
    (Z.of_nat (n_distinct labels)
     - (if contains (-1) labels then 1 else 0))%Z in
  let noise := Z.of_nat (count (-1) labels) in
  let total := Z.of_nat (length labels) in
  fraction <- py_div (inject_Z (total - noise)) (inject_Z total) ;;
  Ok {| m_silhouette_score := fst scores;
        m_davies_bouldin_index := snd scores;
        n_clusters := clusters;
        n_noise := noise;
        n_total := total;
        pct_clustered := fraction * 100 |}.

Definition calculate_validation_metrics `{ClusterMetrics}
           (choice : Generator) (coords : list (Q * Q)) (labels : list Z)
  : result Metrics :=
  let mask := not_noise labels in
  let coords_clustered := select mask coords in
  let labels_clustered := select mask labels in
  scores <-
    (if (1 <? n_distinct labels_clustered)%nat then
       let sample :=
         validation_sample choice coords_clustered labels_clustered in
       silhouette <- silhouette_score (fst sample) (snd sample) ;;
       db_index <- davies_bouldin_score (fst sample) (snd sample) ;;
       Ok (Some silhouette, Some db_index)
     else Ok (None, None)) ;;
  cluster_statistics scores labels.

End ClusterTaxi.

(** ** analysis/clustering.py *)

Module Clustering.
Import Numpy.

(** The dictionary [validate] returns; [noise_ratio] is present only
    when the scores are. *)
Record Validation : Type := {
  v_n_clusters : Z;
  v_n_noise : Z;
  v_silhouette_score : option Q;
  v_davies_bouldin_score : option Q;
  v_noise_ratio : option Q
}.

(** [HDBSCANClustering.validate(X, labels)]; [self_labels] is the
    attribute [self.labels_], [None] before [fit]. *)
Definition validate `{ClusterMetrics} (self_labels : option (list Z))
           (X : list (Q * Q)) (labels : option (list Z))
  : result Validation :=
  let labels := match labels with
                | Some given => Some given
                | None => self_labels
                end in
  match labels with
  | None => Raise ValueError
  | Some labels =>
      let valid_mask := not_noise labels in
      let X_valid := select valid_mask X in
      let labels_valid := select valid_mask labels in
      let clusters := n_distinct labels_valid in
      let noise := Z.of_nat (length (filter (Z.eqb (-1)) labels)) in
      if (clusters <? 2)%nat then
        Ok {| v_n_clusters := Z.of_nat clusters;
              v_n_noise := noise;
              v_silhouette_score := None;
              v_davies_bouldin_score := None;
              v_noise_ratio := None |}
      else
        sil_score <- silhouette_score X_valid labels_valid ;;
        db_score <- davies_bouldin_score X_valid labels_valid ;;
        Ok {| v_n_clusters := Z.of_nat clusters;
              v_n_noise := noise;
              v_silhouette_score := Some sil_score;
              v_davies_bouldin_score := Some db_score;
              v_noise_ratio :=
                Some (inject_Z noise
                      / inject_Z (Z.of_nat (length labels))) |}
  end.

End Clustering.

(** ** What the specification says, where it is compared with the code *)

Module Spec.
Import Numpy.

(** [n] is round(x): an integer nearest to [x] and, where [x] lies
    halfway between two integers, the even one of the two. *)
Definition is_rounding (x : Q) (n : Z) : Prop :=
  (inject_Z n - (1 # 2) <= x /\
   x <= inject_Z n + (1 # 2)) /\
  (x == inject_Z n - (1 # 2) \/ x == inject_Z n + (1 # 2) ->
   Z.even n = true).

(** round(x), computed from the integer part of [x + 1/2]: that integer,
    or the one below it when [x] lies halfway and that integer is odd. *)
Definition round_half_even (x : Q) : Z :=
  let up := Qfloor (x + (1 # 2)) in
  if Qeq_bool (inject_Z up - x) (1 # 2) && Z.odd up then (up - 1)%Z else up.

(** The number of copies of a point of weight [w]: round(max(w, 1)). *)
Definition copies (w : Q) : Z := round_half_even (Qmax w 1).

(** The majority label of a group with ties going to the label met first:
    the first label of the group that no other label outnumbers. *)
Definition first_encountered_majority (label_group : list Z) : option Z :=
  find (fun l => forallb (fun l' => (count l' label_group <=? count l label_group)%nat)
                         label_group)
       label_group.

(** Where the copies of original point [i] start in the expanded table,
    for the copy counts [multiplicities]. *)
Definition group_start (multiplicities : list Z) (i : nat) : nat :=
  fold_right (fun k total => (Z.to_nat k + total)%nat) 0%nat
             (firstn i multiplicities).

(** The labels of the copies of original point [i]. *)
Definition duplicate_group (labels : list Z) (multiplicities : list Z)
           (i : nat) : list Z :=
  slice labels (group_start multiplicities i) (group_start multiplicities (S i)).

Section Neighbours.
Import MergeRestaurants.
Context `{NameSimilarity} `{KDTree}.

(** A nearest primary neighbour of a secondary point: a primary point
    that no primary point is nearer than. *)
Definition nearest_neighbour (primary : list Restaurant)
           (row2 row1 : Restaurant) : Prop :=
  In row1 primary /\
  forall other, In other primary ->
                tree_distance (coord row1) (coord row2)
                <= tree_distance (coord other) (coord row2).

(** The two tests of the rule: nearer than the distance threshold, and
    the names, in lower case, similar enough. *)
Definition is_match (distance_threshold : Q) (name_similarity_threshold : Z)
           (row2 row1 : Restaurant) : Prop :=
  tree_distance (coord row1) (coord row2) < distance_threshold /\
  (name_similarity_threshold
   <= fuzz_ratio (lower (name row1)) (lower (name row2)))%Z.

End Neighbours.

Section Candidates.
Import SpatialIntersection.
Context {G : Type} `{Geometry G}.

(** The IntersectionCandidate of a dining zone [a], row [idx_d], and a taxi
    zone [b], row [idx_t]: the intersection geometry, the two source
    areas, the intersection area, its ratio to each source area and the
    minimum of the two ratios, beside the attributes of both zones. *)
Definition candidate_of (idx_d : nat) (a : DiningZone G)
           (idx_t : nat) (b : TaxiZone G) : Candidate G :=
  let shared := intersection (d_geometry a) (t_geometry b) in
  let ratio_dining := area shared / area (d_geometry a) in
  let ratio_taxi := area shared / area (t_geometry b) in
  {| dining_cluster_id := get (d_cluster_id a) (Z.of_nat idx_d);
     taxi_hotspot_id := get (t_hotspot_id b) (Z.of_nat idx_t);
     n_restaurants := get (d_n_restaurants a) 0%Z;
     n_taxi_dropoffs := get (t_n_dropoffs b) 0%Z;
     taxi_weight := get (t_total_weight b) 0;
     avg_rating := d_avg_rating a;
     dining_area_sqm := area (d_geometry a);
     taxi_area_sqm := area (t_geometry b);
     intersection_area_sqm := area shared;
     overlap_ratio_dining := ratio_dining;
     overlap_ratio_taxi := ratio_taxi;
     min_overlap_ratio := Qmin ratio_dining ratio_taxi;
     geometry := shared |}.

End Candidates.

End Spec.

(** ** Interfaces instantiated, for running the definitions *)

Module Boxes.
Import SpatialIntersection.

(** Closed axis-parallel boxes of the integer grid, the smallest family
    of shapes closed under intersection: [x_min <= x <= x_max] and
    [y_min <= y <= y_max].  A box with a bound below the opposite one is
    the empty geometry; a box of no width or no height is a segment or a
    point. *)
Record Box : Type := {
  x_min : Z;
  x_max : Z;
  y_min : Z;
  y_max : Z
}.

Definition box_is_empty (b : Box) : bool :=
  ((x_max b <? x_min b) || (y_max b <? y_min b))%Z.

Definition box_intersection (a b : Box) : Box :=
  {| x_min := Z.max (x_min a) (x_min b);
     x_max := Z.min (x_max a) (x_max b);
     y_min := Z.max (y_min a) (y_min b);
     y_max := Z.min (y_max a) (y_max b) |}.

Definition box_intersects (a b : Box) : bool :=
  negb (box_is_empty a) && negb (box_is_empty b)
  && negb (box_is_empty (box_intersection a b)).

Definition box_geom_type (b : Box) : GeomType :=
  if box_is_empty b then GeometryCollection
  else if ((x_min b =? x_max b) && (y_min b =? y_max b))%Z then Point
  else if ((x_min b =? x_max b) || (y_min b =? y_max b))%Z then LineString
  else Polygon.

Definition box_area (b : Box) : Q :=
  inject_Z (Z.max 0 (x_max b - x_min b) * Z.max 0 (y_max b - y_min b)).

#[export] Instance box_geometry : Geometry Box := {
  intersects := box_intersects;
  intersection := box_intersection;
  is_empty := box_is_empty;
  geom_type := box_geom_type;
  area := box_area
}.

(** The scenario of the specification: a dining zone of 20,000 m2 with 40
    venues, a taxi hotspot of 15,000 m2 and total weight 500, overlapping
    in 5,000 m2. *)
Definition scenario_dining : DiningZone Box :=
  {| d_cluster_id := Some 7%Z;
     d_n_restaurants := Some 40%Z;
     d_avg_rating := Some 4.2;
     d_geometry := {| x_min := 0; x_max := 200; y_min := 0; y_max := 100 |} |}.

Definition scenario_taxi : TaxiZone Box :=
  {| t_hotspot_id := Some 3%Z;
     t_n_dropoffs := Some 450%Z;
     t_total_weight := Some 500;
     t_geometry := {| x_min := 150; x_max := 300; y_min := 0; y_max := 100 |} |}.

(** A taxi hotspot that only shares an edge with [scenario_dining]. *)
Definition touching_taxi : TaxiZone Box :=
  {| t_hotspot_id := None;
     t_n_dropoffs := None;
     t_total_weight := None;
     t_geometry := {| x_min := 200; x_max := 300; y_min := 0; y_max := 100 |} |}.

(** A second dining zone over the same hotspot, larger and sparser. *)
Definition plaza_dining : DiningZone Box :=
  {| d_cluster_id := None;
     d_n_restaurants := Some 10%Z;
     d_avg_rating := None;
     d_geometry := {| x_min := 100; x_max := 300; y_min := 0; y_max := 200 |} |}.

(** The two candidates the scan emits for the two dining zones. *)
Definition two_candidates : list (Candidate Box) :=
  [Spec.candidate_of 0 scenario_dining 0 scenario_taxi;
   Spec.candidate_of 1 plaza_dining 0 scenario_taxi].

(** A dining zone of 11 restaurants and a taxi hotspot of weight 1.3
    (the float) over the same 15,000 m2. *)
Definition corner_dining : DiningZone Box :=
  {| d_cluster_id := Some 0%Z;
     d_n_restaurants := Some 11%Z;
     d_avg_rating := None;
     d_geometry := {| x_min := 0; x_max := 150; y_min := 0; y_max := 100 |} |}.

Definition corner_taxi : TaxiZone Box :=
  {| t_hotspot_id := Some 0%Z;
     t_n_dropoffs := Some 2%Z;
     t_total_weight := Some (Binary64.fl 1.3);
     t_geometry := {| x_min := 0; x_max := 150; y_min := 0; y_max := 100 |} |}.

Definition corner_candidate : Candidate Box :=
  Spec.candidate_of 0 corner_dining 0 corner_taxi.

End Boxes.

Module Names.
Import MergeRestaurants.

(** Lower case for the letters A to Z. *)
Definition ascii_lower (c : ascii) : ascii :=
  let n := nat_of_ascii c in
  if ((65 <=? n) && (n <=? 90))%nat then ascii_of_nat (n + 32) else c.

Fixpoint string_lower (s : string) : string :=
  match s with
  | EmptyString => EmptyString
  | String c rest => String (ascii_lower c) (string_lower rest)
  end.

(** The coarsest similarity: 100 for equal names, 0 otherwise. *)
Definition exact_ratio (a b : string) : Z :=
  if String.eqb a b then 100%Z else 0%Z.

#[export] Instance exact_names : NameSimilarity := {
  lower := string_lower;
  fuzz_ratio := exact_ratio
}.

(** A stand-in for the index.  The distance is the Euclidean distance,
    its square root cut after 64 binary places and then rounded to a
    float; the query is a scan that keeps the first of the nearest
    points. *)
Definition root (v : Q) : Q :=
  inject_Z (Z.sqrt (Qfloor (v * 2 ^ 128))) / 2 ^ 64.

Definition euclidean (p c : Q * Q) : Q :=
  Binary64.fl (root ((fst p - fst c) * (fst p - fst c)
                     + (snd p - snd c) * (snd p - snd c))).

Fixpoint nearest_from (idx : nat) (points : list (Q * Q)) (c : Q * Q)
         (best : Q * nat) : Q * nat :=
  match points with
  | [] => best
  | p :: rest =>
      let d := euclidean p c in
      nearest_from (S idx) rest c
                   (if Qlt_bool d (fst best) then (d, idx) else best)
  end.

Definition first_nearest (points : list (Q * Q)) (c : Q * Q) : Q * nat :=
  match points with
  | [] => (0, 0%nat)
  | p :: rest => nearest_from 1 rest c (euclidean p c, 0%nat)
  end.

#[export] Instance scan_index : KDTree := {
  tree_distance := euclidean;
  query := first_nearest
}.

Definition google (n : string) (px py : Q) : Restaurant :=
  {| name := n; x := px; y := py; rating := Some 4.5; source := "google" |}.

Definition osm (n : string) (px py : Q) : Restaurant :=
  {| name := n; x := px; y := py; rating := None; source := "osm" |}.

(** A secondary point 5 m from a differently named primary point and 10 m
    from a primary point of its own name. *)
Definition two_neighbours : list Restaurant :=
  [google "Corner Deli" 5 0; google "Joe's Pizza" 0 10].

Definition joes_osm : Restaurant := osm "joe's pizza" 0 0.

End Names.

Module Samples.
Import ClusterTaxi.

(** 100,001 clustered drop-offs: one in cluster 0 at the origin, the
    others in cluster 1. *)
Definition big_coords : list (Q * Q) :=
  (0, 0) :: (1, 0) :: repeat (2, 0) (Z.to_nat 99999).

Definition big_labels : list Z :=
  0%Z :: 1%Z :: repeat 1%Z (Z.to_nat 99999).

(** Two draws the generator may make: the first [size] positions, and the
    [size] positions after the first. *)
Definition first_rows : Generator := fun _ size => seq 0 (Z.to_nat size).
Definition later_rows : Generator := fun _ size => seq 1 (Z.to_nat size).

End Samples.

(** * Properties *)

Unset Implicit Arguments.

(** ** Arithmetic of the helpers *)

Lemma py_min_Qmin (a b : Q) : py_min a b = Qmin a b.
Proof.
  unfold py_min, Qmin, GenericMinMax.gmin.
  destruct (Qlt_le_dec b a) as [Hlt | Hle].
  - apply Qgt_alt in Hlt. now rewrite Hlt.
  - destruct (a ?= b) eqn:E; try reflexivity.
    apply Qgt_alt in E. apply Qle_not_lt in Hle. contradiction.
Qed.

Lemma py_div_nonzero (a b : Q) : ~ b == 0 -> py_div a b = Ok (a / b).
Proof.
  intros Hb. unfold py_div.
  destruct (Qeq_bool b 0) eqn:E; [| reflexivity].
  apply Qeq_bool_eq in E. contradiction.
Qed.


Lemma rows_of_zero {A : Type} (table : list A) :
  rows_of table == 0 <-> table = [].
Proof.
  unfold rows_of. split.
  - intros E. destruct table as [| a rest]; [reflexivity |].
    assert (Hpos : 0 < inject_Z (Z.of_nat (length (a :: rest)))).
    { change 0 with (inject_Z 0). rewrite <- Zlt_Qlt. cbn [length]. lia. }
    lra.
  - intros ->. reflexivity.
Qed.

Lemma fold_left_Qmax_bounds (col : list Q) (v : Q) :
  v <= fold_left Qmax col v /\
  forall u, In u col -> u <= fold_left Qmax col v.
Proof.
  revert v. induction col as [| w col IH]; intros v; simpl.
  - split; [apply Qle_refl | intros u []].
  - destruct (IH (Qmax v w)) as [Hv Hin]. split.
    + eapply Qle_trans; [apply Q.le_max_l | exact Hv].
    + intros u [<- | Hu]; [| now apply Hin].
      eapply Qle_trans; [apply Q.le_max_r | exact Hv].
Qed.

Lemma fold_left_Qmax_attained (col : list Q) (v : Q) :
  fold_left Qmax col v == v \/
  exists u, In u col /\ fold_left Qmax col v == u.
Proof.
  revert v. induction col as [| w col IH]; intros v; simpl.
  - left. reflexivity.
  - destruct (IH (Qmax v w)) as [E | (u & Hu & E)].
    + destruct (Q.max_spec v w) as [[_ Hm] | [_ Hm]].
      * right. exists w. split; [now left | now rewrite E].
      * left. now rewrite E.
    + right. exists u. split; [now right | exact E].
Qed.

Lemma series_max_upper (d : Q) (col : list Q) (u : Q) :
  In u col -> u <= series_max d col.
Proof.
  destruct col as [| v col]; [intros [] |].
  simpl. destruct (fold_left_Qmax_bounds col v) as [Hv Hin].
  intros [<- | Hu]; [exact Hv | now apply Hin].
Qed.

Lemma series_max_attained (d : Q) (col : list Q) :
  col <> [] -> exists u, In u col /\ series_max d col == u.
Proof.
  destruct col as [| v col]; [congruence | intros _].
  simpl. destruct (fold_left_Qmax_attained col v) as [E | (u & Hu & E)].
  - exists v. split; [now left | exact E].
  - exists u. split; [now right | exact E].
Qed.

(** ** Rounding *)

Section Binary64Properties.
Import Binary64.

Lemma nearest_even_near_floor (t : Q) :
  (Qfloor t <= nearest_even t <= Qfloor t + 1)%Z.
Proof.
  unfold nearest_even.
  destruct ((t - inject_Z (Qfloor t)) ?= (1 # 2))%Q; [destruct (Z.even _) | |]; lia.
Qed.

Lemma nearest_even_error (t : Q) :
  t - (1 # 2) <= inject_Z (nearest_even t) /\
  inject_Z (nearest_even t) <= t + (1 # 2).
Proof.
  pose proof (Qfloor_le t) as Hlo. pose proof (Qlt_floor t) as Hhi.
  rewrite inject_Z_plus in Hhi. change (inject_Z 1) with 1 in Hhi.
  unfold nearest_even.
  destruct ((t - inject_Z (Qfloor t)) ?= (1 # 2))%Q eqn:E.
  - apply Qeq_alt in E.
    destruct (Z.even (Qfloor t));
      [| rewrite inject_Z_plus; change (inject_Z 1) with 1]; split; lra.
  - apply Qlt_alt in E. split; lra.
  - apply Qgt_alt in E. rewrite inject_Z_plus. change (inject_Z 1) with 1.
    split; lra.
Qed.

Lemma nearest_even_above (t : Q) (n : Z) :
  inject_Z n <= t -> (n <= nearest_even t)%Z.
Proof.
  intros Hn. pose proof (nearest_even_near_floor t) as Hr.
  pose proof (Qfloor_resp_le _ _ Hn) as Hf. rewrite Qfloor_Z in Hf. lia.
Qed.

Lemma nearest_even_below (t : Q) (n : Z) :
  t <= inject_Z n -> (nearest_even t <= n)%Z.
Proof.
  intros Hn.
  destruct (Z_le_gt_dec (nearest_even t) n) as [Hle | Hgt]; [exact Hle |].
  exfalso.
  pose proof (nearest_even_near_floor t) as Hr.
  pose proof (Qfloor_resp_le _ _ Hn) as Hf. rewrite Qfloor_Z in Hf.
  assert (Efloor : Qfloor t = n) by lia.
  assert (Eup : nearest_even t = (Qfloor t + 1)%Z) by lia.
  pose proof (Qfloor_le t) as Hlo. rewrite Efloor in Hlo.
  assert (Et : t == inject_Z n) by (apply Qle_antisym; assumption).
  unfold nearest_even in Eup.
  assert (Ec : ((t - inject_Z (Qfloor t)) ?= (1 # 2))%Q = Lt).
  { apply Qlt_alt. rewrite Efloor, Et. unfold Qminus. rewrite Qplus_opp_r. reflexivity. }
  rewrite Ec in Eup. lia.
Qed.

Lemma two_power_pos (k : Z) : 0 < 2 ^ k.
Proof. apply Qpower_0_lt. reflexivity. Qed.

Lemma two_power_succ (k : Z) : 2 ^ (k + 1) == 2 * 2 ^ k.
Proof.
  rewrite Qpower_plus by discriminate. change (2 ^ 1) with (2 * 1). ring.
Qed.

Lemma two_power_le (a b : Z) : (a <= b)%Z -> 2 ^ a <= 2 ^ b.
Proof. intros Hab. apply Qpower_le_compat_l; [exact Hab | discriminate]. Qed.

Lemma two_power_Z (a : Z) : (0 <= a)%Z -> inject_Z (2 ^ a) == 2 ^ a.
Proof. intros Ha. now rewrite Zpower_Qpower. Qed.

(** The exponent brackets the number. *)
Lemma exponent_spec (x : Q) :
  ~ x == 0 ->
  2 ^ (exponent x + 52) <= Qabs x /\ Qabs x < 2 ^ (exponent x + 53).
Proof.
  intros Hx. unfold exponent.
  set (n := Z.abs (Qnum x)). set (d := Zpos (Qden x)).
  set (a := Z.log2 n). set (b := Z.log2 d).
  assert (Hn : (0 < n)%Z).
  { unfold n. destruct x as [[| p | p] q]; cbn; try lia.
    exfalso. apply Hx. reflexivity. }
  assert (Hd : (0 < d)%Z) by (unfold d; lia).
  destruct (Z.log2_spec n Hn) as [Hn1 Hn2]. fold a in Hn1, Hn2.
  destruct (Z.log2_spec d Hd) as [Hd1 Hd2]. fold b in Hd1, Hd2.
  assert (Ha : (0 <= a)%Z) by apply Z.log2_nonneg.
  assert (Hb : (0 <= b)%Z) by apply Z.log2_nonneg.
  assert (Eabs : Qabs x == inject_Z n / inject_Z d).
  { unfold n, d. destruct x as [xn xd]. cbn [Qabs Qnum Qden].
    now rewrite <- Qmake_Qdiv. }
  assert (Hdq : 0 < inject_Z d).
  { change 0 with (inject_Z 0). now rewrite <- Zlt_Qlt. }
  assert (Qn1 : 2 ^ a <= inject_Z n).
  { rewrite <- two_power_Z by exact Ha. now rewrite <- Zle_Qle. }
  assert (Qn2 : inject_Z n < 2 ^ (a + 1)).
  { rewrite <- two_power_Z by lia. rewrite <- Zlt_Qlt.
    now rewrite <- Z.add_1_r in Hn2. }
  assert (Qd1 : 2 ^ b <= inject_Z d).
  { rewrite <- two_power_Z by exact Hb. now rewrite <- Zle_Qle. }
  assert (Qd2 : inject_Z d < 2 ^ (b + 1)).
  { rewrite <- two_power_Z by lia. rewrite <- Zlt_Qlt.
    now rewrite <- Z.add_1_r in Hd2. }
  pose proof (two_power_pos (a - b)) as Pk.
  pose proof (two_power_pos b) as Pb.
  assert (Ek : 2 ^ (a - b) * 2 ^ b == 2 ^ a).
  { rewrite <- Qpower_plus by discriminate. now replace (a - b + b)%Z with a by lia. }
  destruct (Qle_bool (2 ^ (a - b)) (Qabs x)) eqn:Et; rewrite Eabs.
  - apply Qle_bool_iff in Et. rewrite Eabs in Et.
    replace (a - b - 52 + 52)%Z with (a - b)%Z by lia.
    replace (a - b - 52 + 53)%Z with (a - b + 1)%Z by lia.
    split; [exact Et |].
    apply Qlt_shift_div_r; [exact Hdq |].
    rewrite two_power_succ. rewrite two_power_succ in Qn2. nra.
  - assert (Hlt : inject_Z n / inject_Z d < 2 ^ (a - b)).
    { apply Qnot_le_lt. intros Hle. rewrite <- Eabs in Hle.
      apply Qle_bool_iff in Hle. congruence. }
    replace (a - b - 1 - 52 + 52)%Z with (a - b - 1)%Z by lia.
    replace (a - b - 1 - 52 + 53)%Z with (a - b)%Z by lia.
    split; [| exact Hlt].
    apply Qle_shift_div_l; [exact Hdq |].
    assert (Ek1 : 2 ^ (a - b) == 2 * 2 ^ (a - b - 1)).
    { rewrite <- two_power_succ. now replace (a - b - 1 + 1)%Z with (a - b)%Z by lia. }
    rewrite two_power_succ in Qd2.
    pose proof (two_power_pos (a - b - 1)) as Pk1. nra.
Qed.


Lemma two_power_split (a b : Z) : 2 ^ (a + b) == 2 ^ a * 2 ^ b.
Proof. apply Qpower_plus. discriminate. Qed.

Lemma scaled_range (x : Q) :
  0 < x ->
  4503599627370496 <= x / 2 ^ exponent x /\
  x / 2 ^ exponent x < 9007199254740992.
Proof.
  intros Hx.
  destruct (exponent_spec x) as [Hlo Hhi]; [lra |].
  rewrite Qabs_pos in Hlo, Hhi by lra.
  rewrite two_power_split in Hlo, Hhi.
  change (2 ^ 52) with 4503599627370496 in Hlo.
  change (2 ^ 53) with 9007199254740992 in Hhi.
  pose proof (two_power_pos (exponent x)) as He. split.
  - apply Qle_shift_div_l; [exact He | lra].
  - apply Qlt_shift_div_r; [exact He | lra].
Qed.

Lemma scaled_back (x : Q) (e : Z) : x / 2 ^ e * 2 ^ e == x.
Proof. field. apply Qpower_not_0. discriminate. Qed.

Lemma round_reduced_nonneg (x : Q) : 0 <= x -> 0 <= round_reduced x.
Proof.
  intros Hx. unfold round_reduced.
  destruct (Qeq_bool x 0) eqn:E; [apply Qle_refl |].
  apply Qeq_bool_neq in E.
  assert (Hpos : 0 < x) by lra.
  destruct (scaled_range x Hpos) as [Hlo _].
  pose proof (nearest_even_above (x / 2 ^ exponent x) 0) as Hm.
  change (inject_Z 0) with 0 in Hm.
  assert (H0 : (0 <= nearest_even (x / 2 ^ exponent x))%Z) by (apply Hm; lra).
  apply Qmult_le_0_compat; [| apply Qlt_le_weak, two_power_pos].
  change 0 with (inject_Z 0). now rewrite <- Zle_Qle.
Qed.

(** The relative error of rounding is at most [2^-53]. *)
Lemma round_reduced_error (x : Q) :
  0 < x ->
  x * (1 - (1 # 9007199254740992)) <= round_reduced x /\
  round_reduced x <= x * (1 + (1 # 9007199254740992)).
Proof.
  intros Hx. unfold round_reduced.
  destruct (Qeq_bool x 0) eqn:E; [apply Qeq_bool_eq in E; lra |].
  destruct (scaled_range x Hx) as [Hlo Hhi].
  destruct (nearest_even_error (x / 2 ^ exponent x)) as [Hm1 Hm2].
  pose proof (two_power_pos (exponent x)) as He.
  pose proof (scaled_back x (exponent x)) as Eb.
  set (t := x / 2 ^ exponent x) in *.
  set (m := inject_Z (nearest_even t)) in *.
  set (p := 2 ^ exponent x) in *.
  rewrite <- Eb. split; nra.
Qed.

(** Rounding does not cross a number it can represent. *)
Lemma round_reduced_le (x : Q) (M E : Z) :
  0 < x -> x <= inject_Z M * 2 ^ E ->
  (4503599627370496 <= M < 9007199254740992)%Z ->
  round_reduced x <= inject_Z M * 2 ^ E.
Proof.
  intros Hx HB HM. unfold round_reduced.
  destruct (Qeq_bool x 0) eqn:E0; [apply Qeq_bool_eq in E0; lra |].
  destruct (scaled_range x Hx) as [Hlo Hhi].
  pose proof (two_power_pos (exponent x)) as He.
  pose proof (two_power_pos E) as HE.
  pose proof (scaled_back x (exponent x)) as Eb.
  assert (HMlo : 4503599627370496 <= inject_Z M).
  { change 4503599627370496 with (inject_Z 4503599627370496).
    rewrite <- Zle_Qle. lia. }
  assert (HMhi : inject_Z M < 9007199254740992).
  { change 9007199254740992 with (inject_Z 9007199254740992).
    rewrite <- Zlt_Qlt. lia. }
  destruct (Z.lt_trichotomy (exponent x) E) as [Hlt | [Heq | Hgt]].
  - assert (Hm : (nearest_even (x / 2 ^ exponent x) <= 9007199254740992)%Z).
    { apply nearest_even_below.
      change (inject_Z 9007199254740992) with 9007199254740992. lra. }
    assert (Hmq : inject_Z (nearest_even (x / 2 ^ exponent x))
                  <= 9007199254740992).
    { change 9007199254740992 with (inject_Z 9007199254740992).
      now rewrite <- Zle_Qle. }
    assert (Hstep : 2 * 2 ^ exponent x <= 2 ^ E).
    { rewrite <- two_power_succ. apply two_power_le. lia. }
    set (m := inject_Z (nearest_even (x / 2 ^ exponent x))) in *.
    nra.
  - rewrite Heq in *.
    assert (Ht : x / 2 ^ E <= inject_Z M).
    { apply Qle_shift_div_r; [exact HE | exact HB]. }
    pose proof (nearest_even_below _ _ Ht) as Hm.
    apply Qmult_le_compat_r; [| lra]. now rewrite <- Zle_Qle.
  - exfalso.
    assert (Hstep : 2 * 2 ^ E <= 2 ^ exponent x).
    { rewrite <- two_power_succ. apply two_power_le. lia. }
    set (t := x / 2 ^ exponent x) in *. nra.
Qed.

Lemma round_reduced_ge (x : Q) (M E : Z) :
  inject_Z M * 2 ^ E <= x ->
  (4503599627370496 <= M < 9007199254740992)%Z ->
  inject_Z M * 2 ^ E <= round_reduced x.
Proof.
  intros HB HM.
  pose proof (two_power_pos E) as HE.
  assert (HMlo : 4503599627370496 <= inject_Z M).
  { change 4503599627370496 with (inject_Z 4503599627370496).
    rewrite <- Zle_Qle. lia. }
  assert (HMhi : inject_Z M < 9007199254740992).
  { change 9007199254740992 with (inject_Z 9007199254740992).
    rewrite <- Zlt_Qlt. lia. }
  assert (Hx : 0 < x) by nra.
  unfold round_reduced.
  destruct (Qeq_bool x 0) eqn:E0; [apply Qeq_bool_eq in E0; lra |].
  destruct (scaled_range x Hx) as [Hlo Hhi].
  pose proof (two_power_pos (exponent x)) as He.
  pose proof (scaled_back x (exponent x)) as Eb.
  destruct (Z.lt_trichotomy (exponent x) E) as [Hlt | [Heq | Hgt]].
  - exfalso.
    assert (Hstep : 2 * 2 ^ exponent x <= 2 ^ E).
    { rewrite <- two_power_succ. apply two_power_le. lia. }
    set (t := x / 2 ^ exponent x) in *. nra.
  - rewrite Heq in *.
    assert (Ht : inject_Z M <= x / 2 ^ E).
    { apply Qle_shift_div_l; [exact HE | exact HB]. }
    pose proof (nearest_even_above _ _ Ht) as Hm.
    apply Qmult_le_compat_r; [| lra]. now rewrite <- Zle_Qle.
  - assert (Hm : (4503599627370496 <= nearest_even (x / 2 ^ exponent x))%Z).
    { apply nearest_even_above.
      change (inject_Z 4503599627370496) with 4503599627370496. lra. }
    assert (Hmq : 4503599627370496
                  <= inject_Z (nearest_even (x / 2 ^ exponent x))).
    { change 4503599627370496 with (inject_Z 4503599627370496).
      now rewrite <- Zle_Qle. }
    assert (Hstep : 2 * 2 ^ E <= 2 ^ exponent x).
    { rewrite <- two_power_succ. apply two_power_le. lia. }
    set (m := inject_Z (nearest_even (x / 2 ^ exponent x))) in *.
    nra.
Qed.

Lemma fl_comp (x y : Q) : x == y -> fl x = fl y.
Proof. intros E. unfold fl. now rewrite (Qred_complete x y E). Qed.

Lemma fl_zero : fl 0 = 0.
Proof. reflexivity. Qed.

Lemma fl_nonneg (x : Q) : 0 <= x -> 0 <= fl x.
Proof.
  intros Hx. apply round_reduced_nonneg. now rewrite Qred_correct.
Qed.

Lemma fl_error (x : Q) :
  0 < x ->
  x * (1 - (1 # 9007199254740992)) <= fl x /\
  fl x <= x * (1 + (1 # 9007199254740992)).
Proof.
  intros Hx. rewrite <- (Qred_correct x) at 1 4.
  apply round_reduced_error. now rewrite Qred_correct.
Qed.

Lemma fl_le (x : Q) (M E : Z) :
  0 <= x -> x <= inject_Z M * 2 ^ E ->
  (4503599627370496 <= M < 9007199254740992)%Z ->
  fl x <= inject_Z M * 2 ^ E.
Proof.
  intros Hx HB HM.
  destruct (Qeq_dec x 0) as [E0 | Hne].
  - rewrite (fl_comp x 0 E0), fl_zero.
    apply Qmult_le_0_compat; [| apply Qlt_le_weak, two_power_pos].
    change 0 with (inject_Z 0). rewrite <- Zle_Qle. lia.
  - apply round_reduced_le; [| | exact HM]; rewrite Qred_correct; [lra | exact HB].
Qed.

Lemma fl_ge (x : Q) (M E : Z) :
  inject_Z M * 2 ^ E <= x ->
  (4503599627370496 <= M < 9007199254740992)%Z ->
  inject_Z M * 2 ^ E <= fl x.
Proof.
  intros HB HM. apply round_reduced_ge; [| exact HM].
  now rewrite Qred_correct.
Qed.

End Binary64Properties.

(** ** Intersection, filtering and scoring *)

Section IntersectionProperties.
Import SpatialIntersection.
Context {G : Type} `{Geometry G}.

Lemma passes_iff (min_area_sqm min_overlap : Q) (c : Candidate G) :
  passes min_area_sqm min_overlap c = true <->
  min_area_sqm <= intersection_area_sqm c /\ min_overlap <= min_overlap_ratio c.
Proof.
  unfold passes. rewrite andb_true_iff, !Qle_bool_iff. tauto.
Qed.

Lemma apply_filtering_criteria_filter (cs : list (Candidate G)) (a r : Q) :
  apply_filtering_criteria cs a r = filter (passes a r) cs.
Proof.
  unfold apply_filtering_criteria. now destruct cs.
Qed.

(** C1. The filter keeps a candidate exactly when its intersection area
    reaches [min_area_sqm] and its minimum overlap ratio reaches
    [min_overlap_ratio], both at once.  A candidate of 5,000 m2 with
    ratio 0.25 passes the ratio test at 0.15 and is still rejected at
    10,000 m2. *)
Theorem filter_keeps_conjunction :
  (forall (cs : list (Candidate G)) (min_area_sqm min_overlap : Q) (c : Candidate G),
      In c (apply_filtering_criteria cs min_area_sqm min_overlap) <->
      In c cs /\
      min_area_sqm <= intersection_area_sqm c /\
      min_overlap <= min_overlap_ratio c)
  /\
  (forall (cs : list (Candidate G)) (c : Candidate G),
      intersection_area_sqm c == 5000 ->
      min_overlap_ratio c == 0.25 ->
      default_min_overlap_ratio <= min_overlap_ratio c /\
      ~ In c (apply_filtering_criteria cs default_min_area_sqm
                                       default_min_overlap_ratio)).
Proof.
  split.
  - intros cs a r c.
    rewrite apply_filtering_criteria_filter, filter_In, passes_iff. tauto.
  - intros cs c Harea Hratio.
    unfold default_min_overlap_ratio, default_min_area_sqm. split.
    + rewrite Hratio. discriminate.
    + rewrite apply_filtering_criteria_filter, filter_In, passes_iff.
      intros (_ & Hbig & _). rewrite Harea in Hbig.
      now apply Hbig.
Qed.

Context `{!GeometryLaws G}.

Lemma overlap_areas (a b : G) :
  overlaps a b = true ->
  0 < area (intersection a b) /\ 0 < area a /\ 0 < area b.
Proof.
  unfold overlaps. rewrite !andb_true_iff, negb_true_iff.
  intros [[_ Hne] Hpoly].
  pose proof (polygon_area_pos _ Hne Hpoly) as Hpos.
  pose proof (intersection_area_l a b) as Hl.
  pose proof (intersection_area_r a b) as Hr.
  repeat split; lra.
Qed.

(** One pair of rows: the candidate of the pair when the geometries
    overlap, nothing otherwise, and never an exception. *)
Lemma intersect_pair_overlaps (idx_d : nat) (a : DiningZone G)
      (idx_t : nat) (b : TaxiZone G) :
  intersect_pair idx_d a idx_t b =
  Ok (if overlaps (d_geometry a) (t_geometry b)
      then Some (Spec.candidate_of idx_d a idx_t b)
      else None).
Proof.
  destruct (overlaps (d_geometry a) (t_geometry b)) eqn:Hov.
  - destruct (overlap_areas _ _ Hov) as (_ & Ha & Hb).
    unfold overlaps in Hov. rewrite !andb_true_iff, negb_true_iff in Hov.
    destruct Hov as [[Hi Hne] Hpoly].
    unfold intersect_pair. rewrite Hi, Hne, Hpoly. cbn [negb].
    rewrite !py_div_nonzero by lra. cbn [bind].
    unfold Spec.candidate_of. now rewrite py_min_Qmin.
  - unfold overlaps in Hov. unfold intersect_pair.
    destruct (intersects _ _); [| reflexivity].
    destruct (is_empty _); [reflexivity |].
    destruct (is_polygonal _); [discriminate | reflexivity].
Qed.

Lemma taxi_loop_emits (idx_d : nat) (a : DiningZone G) (taxi : list (TaxiZone G)) :
  forall idx_t, exists cands,
    taxi_loop idx_d a idx_t taxi = Ok cands /\
    forall c, In c cands <->
              exists k b, nth_error taxi k = Some b /\
                          overlaps (d_geometry a) (t_geometry b) = true /\
                          c = Spec.candidate_of idx_d a (idx_t + k) b.
Proof.
  induction taxi as [| b taxi IH]; intros idx_t.
  - exists []. split; [reflexivity |]. intros c. split; [intros [] |].
    intros ([| k] & b & Hk & _); discriminate.
  - destruct (IH (S idx_t)) as (later & Hlater & Hin).
    cbn [taxi_loop]. rewrite intersect_pair_overlaps, Hlater. cbn [bind].
    eexists. split; [reflexivity |]. intros c.
    destruct (overlaps (d_geometry a) (t_geometry b)) eqn:Hov.
    + split.
      * intros [<- | Hc].
        -- exists 0%nat, b. now rewrite Nat.add_0_r.
        -- apply Hin in Hc. destruct Hc as (k & b' & Hk & Hov' & ->).
           exists (S k), b'. now rewrite Nat.add_succ_r.
      * intros ([| k] & b' & Hk & Hov' & ->).
        -- injection Hk as <-. left. now rewrite Nat.add_0_r.
        -- right. apply Hin. exists k, b'. now rewrite Nat.add_succ_r.
    + split.
      * intros Hc. apply Hin in Hc. destruct Hc as (k & b' & Hk & Hov' & ->).
        exists (S k), b'. now rewrite Nat.add_succ_r.
      * intros ([| k] & b' & Hk & Hov' & ->).
        -- injection Hk as <-. congruence.
        -- apply Hin. exists k, b'. now rewrite Nat.add_succ_r.
Qed.

Lemma dining_loop_emits (taxi : list (TaxiZone G)) (dining : list (DiningZone G)) :
  forall idx_d, exists cands,
    dining_loop idx_d dining taxi = Ok cands /\
    forall c, In c cands <->
              exists i a j b, nth_error dining i = Some a /\
                              nth_error taxi j = Some b /\
                              overlaps (d_geometry a) (t_geometry b) = true /\
                              c = Spec.candidate_of (idx_d + i) a j b.
Proof.
  induction dining as [| a dining IH]; intros idx_d.
  - exists []. split; [reflexivity |]. intros c. split; [intros [] |].
    intros ([| i] & a & j & b & Hi & _); discriminate.
  - destruct (IH (S idx_d)) as (later & Hlater & Hin).
    destruct (taxi_loop_emits idx_d a taxi 0) as (here & Hhere & Hin0).
    cbn [dining_loop]. rewrite Hhere, Hlater. cbn [bind].
    eexists. split; [reflexivity |]. intros c. rewrite in_app_iff. split.
    + intros [Hc | Hc].
      * apply Hin0 in Hc. destruct Hc as (j & b & Hj & Hov & ->).
        exists 0%nat, a, j, b. now rewrite Nat.add_0_r.
      * apply Hin in Hc. destruct Hc as (i & a' & j & b & Hi & Hj & Hov & ->).
        exists (S i), a', j, b. now rewrite Nat.add_succ_r.
    + intros ([| i] & a' & j & b & Hi & Hj & Hov & ->).
      * injection Hi as <-. left. apply Hin0. exists j, b.
        now rewrite Nat.add_0_r.
      * right. apply Hin. exists i, a', j, b. now rewrite Nat.add_succ_r.
Qed.

(** C2. Over a lawful geometry the scan of all pairs raises nothing, and
    it emits a candidate for the pair of dining row [i] and taxi row [j]
    exactly when the two geometries intersect in a non-empty Polygon or
    MultiPolygon; the candidate carries the intersection area divided by
    each source area and the minimum of the two ratios. *)
Theorem intersections_emitted_iff_overlap
        (dining : list (DiningZone G)) (taxi : list (TaxiZone G)) :
  exists cands,
    compute_spatial_intersections dining taxi = Ok cands /\
    (forall c, In c cands <->
               exists i a j b,
                 nth_error dining i = Some a /\
                 nth_error taxi j = Some b /\
                 (intersects (d_geometry a) (t_geometry b) = true /\
                  is_empty (intersection (d_geometry a) (t_geometry b)) = false /\
                  (geom_type (intersection (d_geometry a) (t_geometry b)) = Polygon \/
                   geom_type (intersection (d_geometry a) (t_geometry b)) = MultiPolygon)) /\
                 geometry c = intersection (d_geometry a) (t_geometry b) /\
                 intersection_area_sqm c = area (geometry c) /\
                 0 < intersection_area_sqm c /\
                 overlap_ratio_dining c =
                   intersection_area_sqm c / area (d_geometry a) /\
                 overlap_ratio_taxi c =
                   intersection_area_sqm c / area (t_geometry b) /\
                 min_overlap_ratio c =
                   Qmin (overlap_ratio_dining c) (overlap_ratio_taxi c) /\
                 c = Spec.candidate_of i a j b).
Proof.
  destruct (dining_loop_emits taxi dining 0) as (cands & Hrun & Hin).
  exists cands. split; [exact Hrun |]. intros c. rewrite Hin. split.
  - intros (i & a & j & b & Hi & Hj & Hov & ->).
    exists i, a, j, b. cbn [Nat.add]. repeat split; try assumption;
      try reflexivity.
    + unfold overlaps in Hov. now rewrite !andb_true_iff in Hov.
    + unfold overlaps in Hov. rewrite !andb_true_iff, negb_true_iff in Hov.
      tauto.
    + unfold overlaps in Hov. rewrite !andb_true_iff in Hov.
      destruct Hov as [_ Hpoly]. revert Hpoly.
      destruct (geom_type _); cbn; intros; try discriminate; auto.
    + now apply overlap_areas.
  - intros (i & a & j & b & Hi & Hj & (Hint & Hne & Hty) & _ & _ & _ & _ & _ & _ & ->).
    exists i, a, j, b. repeat split; try assumption.
    unfold overlaps. rewrite Hint, Hne.
    destruct Hty as [-> | ->]; reflexivity.
Qed.

(** C10. Every candidate the scan emits has a positive intersection
    area, both overlap ratios in (0, 1] and a minimum ratio below both:
    the intersection lies inside each source polygon. *)
Theorem emitted_candidates_bounded
        (dining : list (DiningZone G)) (taxi : list (TaxiZone G)) :
  exists cands,
    compute_spatial_intersections dining taxi = Ok cands /\
    forall c, In c cands ->
              0 < intersection_area_sqm c /\
              (0 < overlap_ratio_dining c /\ overlap_ratio_dining c <= 1) /\
              (0 < overlap_ratio_taxi c /\ overlap_ratio_taxi c <= 1) /\
              min_overlap_ratio c <= overlap_ratio_dining c /\
              min_overlap_ratio c <= overlap_ratio_taxi c.
Proof.
  destruct (dining_loop_emits taxi dining 0) as (cands & Hrun & Hin).
  exists cands. split; [exact Hrun |]. intros c Hc.
  apply Hin in Hc. destruct Hc as (i & a & j & b & _ & _ & Hov & ->).
  destruct (overlap_areas _ _ Hov) as (Hi & Ha & Hb).
  pose proof (intersection_area_l (d_geometry a) (t_geometry b)) as Hl.
  pose proof (intersection_area_r (d_geometry a) (t_geometry b)) as Hr.
  cbn [Spec.candidate_of intersection_area_sqm overlap_ratio_dining
       overlap_ratio_taxi min_overlap_ratio].
  repeat split.
  - exact Hi.
  - apply Qlt_shift_div_l; lra.
  - apply Qle_shift_div_r; lra.
  - apply Qlt_shift_div_l; lra.
  - apply Qle_shift_div_r; lra.
  - apply Q.le_min_l.
  - apply Q.le_min_r.
Qed.

End IntersectionProperties.

(** Boxes are a lawful geometry. *)

Section BoxLaws.
Import SpatialIntersection Boxes.

Lemma box_polygon_area_pos (g : Box) :
  box_is_empty g = false -> is_polygonal (box_geom_type g) = true ->
  0 < box_area g.
Proof.
  unfold box_geom_type, box_area, box_is_empty. intros Hne.
  rewrite Hne. rewrite orb_false_iff, !Z.ltb_ge in Hne.
  destruct ((x_min g =? x_max g) && (y_min g =? y_max g))%Z eqn:E1;
    [discriminate |].
  destruct ((x_min g =? x_max g) || (y_min g =? y_max g))%Z eqn:E2;
    [discriminate |].
  intros _. rewrite orb_false_iff, !Z.eqb_neq in E2.
  change 0 with (inject_Z 0). rewrite <- Zlt_Qlt. nia.
Qed.

Lemma box_intersection_area_l (a b : Box) :
  box_area (box_intersection a b) <= box_area a.
Proof.
  unfold box_area, box_intersection. cbn [x_min x_max y_min y_max].
  rewrite <- Zle_Qle. apply Z.mul_le_mono_nonneg; lia.
Qed.

Lemma box_intersection_area_r (a b : Box) :
  box_area (box_intersection a b) <= box_area b.
Proof.
  unfold box_area, box_intersection. cbn [x_min x_max y_min y_max].
  rewrite <- Zle_Qle. apply Z.mul_le_mono_nonneg; lia.
Qed.

#[export] Instance box_laws : GeometryLaws Box.
Proof.
  constructor.
  - exact box_polygon_area_pos.
  - exact box_intersection_area_l.
  - exact box_intersection_area_r.
Qed.

(** The scan on the scenario: one candidate, for the overlapping pair;
    the pair that only shares an edge yields none. *)
Example scenario_candidates :
  compute_spatial_intersections [scenario_dining] [scenario_taxi; touching_taxi]
  = Ok [Spec.candidate_of 0 scenario_dining 0 scenario_taxi].
Proof. reflexivity. Qed.

Example scenario_ratios :
  let c := Spec.candidate_of 0 scenario_dining 0 scenario_taxi in
  intersection_area_sqm c == 5000 /\
  overlap_ratio_dining c == 0.25 /\
  overlap_ratio_taxi c == 1 # 3 /\
  min_overlap_ratio c == 0.25.
Proof. repeat split. Qed.

Example scenario_rejected :
  apply_filtering_criteria [Spec.candidate_of 0 scenario_dining 0 scenario_taxi]
                           default_min_area_sqm default_min_overlap_ratio = [].
Proof. reflexivity. Qed.

Lemma intersections_emitted_iff_overlap_witness :
  exists cands,
    compute_spatial_intersections [scenario_dining] [scenario_taxi; touching_taxi]
    = Ok cands /\
    forall c, In c cands <->
              exists i a j b,
                nth_error [scenario_dining] i = Some a /\
                nth_error [scenario_taxi; touching_taxi] j = Some b /\
                (intersects (d_geometry a) (t_geometry b) = true /\
                 is_empty (intersection (d_geometry a) (t_geometry b)) = false /\
                 (geom_type (intersection (d_geometry a) (t_geometry b)) = Polygon \/
                  geom_type (intersection (d_geometry a) (t_geometry b)) = MultiPolygon)) /\
                geometry c = intersection (d_geometry a) (t_geometry b) /\
                intersection_area_sqm c = area (geometry c) /\
                0 < intersection_area_sqm c /\
                overlap_ratio_dining c =
                  intersection_area_sqm c / area (d_geometry a) /\
                overlap_ratio_taxi c =
                  intersection_area_sqm c / area (t_geometry b) /\
                min_overlap_ratio c =
                  Qmin (overlap_ratio_dining c) (overlap_ratio_taxi c) /\
                c = Spec.candidate_of i a j b.
Proof.
  exact (@intersections_emitted_iff_overlap Box box_geometry box_laws
           [scenario_dining] [scenario_taxi; touching_taxi]).
Defined.

Lemma emitted_candidates_bounded_witness :
  exists cands,
    compute_spatial_intersections [scenario_dining] [scenario_taxi; touching_taxi]
    = Ok cands /\
    forall c, In c cands ->
              0 < intersection_area_sqm c /\
              (0 < overlap_ratio_dining c /\ overlap_ratio_dining c <= 1) /\
              (0 < overlap_ratio_taxi c /\ overlap_ratio_taxi c <= 1) /\
              min_overlap_ratio c <= overlap_ratio_dining c /\
              min_overlap_ratio c <= overlap_ratio_taxi c.
Proof.
  exact (@emitted_candidates_bounded Box box_geometry box_laws
           [scenario_dining] [scenario_taxi; touching_taxi]).
Defined.

End BoxLaws.

(** ** Composite scores *)

Section ScoreProperties.
Import SpatialIntersection Binary64.
Context {G : Type} `{Geometry G}.

(** What every retained candidate satisfies: a positive intersection
    area, a count of restaurants and a sum of weights. *)
Definition well_formed (c : Candidate G) : Prop :=
  0 < intersection_area_sqm c /\
  (0 <= n_restaurants c)%Z /\
  0 <= taxi_weight c.

Lemma quotient_nonneg (a b : Q) : 0 <= a -> 0 <= b -> 0 <= a / b.
Proof.
  intros Ha Hb. unfold Qdiv. apply Qmult_le_0_compat; [exact Ha |].
  now apply Qinv_le_0_compat.
Qed.

Lemma density_nonneg (amount : Q) (c : Candidate G) :
  0 <= amount -> 0 < intersection_area_sqm c -> 0 <= density amount c.
Proof.
  intros Ha Hc. unfold density, fdiv.
  apply fl_nonneg, quotient_nonneg; [exact Ha |].
  apply fl_nonneg, quotient_nonneg; lra.
Qed.

Lemma restaurant_density_nonneg (c : Candidate G) :
  well_formed c -> 0 <= restaurant_density_of c.
Proof.
  intros (Ha & Hn & _). apply density_nonneg; [| exact Ha].
  apply fl_nonneg. change 0 with (inject_Z 0). now rewrite <- Zle_Qle.
Qed.

Lemma taxi_density_nonneg (c : Candidate G) :
  well_formed c -> 0 <= taxi_density_of c.
Proof.
  intros (Ha & _ & Hw). now apply density_nonneg.
Qed.

Lemma ulp_100_value : ulp_100 == 1 # 70368744177664.
Proof. reflexivity. Qed.

(** The two neighbours of 100 among the floats. *)
Lemma above_100 : inject_Z 7036874417766401 * 2 ^ (-46) == 100 + ulp_100.
Proof. reflexivity. Qed.

Lemma below_100 : inject_Z 7036874417766399 * 2 ^ (-46) == 100 - ulp_100.
Proof. reflexivity. Qed.

(** A rounded sub-score.  Rounding the product and then the quotient can
    carry a row past 100, by one unit in the last place and no more. *)
Lemma normalise_bounds (column_max v : Q) :
  0 <= v -> v <= column_max ->
  0 <= normalise column_max v /\ normalise column_max v <= 100 + ulp_100.
Proof.
  intros H0 Hmax. unfold normalise. rewrite ulp_100_value.
  destruct (Qlt_le_dec 0 column_max) as [Hpos | Hnonpos]; [| lra].
  unfold fdiv, fmul.
  assert (Ha0 : 0 <= fl (100 * v)) by (apply fl_nonneg; lra).
  assert (Ha1 : fl (100 * v)
                <= 100 * column_max * (1 + (1 # 9007199254740992))).
  { destruct (Qeq_dec v 0) as [Ez | Hnz].
    - rewrite (fl_comp (100 * v) 0) by (rewrite Ez; ring).
      rewrite fl_zero. nra.
    - destruct (fl_error (100 * v)) as [_ Hup]; [lra |]. nra. }
  split.
  - apply fl_nonneg, quotient_nonneg; lra.
  - rewrite <- ulp_100_value, <- above_100. apply fl_le.
    + apply quotient_nonneg; lra.
    + rewrite above_100, ulp_100_value.
      apply Qle_shift_div_r; [exact Hpos |]. nra.
    + lia.
Qed.

(** The row that attains the maximum scores 100 up to one unit in the
    last place, on either side. *)
Lemma normalise_of_max (column_max v : Q) :
  0 < column_max -> v == column_max ->
  100 - ulp_100 <= normalise column_max v /\
  normalise column_max v <= 100 + ulp_100.
Proof.
  intros Hpos Hv. split; [| apply normalise_bounds; lra].
  unfold normalise.
  destruct (Qlt_le_dec 0 column_max) as [_ | Hnonpos]; [| lra].
  unfold fdiv, fmul.
  destruct (fl_error (100 * v)) as [Hlow _]; [lra |].
  rewrite <- below_100. apply fl_ge; [| lia].
  rewrite below_100, ulp_100_value.
  apply Qle_shift_div_l; [exact Hpos |]. nra.
Qed.

Lemma normalise_zero_max (column_max v : Q) :
  column_max == 0 -> normalise column_max v == 0.
Proof.
  intros Hz. unfold normalise.
  destruct (Qlt_le_dec 0 column_max) as [Hpos | _]; [lra | reflexivity].
Qed.

(** Halving a score is exact up to the same bound, and so is the sum. *)
Lemma popularity_bounds (restaurant_score taxi_score : Q) :
  0 <= restaurant_score -> restaurant_score <= 100 + ulp_100 ->
  0 <= taxi_score -> taxi_score <= 100 + ulp_100 ->
  0 <= popularity restaurant_score taxi_score /\
  popularity restaurant_score taxi_score <= 100 + ulp_100.
Proof.
  rewrite ulp_100_value. intros Hr0 Hr Ht0 Ht.
  unfold popularity, fadd, fmul.
  assert (Ehalf : inject_Z 7036874417766401 * 2 ^ (-47)
                  == 50 + (1 # 140737488355328)) by reflexivity.
  assert (Hr' : 0 <= fl (0.5 * restaurant_score) /\
                fl (0.5 * restaurant_score) <= 50 + (1 # 140737488355328)).
  { split; [apply fl_nonneg; lra |].
    rewrite <- Ehalf. apply fl_le; [lra | rewrite Ehalf; lra | lia]. }
  assert (Ht' : 0 <= fl (0.5 * taxi_score) /\
                fl (0.5 * taxi_score) <= 50 + (1 # 140737488355328)).
  { split; [apply fl_nonneg; lra |].
    rewrite <- Ehalf. apply fl_le; [lra | rewrite Ehalf; lra | lia]. }
  split; [apply fl_nonneg; lra |].
  rewrite <- ulp_100_value, <- above_100.
  apply fl_le; [lra | rewrite above_100, ulp_100_value; lra | lia].
Qed.

Lemma scored_rows (cs : list (Candidate G)) (h : Hotspot G) :
  In h (calculate_composite_scores cs) ->
  In (candidate h) cs /\
  restaurant_density h = restaurant_density_of (candidate h) /\
  taxi_density h = taxi_density_of (candidate h) /\
  restaurant_score h =
    normalise (series_max 0 (map restaurant_density_of cs)) (restaurant_density h) /\
  taxi_score h =
    normalise (series_max 0 (map taxi_density_of cs)) (taxi_density h) /\
  popularity_score h = popularity (restaurant_score h) (taxi_score h).
Proof.
  unfold calculate_composite_scores.
  destruct (length cs =? 0)%nat; [intros [] |].
  rewrite in_map_iff. intros (c & <- & Hc). cbn. auto 10.
Qed.

Lemma scored_rows_cover (cs : list (Candidate G)) (c : Candidate G) :
  In c cs -> exists h, In h (calculate_composite_scores cs) /\ candidate h = c.
Proof.
  intros Hc. unfold calculate_composite_scores.
  destruct cs as [| c0 cs]; [destruct Hc |].
  cbn [length Nat.eqb]. eexists. split.
  - apply in_map_iff. exists c. split; [reflexivity | exact Hc].
  - reflexivity.
Qed.

(** What holds of the scores of every table of retained candidates. *)
Lemma scores_within_one_ulp (cs : list (Candidate G)) :
  Forall well_formed cs ->
  let restaurant_max := series_max 0 (map restaurant_density_of cs) in
  let taxi_max := series_max 0 (map taxi_density_of cs) in
  (forall h, In h (calculate_composite_scores cs) ->
     popularity_score h
     = fadd (fmul 0.5 (restaurant_score h)) (fmul 0.5 (taxi_score h)) /\
     (0 <= popularity_score h /\ popularity_score h <= 100 + ulp_100) /\
     (0 <= restaurant_score h /\ restaurant_score h <= 100 + ulp_100) /\
     (0 <= taxi_score h /\ taxi_score h <= 100 + ulp_100) /\
     (0 < restaurant_max ->
      restaurant_score h
      = fdiv (fmul 100 (restaurant_density h)) restaurant_max) /\
     (0 < taxi_max ->
      taxi_score h = fdiv (fmul 100 (taxi_density h)) taxi_max) /\
     (0 < restaurant_max -> restaurant_density h == restaurant_max ->
      100 - ulp_100 <= restaurant_score h) /\
     (0 < taxi_max -> taxi_density h == taxi_max ->
      100 - ulp_100 <= taxi_score h) /\
     (restaurant_max == 0 -> restaurant_score h == 0) /\
     (taxi_max == 0 -> taxi_score h == 0))
  /\
  (cs <> [] ->
   (exists h, In h (calculate_composite_scores cs) /\
              restaurant_density h == restaurant_max) /\
   (exists h, In h (calculate_composite_scores cs) /\
              taxi_density h == taxi_max)).
Proof.
  intros Hwf restaurant_max taxi_max. rewrite Forall_forall in Hwf. split.
  - intros h Hh.
    destruct (scored_rows cs h Hh) as (Hc & Erd & Etd & Ers & Ets & Epop).
    fold restaurant_max in Ers. fold taxi_max in Ets.
    assert (Hrd : 0 <= restaurant_density h <= restaurant_max).
    { rewrite Erd. split.
      - apply restaurant_density_nonneg. now apply Hwf.
      - apply series_max_upper. now apply in_map. }
    assert (Htd : 0 <= taxi_density h <= taxi_max).
    { rewrite Etd. split.
      - apply taxi_density_nonneg. now apply Hwf.
      - apply series_max_upper. now apply in_map. }
    destruct (normalise_bounds restaurant_max (restaurant_density h))
      as [Hr0 Hr100]; [tauto | tauto |].
    destruct (normalise_bounds taxi_max (taxi_density h))
      as [Ht0 Ht100]; [tauto | tauto |].
    rewrite <- Ers in Hr0, Hr100. rewrite <- Ets in Ht0, Ht100.
    pose proof (popularity_bounds _ _ Hr0 Hr100 Ht0 Ht100) as Hpop.
    rewrite <- Epop in Hpop.
    refine (conj Epop (conj Hpop (conj (conj Hr0 Hr100) (conj (conj Ht0 Ht100)
             (conj _ (conj _ (conj _ (conj _ (conj _ _))))))))).
    + intros Hpos. rewrite Ers. unfold normalise.
      destruct (Qlt_le_dec 0 restaurant_max); [reflexivity | lra].
    + intros Hpos. rewrite Ets. unfold normalise.
      destruct (Qlt_le_dec 0 taxi_max); [reflexivity | lra].
    + intros Hpos Hmax. rewrite Ers. now apply normalise_of_max.
    + intros Hpos Hmax. rewrite Ets. now apply normalise_of_max.
    + intros Hz. rewrite Ers. now apply normalise_zero_max.
    + intros Hz. rewrite Ets. now apply normalise_zero_max.
  - intros Hne. split.
    + destruct (series_max_attained 0 (map restaurant_density_of cs))
        as (u & Hu & Emax).
      { destruct cs; [congruence | discriminate]. }
      apply in_map_iff in Hu. destruct Hu as (c & <- & Hc).
      destruct (scored_rows_cover cs c Hc) as (h & Hh & Ec).
      exists h. split; [exact Hh |].
      destruct (scored_rows cs h Hh) as (_ & Erd & _).
      rewrite Erd, Ec. symmetry. exact Emax.
    + destruct (series_max_attained 0 (map taxi_density_of cs))
        as (u & Hu & Emax).
      { destruct cs; [congruence | discriminate]. }
      apply in_map_iff in Hu. destruct Hu as (c & <- & Hc).
      destruct (scored_rows_cover cs c Hc) as (h & Hh & Ec).
      exists h. split; [exact Hh |].
      destruct (scored_rows cs h Hh) as (_ & _ & Etd & _).
      rewrite Etd, Ec. symmetry. exact Emax.
Qed.

End ScoreProperties.

Section ScoreExamples.
Import SpatialIntersection Binary64 Boxes.

Example two_candidates_emitted :
  compute_spatial_intersections [scenario_dining; plaza_dining] [scenario_taxi]
  = Ok two_candidates.
Proof. reflexivity. Qed.

Example two_candidates_scores :
  map (fun h => (Qred (restaurant_score h), Qred (taxi_score h),
                 Qred (popularity_score h), rank h))
      (calculate_composite_scores two_candidates)
  = [(100, 100, 100, 1%Z);
     (4691249611844267 # 562949953421312,
      4691249611844267 # 140737488355328,
      2932031007402667 # 140737488355328, 2%Z)].
Proof. vm_compute. reflexivity. Qed.

Lemma two_candidates_well_formed : Forall well_formed two_candidates.
Proof.
  repeat apply Forall_cons; try apply Forall_nil;
    (refine (conj _ (conj _ _)); vm_compute; [reflexivity | | ];
     intros C; discriminate C).
Qed.

(** The candidate of the two corner zones is what the scan emits for
    them, and the default thresholds keep it. *)
Example corner_candidate_retained :
  compute_spatial_intersections [corner_dining] [corner_taxi]
  = Ok [corner_candidate] /\
  apply_filtering_criteria [corner_candidate]
                           default_min_area_sqm default_min_overlap_ratio
  = [corner_candidate].
Proof. split; vm_compute; reflexivity. Qed.

(** C8, where the code leaves it.  The sub-scores are computed as
    [100 * density / max], the product rounded before the quotient, and
    the quotient of a maximal row by itself need not come back as 100:
    for the one candidate of 11 restaurants and weight 1.3 on 15,000 m2
    both sub-scores and the popularity score are 100 + 2^-46, above 100.
    What holds of every table of retained candidates: the popularity
    score is the rounded mean of the two sub-scores; the three scores lie
    between 0 and 100 + 2^-46; a row that attains the largest density
    scores within 2^-46 of 100 and such a row exists; when the largest
    density is 0 every row scores 0 on that axis. *)
Theorem popularity_score_leaves_range :
  (exists h,
      calculate_composite_scores [corner_candidate] = [h] /\
      restaurant_density h
      == series_max 0 (map restaurant_density_of [corner_candidate]) /\
      taxi_density h
      == series_max 0 (map taxi_density_of [corner_candidate]) /\
      restaurant_score h == 100 + ulp_100 /\
      taxi_score h == 100 + ulp_100 /\
      popularity_score h == 100 + ulp_100 /\
      100 < popularity_score h)
  /\
  (forall (G : Type) (shapely : Geometry G) (cs : list (Candidate G)),
      Forall well_formed cs ->
      let restaurant_max := series_max 0 (map restaurant_density_of cs) in
      let taxi_max := series_max 0 (map taxi_density_of cs) in
      (forall h, In h (calculate_composite_scores cs) ->
         popularity_score h
         = fadd (fmul 0.5 (restaurant_score h)) (fmul 0.5 (taxi_score h)) /\
         (0 <= popularity_score h /\ popularity_score h <= 100 + ulp_100) /\
         (0 <= restaurant_score h /\ restaurant_score h <= 100 + ulp_100) /\
         (0 <= taxi_score h /\ taxi_score h <= 100 + ulp_100) /\
         (0 < restaurant_max ->
          restaurant_score h
          = fdiv (fmul 100 (restaurant_density h)) restaurant_max) /\
         (0 < taxi_max ->
          taxi_score h = fdiv (fmul 100 (taxi_density h)) taxi_max) /\
         (0 < restaurant_max -> restaurant_density h == restaurant_max ->
          100 - ulp_100 <= restaurant_score h) /\
         (0 < taxi_max -> taxi_density h == taxi_max ->
          100 - ulp_100 <= taxi_score h) /\
         (restaurant_max == 0 -> restaurant_score h == 0) /\
         (taxi_max == 0 -> taxi_score h == 0))
      /\
      (cs <> [] ->
       (exists h, In h (calculate_composite_scores cs) /\
                  restaurant_density h == restaurant_max) /\
       (exists h, In h (calculate_composite_scores cs) /\
                  taxi_density h == taxi_max))).
Proof.
  split.
  - eexists. split; [reflexivity |].
    refine (conj _ (conj _ (conj _ (conj _ (conj _ _)))));
      vm_compute; reflexivity.
  - intros G shapely cs Hwf. exact (scores_within_one_ulp cs Hwf).
Qed.

(** The order of the two operations matters: the quotient taken first
    is 1 for a maximal row and the score 100; the product taken first, as
    the script does, leaves the corner candidate above 100. *)
Example quotient_first_product_first :
  let d := restaurant_density_of corner_candidate in
  fmul 100 (fdiv d d) == 100 /\
  fdiv (fmul 100 d) d == 100 + ulp_100.
Proof. cbv zeta. split; vm_compute; reflexivity. Qed.

(** The bounds on the two candidates of the scan. *)
Example two_candidates_within_one_ulp :
  forall h, In h (calculate_composite_scores two_candidates) ->
            0 <= popularity_score h /\ popularity_score h <= 100 + ulp_100.
Proof.
  intros h Hh.
  destruct (scores_within_one_ulp two_candidates two_candidates_well_formed)
    as [Hall _].
  destruct (Hall h Hh) as (_ & Hpop & _). exact Hpop.
Qed.

End ScoreExamples.

(** ** Deduplication *)

Section DeduplicateProperties.
Import MergeRestaurants.
Context `{NameSimilarity} `{KDTree} `{!KDTreeLaws}.
Variables (primary : list Restaurant) (thr : Q) (nthr : Z).

Abbreviation duplicate := (is_duplicate primary thr nthr).
Abbreviation retained := (fun r => negb (is_duplicate primary thr nthr r)).

Lemma Qlt_bool_iff (a b : Q) : Qlt_bool a b = true <-> a < b.
Proof.
  unfold Qlt_bool. rewrite negb_true_iff. split.
  - intros E. apply Qnot_le_lt. intros Hle.
    apply Qle_bool_iff in Hle. congruence.
  - intros Hlt. destruct (Qle_bool b a) eqn:E; [| reflexivity].
    apply Qle_bool_iff in E. apply Qle_not_lt in E. contradiction.
Qed.

(** The neighbour the loop consults: the row of the primary table at
    the position the index reports.  It is a nearest neighbour, and the
    secondary row is marked exactly when the two tests pass on it. *)
Lemma consulted_neighbour (row2 : Restaurant) :
  primary <> [] ->
  exists idx1 row1,
    nth_error primary idx1 = Some row1 /\
    Spec.nearest_neighbour primary row2 row1 /\
    (duplicate row2 = true <-> Spec.is_match thr nthr row2 row1).
Proof.
  intros Hrows.
  assert (Hcoords : map coord primary <> []).
  { intros E. apply map_eq_nil in E. contradiction. }
  destruct (@query_in_table _ _ (map coord primary) (coord row2) Hcoords)
    as (p & Hp & Ed).
  pose proof (@query_is_nearest _ _ (map coord primary) (coord row2)) as Hmin.
  unfold is_duplicate.
  destruct (query (map coord primary) (coord row2)) as [d idx1].
  cbn [fst snd] in Hp, Ed, Hmin.
  rewrite nth_error_map in Hp.
  destruct (nth_error primary idx1) as [row1 |] eqn:E1; [| discriminate].
  cbn in Hp. injection Hp as <-.
  exists idx1, row1. split; [exact E1 |]. split.
  - split; [exact (nth_error_In _ _ E1) |].
    intros other Ho. rewrite <- Ed. apply Hmin. now apply in_map.
  - unfold Spec.is_match. rewrite <- Ed.
    destruct (Qlt_bool d thr) eqn:Ew.
    + apply Qlt_bool_iff in Ew. rewrite Z.leb_le. tauto.
    + split; [discriminate |]. intros [Hlt _].
      apply Qlt_bool_iff in Hlt. congruence.
Qed.

Lemma duplicates_from_positions (secondary : list Restaurant) :
  forall idx idx2,
    In idx2 (duplicates_from primary thr nthr idx secondary) <->
    exists k row2, idx2 = (idx + k)%nat /\
                   nth_error secondary k = Some row2 /\
                   duplicate row2 = true.
Proof.
  induction secondary as [| r rest IH]; intros idx idx2; cbn [duplicates_from].
  - split; [intros [] |]. intros ([| k] & row2 & _ & Hk & _); discriminate.
  - destruct (duplicate r) eqn:Er.
    + cbn [In]. rewrite IH. split.
      * intros [<- | (k & row2 & -> & Hk & Hd)].
        -- exists 0%nat, r. now rewrite Nat.add_0_r.
        -- exists (S k), row2. now rewrite Nat.add_succ_r.
      * intros ([| k] & row2 & -> & Hk & Hd).
        -- left. now rewrite Nat.add_0_r.
        -- right. exists k, row2. now rewrite Nat.add_succ_r.
    + rewrite IH. split.
      * intros (k & row2 & -> & Hk & Hd).
        exists (S k), row2. now rewrite Nat.add_succ_r.
      * intros ([| k] & row2 & -> & Hk & Hd).
        -- injection Hk as <-. congruence.
        -- exists k, row2. now rewrite Nat.add_succ_r.
Qed.

Lemma drop_from_filter (duplicates : list nat) (rows : list Restaurant) :
  forall idx,
    (forall k row, nth_error rows k = Some row ->
                   (In (idx + k)%nat duplicates <-> duplicate row = true)) ->
    drop_from idx duplicates rows = filter retained rows.
Proof.
  induction rows as [| r rest IH]; intros idx Hdup; cbn [drop_from filter].
  - reflexivity.
  - assert (Hrest : drop_from (S idx) duplicates rest = filter retained rest).
    { apply IH. intros k row Hk.
      replace (S idx + k)%nat with (idx + S k)%nat by lia.
      now apply (Hdup (S k)). }
    specialize (Hdup 0%nat r eq_refl). rewrite Nat.add_0_r in Hdup.
    destruct (existsb (Nat.eqb idx) duplicates) eqn:E.
    + apply existsb_exists in E. destruct E as (j & Hj & Ej).
      apply Nat.eqb_eq in Ej. subst j.
      apply Hdup in Hj. rewrite Hj. exact Hrest.
    + destruct (duplicate r) eqn:Er.
      * assert (Hidx : In idx duplicates) by now apply Hdup.
        assert (existsb (Nat.eqb idx) duplicates = true); [| congruence].
        apply existsb_exists. exists idx. split; [exact Hidx | apply Nat.eqb_refl].
      * cbn [negb]. now rewrite Hrest.
Qed.

Lemma deduplicate_restaurants_filter (secondary : list Restaurant) :
  primary <> [] ->
  deduplicate_restaurants primary thr nthr secondary
  = Ok (primary ++ filter retained secondary).
Proof.
  intros Hrows. unfold deduplicate_restaurants.
  destruct primary as [| row rows] eqn:E; [congruence |].
  rewrite <- E. do 2 f_equal.
  apply drop_from_filter. intros k row' Hk. cbn [Nat.add].
  rewrite duplicates_from_positions. split.
  - intros (k' & row2 & -> & Hk' & Hd). cbn [Nat.add] in *.
    rewrite Hk in Hk'. now injection Hk' as <-.
  - intros Hd. now exists k, row'.
Qed.

Lemma duplicates_from_length (secondary : list Restaurant) :
  forall idx,
    length (duplicates_from primary thr nthr idx secondary)
    = length (filter duplicate secondary).
Proof.
  induction secondary as [| r rest IH]; intros idx;
    cbn [duplicates_from filter]; [reflexivity |].
  destruct (duplicate r); cbn [length]; now rewrite IH.
Qed.

Lemma filter_split_length (rows : list Restaurant) :
  (length (filter retained rows) + length (filter duplicate rows)
   = length rows)%nat.
Proof.
  induction rows as [| r rest IH]; cbn [filter]; [reflexivity |].
  destruct (duplicate r); cbn [negb length]; lia.
Qed.

(** C3. On a primary table with rows, every secondary row has a primary
    row that is consulted for it, a nearest neighbour, and the row is
    marked a duplicate exactly when that neighbour is nearer than
    [distance_threshold] and the similarity of the two lower-cased names
    reaches [name_similarity_threshold].  So a row is marked when every
    nearest neighbour passes both tests and kept when every nearest
    neighbour fails one of them; marked rows are dropped, the others
    kept.  No other primary row is looked at: if the nearest neighbours
    fail the name test the row is kept, whatever other primary row lies
    within the threshold under a matching name. *)
Theorem duplicate_iff_nearest_matches (secondary : list Restaurant) :
  primary <> [] ->
  (forall row2,
      (exists idx1 row1,
          nth_error primary idx1 = Some row1 /\
          Spec.nearest_neighbour primary row2 row1 /\
          (duplicate row2 = true <-> Spec.is_match thr nthr row2 row1)) /\
      ((forall row1, Spec.nearest_neighbour primary row2 row1 ->
                     Spec.is_match thr nthr row2 row1) ->
       duplicate row2 = true) /\
      ((forall row1, Spec.nearest_neighbour primary row2 row1 ->
                     ~ Spec.is_match thr nthr row2 row1) ->
       duplicate row2 = false))
  /\
  (forall idx2 row2,
      nth_error secondary idx2 = Some row2 ->
      (In idx2 (duplicates_from primary thr nthr 0 secondary)
       <-> duplicate row2 = true))
  /\
  (exists merged,
      deduplicate_restaurants primary thr nthr secondary = Ok merged /\
      merged = primary ++ filter retained secondary /\
      forall row2,
        In row2 (skipn (length primary) merged)
        <-> In row2 secondary /\ duplicate row2 = false)
  /\
  (forall row2 other,
      In row2 secondary ->
      (forall row1,
          Spec.nearest_neighbour primary row2 row1 ->
          (fuzz_ratio (lower (name row1)) (lower (name row2)) < nthr)%Z) ->
      In other primary ->
      Spec.is_match thr nthr row2 other ->
      In row2 (filter retained secondary)).
Proof.
  intros Hrows.
  assert (Hfail : forall row2,
             (forall row1, Spec.nearest_neighbour primary row2 row1 ->
                           ~ Spec.is_match thr nthr row2 row1) ->
             duplicate row2 = false).
  { intros row2 Hnone.
    destruct (consulted_neighbour row2 Hrows) as (idx1 & row1 & _ & Hnear & Hiff).
    destruct (duplicate row2) eqn:Ed; [| reflexivity].
    exfalso. apply (Hnone row1 Hnear). now apply Hiff. }
  split; [| split; [| split]].
  - intros row2. split; [exact (consulted_neighbour row2 Hrows) |].
    split; [| exact (Hfail row2)].
    intros Hall.
    destruct (consulted_neighbour row2 Hrows) as (idx1 & row1 & _ & Hnear & Hiff).
    apply Hiff, Hall, Hnear.
  - intros idx2 row2 Hrow. rewrite duplicates_from_positions.
    cbn [Nat.add]. split.
    + intros (k & r & -> & Hk & Hd). rewrite Hrow in Hk. now injection Hk as <-.
    + intros Hd. now exists idx2, row2.
  - eexists. split; [apply deduplicate_restaurants_filter; exact Hrows |].
    split; [reflexivity |].
    intros row2. rewrite skipn_app, Nat.sub_diag, skipn_all. cbn [skipn app].
    rewrite filter_In, negb_true_iff. tauto.
  - intros row2 other Hin Hsim _ _.
    apply filter_In. split; [exact Hin |]. apply negb_true_iff.
    apply Hfail. intros row1 Hnear [_ Hge].
    specialize (Hsim row1 Hnear). lia.
Qed.

(** C4, where the code leaves it.  On a primary table without rows the
    call raises ValueError, from the index that cannot be built on no
    point: nothing is returned, not even the secondary table.  On every
    primary table with rows the output is the primary table followed by
    the secondary rows that were not marked: every primary row is there,
    and the output has as many rows as both tables together less the
    marked ones. *)
Theorem empty_primary_table_raises (secondary : list Restaurant) :
  deduplicate_restaurants [] thr nthr secondary = Raise ValueError
  /\
  (primary <> [] ->
   let duplicates := duplicates_from primary thr nthr 0 secondary in
   exists merged,
     deduplicate_restaurants primary thr nthr secondary = Ok merged /\
     merged = primary ++ filter retained secondary /\
     firstn (length primary) merged = primary /\
     (forall row, In row primary -> In row merged) /\
     (length duplicates <= length secondary)%nat /\
     (length merged
      = length primary + length secondary - length duplicates)%nat /\
     (length merged <= length primary + length secondary)%nat).
Proof.
  split; [reflexivity |].
  intros Hrows duplicates. subst duplicates.
  eexists. split; [apply deduplicate_restaurants_filter; exact Hrows |].
  rewrite duplicates_from_length.
  pose proof (filter_split_length secondary) as Hlen.
  refine (conj eq_refl (conj _ (conj _ (conj _ (conj _ _))))).
  - rewrite firstn_app, Nat.sub_diag, firstn_all. cbn. apply app_nil_r.
  - intros row Hrow. apply in_app_iff. now left.
  - lia.
  - rewrite length_app. lia.
  - rewrite length_app. lia.
Qed.

End DeduplicateProperties.

(** ** Weighted clustering: copies *)

Section WeightProperties.
Import Numpy ClusterTaxi.

Lemma round_comp (v w : Q) : v == w -> round v = round w.
Proof.
  intros E. unfold round.
  rewrite (Qfloor_comp _ _ E).
  assert (Ec : (v - inject_Z (Qfloor w) ?= 1 # 2) = (w - inject_Z (Qfloor w) ?= 1 # 2)).
  { apply Qcompare_comp; [now rewrite E | reflexivity]. }
  now rewrite Ec.
Qed.

Lemma round_near_floor (w : Q) :
  (Qfloor w <= round w <= Qfloor w + 1)%Z.
Proof.
  unfold round.
  destruct (w - inject_Z (Qfloor w) ?= 1 # 2); [destruct (Z.even _) | |]; lia.
Qed.

Lemma round_one : round 1 = 1%Z.
Proof. reflexivity. Qed.

Lemma round_below_one (w : Q) : w < 1 -> (round w <= 1)%Z.
Proof.
  intros Hw. pose proof (round_near_floor w) as Hr.
  pose proof (Qfloor_le w) as Hf.
  assert (inject_Z (Qfloor w) < inject_Z 1) as Hlt
    by (change (inject_Z 1) with 1; lra).
  rewrite <- Zlt_Qlt in Hlt. lia.
Qed.

Lemma round_from_one (w : Q) : 1 <= w -> (1 <= round w)%Z.
Proof.
  intros Hw. pose proof (round_near_floor w) as Hr.
  pose proof (Qfloor_resp_le _ _ Hw) as Hf.
  change (Qfloor 1) with 1%Z in Hf. lia.
Qed.

Lemma round_is_rounding (x : Q) : Spec.is_rounding x (round x).
Proof.
  unfold Spec.is_rounding, round.
  pose proof (Qfloor_le x) as Hlo. pose proof (Qlt_floor x) as Hhi.
  rewrite inject_Z_plus in Hhi. change (inject_Z 1) with 1 in Hhi.
  destruct (x - inject_Z (Qfloor x) ?= 1 # 2) eqn:E.
  - apply Qeq_alt in E.
    destruct (Z.even (Qfloor x)) eqn:Ev.
    + split; [lra | intros _; exact Ev].
    + rewrite inject_Z_plus. change (inject_Z 1) with 1.
      split; [lra |]. intros _.
      now rewrite Z.even_add, Ev.
  - apply Qlt_alt in E. split; [lra |]. intros [T | T]; lra.
  - apply Qgt_alt in E. rewrite inject_Z_plus. change (inject_Z 1) with 1.
    split; [lra |]. intros [T | T]; lra.
Qed.

Lemma round_half_even_is_rounding (x : Q) :
  Spec.is_rounding x (Spec.round_half_even x).
Proof.
  unfold Spec.is_rounding, Spec.round_half_even.
  pose proof (Qfloor_le (x + (1 # 2))) as Hlo.
  pose proof (Qlt_floor (x + (1 # 2))) as Hhi.
  rewrite inject_Z_plus in Hhi. change (inject_Z 1) with 1 in Hhi.
  set (up := Qfloor (x + (1 # 2))) in *.
  destruct (Qeq_bool (inject_Z up - x) (1 # 2)) eqn:E; cbn [andb].
  - apply Qeq_bool_eq in E. destruct (Z.odd up) eqn:Eo.
    + unfold Z.sub. rewrite inject_Z_plus, inject_Z_opp.
      change (inject_Z 1) with 1.
      split; [lra |]. intros _.
      rewrite Z.even_add, <- Z.negb_odd, Eo. reflexivity.
    + split; [lra |]. intros _. now rewrite <- Z.negb_odd, Eo.
  - assert (Hne : ~ inject_Z up - x == 1 # 2).
    { intros T. apply Qeq_eq_bool in T. congruence. }
    replace (if Z.odd up then false else false) with false
      by now destruct (Z.odd up).
    split; [lra |]. intros [T | T]; [| lra]. exfalso. apply Hne. lra.
Qed.

(** Only one integer is round(x). *)
Lemma is_rounding_unique (x : Q) (n m : Z) :
  Spec.is_rounding x n -> Spec.is_rounding x m -> n = m.
Proof.
  assert (Hstep : forall a b : Z,
             (a < b)%Z -> Spec.is_rounding x a -> Spec.is_rounding x b ->
             False).
  { intros a b Hab [Ha Hta] [Hb Htb].
    assert (Hdiff : inject_Z b <= inject_Z a + 1) by lra.
    change 1 with (inject_Z 1) in Hdiff.
    rewrite <- inject_Z_plus, <- Zle_Qle in Hdiff.
    assert (Eb : b = (a + 1)%Z) by lia. subst b.
    rewrite inject_Z_plus in Hb, Htb. change (inject_Z 1) with 1 in Hb, Htb.
    assert (Ea : Z.even a = true) by (apply Hta; right; lra).
    assert (Eb : Z.even (a + 1) = true) by (apply Htb; left; lra).
    rewrite Z.even_add, Ea in Eb. discriminate. }
  intros Hn Hm.
  destruct (Z.lt_trichotomy n m) as [Hlt | [E | Hgt]];
    [exfalso; eauto | exact E | exfalso; eauto].
Qed.

Lemma round_half_even_round (x : Q) : Spec.round_half_even x = round x.
Proof.
  apply (is_rounding_unique x).
  - apply round_half_even_is_rounding.
  - apply round_is_rounding.
Qed.

(** The copy count of the code is the copy count of the specification. *)
Lemma weights_rounded_copies (w : Q) : Z.max (round w) 1 = Spec.copies w.
Proof.
  unfold Spec.copies. rewrite round_half_even_round.
  destruct (Qlt_le_dec w 1) as [Hlt | Hge].
  - rewrite (round_comp (Qmax w 1) 1) by (apply Q.max_r; lra).
    pose proof (round_below_one w Hlt). rewrite round_one. lia.
  - rewrite (round_comp (Qmax w 1) w) by (apply Q.max_l; lra).
    pose proof (round_from_one w Hge). lia.
Qed.

Lemma repeat_rows_flat_map (df : list Dropoff) :
  repeat_rows (map coord df) (weights_rounded (map weight df))
  = flat_map (fun row => repeat (coord row)
                                (Z.to_nat (Spec.copies (weight row)))) df.
Proof.
  induction df as [| row df IH]; [reflexivity |].
  cbn [map weights_rounded repeat_rows flat_map].
  unfold weights_rounded in IH. now rewrite IH, weights_rounded_copies.
Qed.

Lemma copies_is_rounding (w : Q) :
  Spec.is_rounding (Qmax w 1) (Spec.copies w).
Proof. apply round_half_even_is_rounding. Qed.

Lemma copies_positive (w : Q) : (1 <= Spec.copies w)%Z.
Proof. rewrite <- weights_rounded_copies. lia. Qed.

(** C6. Before fitting, a point of weight [w] is written round(max(w, 1))
    times, the points in their order.  On a table with rows the function
    returns the expanded table beside the table of the points.  The
    number of copies is the integer nearest to max(w, 1), the even one
    where two are equally near, and no other integer is; it is at least
    1.  A weight below 1.5 gives one copy, so every weight below 1 does; a
    weight of 1.5 or 2.5 gives two copies and a weight of 2.6 three. *)
Theorem weighted_copies (df : list Dropoff) :
  df <> [] ->
  prepare_weighted_coordinates_logged df
  = Ok (flat_map (fun row => repeat (coord row)
                                    (Z.to_nat (Spec.copies (weight row)))) df,
        map coord df)
  /\ weights_rounded (map weight df)
     = map (fun row => Spec.copies (weight row)) df
  /\ (forall row, In row df ->
        let n := Z.max (round (weight row)) 1 in
        n = Spec.copies (weight row) /\
        (1 <= n)%Z /\
        (inject_Z n - (1 # 2) <= Qmax (weight row) 1 /\
         Qmax (weight row) 1 <= inject_Z n + (1 # 2)) /\
        (Qmax (weight row) 1 == inject_Z n - (1 # 2) \/
         Qmax (weight row) 1 == inject_Z n + (1 # 2) -> Z.even n = true) /\
        (forall m, Spec.is_rounding (Qmax (weight row) 1) m -> m = n) /\
        (weight row < 3 # 2 -> n = 1%Z) /\
        (3 # 2 <= weight row -> (2 <= n)%Z) /\
        (weight row < 1 ->
         fst (prepare_weighted_coordinates [row]) = [coord row]))
  /\ (Spec.copies (3 # 10) = 1%Z /\ Spec.copies 1 = 1%Z /\
      Spec.copies (3 # 2) = 2%Z /\ Spec.copies (5 # 2) = 2%Z /\
      Spec.copies (26 # 10) = 3%Z /\ Spec.copies (7 # 2) = 4%Z).
Proof.
  intros Hrows. split; [| split; [| split]].
  - unfold prepare_weighted_coordinates_logged.
    rewrite py_div_nonzero.
    + cbn [prepare_weighted_coordinates fst snd].
      now rewrite repeat_rows_flat_map.
    + cbn [prepare_weighted_coordinates snd]. rewrite rows_of_zero.
      intros E. apply map_eq_nil in E. contradiction.
  - unfold weights_rounded. rewrite map_map. apply map_ext.
    intros row. apply weights_rounded_copies.
  - intros row _ n. subst n. rewrite weights_rounded_copies.
    pose proof (copies_is_rounding (weight row)) as Hround.
    pose proof (copies_positive (weight row)) as Hpos.
    assert (Hmax : weight row <= Qmax (weight row) 1 /\
                   1 <= Qmax (weight row) 1 /\
                   (Qmax (weight row) 1 == weight row \/
                    Qmax (weight row) 1 == 1)).
    { destruct (Qlt_le_dec (weight row) 1) as [Hlt | Hge].
      - rewrite (Q.max_r (weight row) 1) by lra. split; [lra |].
        split; [lra | now right].
      - rewrite (Q.max_l (weight row) 1) by lra. split; [lra |].
        split; [lra | now left]. }
    destruct Hround as [Hnear Htie].
    assert (Hlow : weight row < 3 # 2 -> Spec.copies (weight row) = 1%Z).
    { intros Hw.
      assert (Hlt : inject_Z (Spec.copies (weight row)) < inject_Z 2).
      { change (inject_Z 2) with 2. destruct Hmax as (_ & _ & [E | E]); lra. }
      rewrite <- Zlt_Qlt in Hlt. lia. }
    refine (conj eq_refl (conj Hpos (conj Hnear (conj Htie
             (conj _ (conj Hlow (conj _ _))))))).
    + intros m Hm. apply (is_rounding_unique (Qmax (weight row) 1)).
      * exact Hm.
      * now split.
    + intros Hw.
      destruct (Z_lt_le_dec (Spec.copies (weight row)) 2) as [Hc | Hc];
        [| exact Hc].
      exfalso. assert (E1 : Spec.copies (weight row) = 1%Z) by lia.
      rewrite E1 in Hnear, Htie. change (inject_Z 1) with 1 in Hnear, Htie.
      assert (Etie : Qmax (weight row) 1 == 1 + (1 # 2)) by lra.
      specialize (Htie (or_intror Etie)). discriminate.
    + intros Hw. cbn [prepare_weighted_coordinates fst].
      rewrite repeat_rows_flat_map. cbn [flat_map].
      rewrite Hlow by lra. reflexivity.
  - repeat split.
Qed.

Lemma weighted_copies_witness :
  prepare_weighted_coordinates_logged
    [ {| coord := (0, 0); weight := 3 # 2 |};
      {| coord := (10, 0); weight := 3 # 10 |};
      {| coord := (20, 0); weight := 26 # 10 |};
      {| coord := (30, 0); weight := 5 # 2 |} ]
  = Ok ([ (0, 0); (0, 0); (10, 0); (20, 0); (20, 0); (20, 0);
          (30, 0); (30, 0) ],
        [ (0, 0); (10, 0); (20, 0); (30, 0) ]).
Proof.
  refine (eq_trans (proj1 (weighted_copies _ _)) _).
  - discriminate.
  - reflexivity.
Defined.

(** Without a point the expansion factor of the log is 0/0. *)
Example no_point_to_expand :
  prepare_weighted_coordinates_logged [] = Raise ZeroDivisionError.
Proof. reflexivity. Qed.

End WeightProperties.

(** ** Weighted clustering: labels of the original points *)

Section LabelProperties.
Import Numpy ClusterTaxi.

(** How often the table says [v] was seen. *)
Fixpoint total (table : list (Z * nat)) (v : Z) : nat :=
  match table with
  | [] => 0
  | (u, n) :: rest => ((if (u =? v)%Z then n else 0) + total rest v)%nat
  end.

Lemma tally_total (v u : Z) (table : list (Z * nat)) :
  total (tally v table) u
  = ((if (v =? u)%Z then 1 else 0) + total table u)%nat.
Proof.
  induction table as [| [k n] rest IH]; cbn [tally total]; [lia |].
  destruct (v <? k)%Z eqn:Elt; [reflexivity |].
  destruct (v =? k)%Z eqn:Eeq.
  - apply Z.eqb_eq in Eeq. subst k. cbn [total].
    destruct (v =? u)%Z; lia.
  - cbn [total]. rewrite IH. lia.
Qed.

Lemma unique_counts_total (group : list Z) (v : Z) :
  total (unique_counts group) v = count v group.
Proof.
  unfold unique_counts, count.
  induction group as [| a group IH]; [reflexivity |].
  cbn [fold_right count_occ]. rewrite tally_total, IH.
  destruct (Z.eq_dec a v) as [-> | Hne].
  - now rewrite Z.eqb_refl.
  - apply Z.eqb_neq in Hne. now rewrite Hne.
Qed.

Lemma tally_above (a v : Z) (table : list (Z * nat)) :
  (a < v)%Z -> Forall (Z.lt a) (map fst table) ->
  Forall (Z.lt a) (map fst (tally v table)).
Proof.
  intros Hav. induction table as [| [k n] rest IH]; cbn [tally map fst].
  - intros _. now repeat constructor.
  - intros Hall. inversion Hall as [| ? ? Hk Hrest]; subst.
    destruct (v <? k)%Z; [| destruct (v =? k)%Z]; cbn [map fst].
    + now repeat constructor.
    + now constructor.
    + constructor; [exact Hk | now apply IH].
Qed.

Lemma tally_sorted (v : Z) (table : list (Z * nat)) :
  StronglySorted Z.lt (map fst table) ->
  StronglySorted Z.lt (map fst (tally v table)).
Proof.
  induction table as [| [k n] rest IH]; cbn [tally map fst].
  - intros _. now repeat constructor.
  - intros Hs. inversion Hs as [| ? ? Hrest Hall]; subst.
    destruct (v <? k)%Z eqn:Elt; [| destruct (v =? k)%Z eqn:Eeq];
      cbn [map fst].
    + apply Z.ltb_lt in Elt. constructor; [exact Hs |].
      constructor; [exact Elt |].
      eapply Forall_impl; [| exact Hall]. cbn. intros; lia.
    + exact Hs.
    + apply Z.ltb_ge in Elt. apply Z.eqb_neq in Eeq.
      constructor; [now apply IH |]. apply tally_above; [lia | exact Hall].
Qed.

Lemma unique_counts_sorted (group : list Z) :
  StronglySorted Z.lt (map fst (unique_counts group)).
Proof.
  unfold unique_counts. induction group as [| a group IH]; cbn [fold_right].
  - constructor.
  - now apply tally_sorted.
Qed.

Lemma total_absent (table : list (Z * nat)) (v : Z) :
  Forall (fun k => k <> v) (map fst table) -> total table v = 0%nat.
Proof.
  induction table as [| [k n] rest IH]; cbn [map fst total]; [reflexivity |].
  intros Hall. inversion Hall as [| ? ? Hk Hrest]; subst.
  apply Z.eqb_neq in Hk. rewrite Hk. now rewrite IH.
Qed.

Lemma sorted_total_entry (table : list (Z * nat)) (u : Z) (n : nat) :
  StronglySorted Z.lt (map fst table) -> In (u, n) table -> total table u = n.
Proof.
  induction table as [| [k m] rest IH]; cbn [map fst total]; [intros _ [] |].
  intros Hs Hin. inversion Hs as [| ? ? Hrest Hall]; subst.
  destruct Hin as [E | Hin].
  - injection E as -> ->. rewrite Z.eqb_refl, total_absent; [lia |].
    eapply Forall_impl; [| exact Hall]. cbn. intros; lia.
  - assert (Hku : (k < u)%Z).
    { rewrite Forall_forall in Hall. apply Hall.
      apply in_map_iff. now exists (u, n). }
    apply Z.lt_neq, Z.eqb_neq in Hku. rewrite Hku. now apply IH.
Qed.

Lemma total_pos_entry (table : list (Z * nat)) (v : Z) :
  (0 < total table v)%nat -> exists n, In (v, n) table.
Proof.
  induction table as [| [k m] rest IH]; cbn [total]; [lia |].
  destruct (k =? v)%Z eqn:E.
  - apply Z.eqb_eq in E. subst k. intros _. exists m. now left.
  - intros Hpos. destruct (IH Hpos) as (n & Hn). exists n. now right.
Qed.

Lemma sorted_positions (keys : list Z) :
  StronglySorted Z.lt keys ->
  forall p j r l, (p <= j)%nat ->
                  nth_error keys p = Some r -> nth_error keys j = Some l ->
                  (r <= l)%Z.
Proof.
  induction 1 as [| k keys Hs IH Hall]; intros p j r l Hpj Hp Hj.
  - destruct p; discriminate.
  - destruct p as [| p], j as [| j]; cbn in Hp, Hj.
    + injection Hp as <-. injection Hj as <-. lia.
    + injection Hp as <-. apply nth_error_In in Hj.
      rewrite Forall_forall in Hall. specialize (Hall l Hj). lia.
    + lia.
    + apply (IH p j); [lia | assumption | assumption].
Qed.

(** [argmax_from] returns the first position of the largest entry, the
    entry before the scan being at [best_idx]. *)
Lemma argmax_from_first (counts : list nat) :
  forall best_idx best idx,
    (argmax_from best_idx best idx counts = best_idx /\
     forall n, In n counts -> (n <= best)%nat)
    \/
    (exists k n,
        argmax_from best_idx best idx counts = (idx + k)%nat /\
        nth_error counts k = Some n /\
        (best < n)%nat /\
        (forall j m, (j < k)%nat -> nth_error counts j = Some m -> (m < n)%nat) /\
        (forall m, In m counts -> (m <= n)%nat)).
Proof.
  induction counts as [| c counts IH]; intros best_idx best idx;
    cbn [argmax_from].
  - left. split; [reflexivity | intros n []].
  - destruct (best <? c)%nat eqn:E.
    + apply Nat.ltb_lt in E. right.
      destruct (IH idx c (S idx))
        as [[Ep Hall] | (k & n & Ep & Hk & Hlt & Hbefore & Hall)].
      * exists 0%nat, c. rewrite Ep, Nat.add_0_r.
        refine (conj eq_refl (conj eq_refl (conj E (conj _ _)))).
        -- intros j m Hj. lia.
        -- intros m [<- | Hm]; [lia | now apply Hall].
      * exists (S k), n. rewrite Ep.
        refine (conj _ (conj Hk (conj _ (conj _ _)))); try lia.
        -- intros [| j] m Hj Hm; cbn in Hm.
           ++ injection Hm as <-. exact Hlt.
           ++ apply (Hbefore j); [lia | exact Hm].
        -- intros m [<- | Hm]; [lia | now apply Hall].
    + apply Nat.ltb_ge in E.
      destruct (IH best_idx best (S idx))
        as [[Ep Hall] | (k & n & Ep & Hk & Hlt & Hbefore & Hall)].
      * left. split; [exact Ep |].
        intros m [<- | Hm]; [lia | now apply Hall].
      * right. exists (S k), n. rewrite Ep.
        refine (conj _ (conj Hk (conj Hlt (conj _ _)))); try lia.
        -- intros [| j] m Hj Hm; cbn in Hm.
           ++ injection Hm as <-. lia.
           ++ apply (Hbefore j); [lia | exact Hm].
        -- intros m [<- | Hm]; [lia | now apply Hall].
Qed.

Lemma argmax_first (counts : list nat) :
  counts <> [] ->
  exists p n,
    argmax counts = Ok p /\
    nth_error counts p = Some n /\
    (forall m, In m counts -> (m <= n)%nat) /\
    (forall j m, (j < p)%nat -> nth_error counts j = Some m -> (m < n)%nat).
Proof.
  destruct counts as [| c counts]; [congruence | intros _].
  cbn [argmax].
  destruct (argmax_from_first counts 0 c 1)
    as [[Ep Hall] | (k & n & Ep & Hk & Hlt & Hbefore & Hall)]; rewrite Ep.
  - exists 0%nat, c. refine (conj eq_refl (conj eq_refl (conj _ _))).
    + intros m [<- | Hm]; [lia | now apply Hall].
    + intros j m Hj. lia.
  - exists (S k), n. refine (conj eq_refl (conj Hk (conj _ _))).
    + intros m [<- | Hm]; [lia | now apply Hall].
    + intros [| j] m Hj Hm; cbn in Hm.
      * injection Hm as <-. exact Hlt.
      * apply (Hbefore j); [lia | exact Hm].
Qed.

(** The label a group resolves to: a label of the group that no label
    outnumbers, and the smallest such label. *)
Lemma most_common_smallest_majority (group : list Z) :
  group <> [] ->
  exists r,
    most_common group = Ok r /\
    In r group /\
    (forall l, (count l group <= count r group)%nat) /\
    (forall l, In l group -> count l group = count r group -> (r <= l)%Z).
Proof.
  intros Hne.
  pose proof (unique_counts_sorted group) as Hsorted.
  pose proof (unique_counts_total group) as Htotal.
  assert (Hentry : forall l, In l group ->
                             In (l, count l group) (unique_counts group)).
  { intros l Hl.
    assert (Hpos : (0 < total (unique_counts group) l)%nat).
    { rewrite Htotal. unfold count. now apply count_occ_In. }
    destruct (total_pos_entry _ _ Hpos) as (n & Hn).
    now rewrite <- Htotal, (sorted_total_entry _ _ _ Hsorted Hn). }
  unfold most_common.
  set (table := unique_counts group) in *.
  destruct (argmax_first (map snd table)) as (p & n & Ep & Hp & Hmax & Hfirst).
  { destruct group as [| a group]; [congruence |].
    specialize (Hentry a (or_introl eq_refl)).
    destruct table; [destruct Hentry | discriminate]. }
  rewrite Ep. cbn [bind].
  rewrite nth_error_map in Hp.
  destruct (nth_error table p) as [[r n'] |] eqn:Etable; [| discriminate].
  cbn in Hp. injection Hp as ->.
  assert (Ekey : nth_error (map fst table) p = Some r).
  { now rewrite nth_error_map, Etable. }
  rewrite (nth_error_nth _ _ _ Ekey).
  assert (Hcount : count r group = n).
  { rewrite <- Htotal. apply sorted_total_entry; [exact Hsorted |].
    now apply nth_error_In in Etable. }
  assert (Hmost : forall l, (count l group <= n)%nat).
  { intros l. destruct (in_dec Z.eq_dec l group) as [Hl | Hl].
    - apply Hmax. apply in_map_iff. exists (l, count l group).
      split; [reflexivity | now apply Hentry].
    - unfold count. apply (count_occ_not_In Z.eq_dec) in Hl. rewrite Hl. lia. }
  exists r. split; [reflexivity |]. split; [| split].
  - unfold count in Hcount. apply (count_occ_In Z.eq_dec). rewrite Hcount.
    destruct group as [| a group]; [congruence |].
    specialize (Hmost a). unfold count in Hmost. cbn in Hmost.
    destruct (Z.eq_dec a a); [lia | congruence].
  - intros l. rewrite Hcount. apply Hmost.
  - intros l Hl Hsame. rewrite Hcount in Hsame.
    destruct (In_nth_error _ _ (Hentry l Hl)) as (j & Ej).
    destruct (Nat.lt_ge_cases j p) as [Hjp | Hpj].
    + exfalso. specialize (Hfirst j (count l group) Hjp).
      rewrite nth_error_map, Ej in Hfirst. specialize (Hfirst eq_refl). lia.
    + apply (sorted_positions _ Hsorted p j); [exact Hpj | exact Ekey |].
      now rewrite nth_error_map, Ej.
Qed.

End LabelProperties.

Section LabelLoop.
Import Numpy ClusterTaxi.

(** [r] is a label of the group that no label outnumbers, and the
    smallest of the labels that appear as often. *)
Definition smallest_majority (group : list Z) (r : Z) : Prop :=
  In r group /\
  (forall l, (count l group <= count r group)%nat) /\
  (forall l, In l group -> count l group = count r group -> (r <= l)%Z).

Lemma group_start_cons (w : Z) (ws : list Z) (i : nat) :
  Spec.group_start (w :: ws) (S i) = (Z.to_nat w + Spec.group_start ws i)%nat.
Proof. reflexivity. Qed.

Lemma slice_length {A : Type} (a : list A) (lo hi : nat) :
  length (slice a lo hi) = Nat.min (hi - lo) (length a - lo).
Proof.
  unfold slice. now rewrite length_firstn, length_skipn.
Qed.

Lemma weights_rounded_positive (weights : list Q) :
  Forall (fun w => (1 <= w)%Z) (weights_rounded weights).
Proof.
  unfold weights_rounded. apply Forall_map, Forall_forall. intros w _. lia.
Qed.

Lemma labels_original_from_groups (labels : list Z) (ws : list Z) :
  forall idx,
    Forall (fun w => (1 <= w)%Z) ws ->
    (idx + Spec.group_start ws (length ws) <= length labels)%nat ->
    exists out,
      labels_original_from labels idx ws = Ok out /\
      length out = length ws /\
      forall i r,
        nth_error out i = Some r ->
        smallest_majority
          (slice labels (idx + Spec.group_start ws i)
                        (idx + Spec.group_start ws (S i))) r.
Proof.
  induction ws as [| w ws IH]; intros idx Hpos Hlen.
  - exists []. split; [reflexivity |]. split; [reflexivity |].
    intros [| i] r Hr; discriminate.
  - inversion Hpos as [| ? ? Hw Hrest]; subst.
    cbn [length] in Hlen. rewrite group_start_cons in Hlen.
    destruct (IH (idx + Z.to_nat w)%nat Hrest) as (later & Elater & Hlater & Hgroups);
      [lia |].
    destruct (most_common_smallest_majority
                (slice labels idx (idx + Z.to_nat w))) as (r0 & E0 & Hr0).
    { intros Hnil. apply (f_equal (@length Z)) in Hnil.
      rewrite slice_length in Hnil. cbn [length] in Hnil. lia. }
    exists (r0 :: later). cbn [labels_original_from].
    rewrite E0, Elater. cbn [bind length].
    split; [reflexivity |]. split; [now rewrite Hlater |].
    intros [| i] r Hr; cbn in Hr.
    + injection Hr as <-.
      change (Spec.group_start (w :: ws) 0) with 0%nat.
      rewrite group_start_cons, Nat.add_0_r.
      change (Spec.group_start ws 0) with 0%nat. rewrite Nat.add_0_r.
      exact Hr0.
    + rewrite !group_start_cons, !Nat.add_assoc. now apply Hgroups.
Qed.

(** C5 as the code has it.  With one label per copy, every original point
    gets a label, and it is a majority label of its copies: a label of
    the group that none outnumbers.  Of several labels tied for the
    largest count the numerically smallest is taken, noise (-1) before
    any cluster. *)
Theorem labels_resolved_by_smallest_majority (labels : list Z) (weights : list Q) :
  length labels
  = Spec.group_start (weights_rounded weights) (length weights) ->
  exists out,
    labels_original labels weights = Ok out /\
    length out = length weights /\
    forall i r,
      nth_error out i = Some r ->
      smallest_majority
        (Spec.duplicate_group labels (weights_rounded weights) i) r.
Proof.
  intros Hlen. unfold labels_original, Spec.duplicate_group.
  assert (Hws : length (weights_rounded weights) = length weights).
  { unfold weights_rounded. apply length_map. }
  destruct (labels_original_from_groups labels (weights_rounded weights) 0
              (weights_rounded_positive weights)) as (out & Eout & Hout & Hgroups).
  { rewrite Hws. cbn [Nat.add]. lia. }
  exists out. split; [exact Eout |]. split; [congruence |].
  intros i r Hr. exact (Hgroups i r Hr).
Qed.

Lemma labels_resolved_by_smallest_majority_witness :
  exists out,
    labels_original [3; 1; 4; 4; -1; 2; 2]%Z [1.5; 2.5; 0.3; 1.5] = Ok out /\
    length out = 4%nat /\
    forall i r,
      nth_error out i = Some r ->
      smallest_majority
        (Spec.duplicate_group [3; 1; 4; 4; -1; 2; 2]%Z
                              (weights_rounded [1.5; 2.5; 0.3; 1.5]) i) r.
Proof.
  exact (labels_resolved_by_smallest_majority
           [3; 1; 4; 4; -1; 2; 2]%Z [1.5; 2.5; 0.3; 1.5] eq_refl).
Defined.

Example labels_original_run :
  labels_original [3; 1; 4; 4; -1; 2; 2]%Z [1.5; 2.5; 0.3; 1.5]
  = Ok [1; 4; -1; 2]%Z.
Proof. reflexivity. Qed.

(** Two copies of one point labelled 3 and 1: the first label met is 3,
    the code answers 1. *)
Lemma first_encountered_tie_counterexample :
  ~ (forall (labels : list Z) (weights : list Q) (out : list Z) (i : nat) (r : Z),
        length labels
        = Spec.group_start (weights_rounded weights) (length weights) ->
        labels_original labels weights = Ok out ->
        nth_error out i = Some r ->
        Spec.first_encountered_majority
          (Spec.duplicate_group labels (weights_rounded weights) i) = Some r).
Proof.
  intros Hclaim.
  specialize (Hclaim [3; 1]%Z [2] [1]%Z 0%nat 1%Z eq_refl eq_refl eq_refl).
  discriminate Hclaim.
Qed.

End LabelLoop.

(** ** Validation metrics *)

Section ValidationProperties.
Import Numpy.
Context `{ClusterMetrics} `{Clusterer}.











End ValidationProperties.

Section ValidationExamples.
Import Numpy.

(** A clusterer that finds one cluster, and scoring functions that
    refuse every table. *)
Definition one_cluster : Clusterer :=
  {| fit_predict := fun coords => Ok (map (fun _ => 0%Z) coords) |}.

Definition refusing_scores : ClusterMetrics :=
  {| silhouette_score := fun _ _ => Raise ValueError;
     davies_bouldin_score := fun _ _ => Raise ValueError |}.



(** One cluster and noise. *)
Example one_cluster_and_noise :
  @ClusterRestaurants.calculate_validation_metrics refusing_scores
    [(0, 0); (1, 0); (90, 0)] [0; 0; -1]%Z
  = Ok {| m_silhouette_score := None;
          m_davies_bouldin_index := None;
          n_clusters := 1;
          n_noise := 1;
          n_total := 3;
          pct_clustered := (2 # 3) * 100 |}.
Proof. reflexivity. Qed.

(** No label: [perform_clustering] stops at the percentages of its log,
    and [calculate_validation_metrics], were it called on no label, at
    its own; [validate] returns. *)
Example no_label :
  @ClusterRestaurants.perform_clustering one_cluster []
  = Raise ZeroDivisionError /\
  @ClusterTaxi.perform_clustering one_cluster [] = Raise ZeroDivisionError /\
  @ClusterRestaurants.calculate_validation_metrics refusing_scores [] []
  = Raise ZeroDivisionError /\
  @Clustering.validate refusing_scores None [] (Some [])
  = Ok {| Clustering.v_n_clusters := 0;
          Clustering.v_n_noise := 0;
          Clustering.v_silhouette_score := None;
          Clustering.v_davies_bouldin_score := None;
          Clustering.v_noise_ratio := None |}.
Proof. repeat split. Qed.

End ValidationExamples.

(** ** The validation subsample of the taxi script *)

Section SubsampleProperties.
Import Numpy ClusterTaxi Samples.
Context `{ClusterMetrics}.

Lemma select_all {A : Type} (labels : list Z) :
  Forall (fun l => l <> (-1)%Z) labels ->
  forall a : list A, length a = length labels ->
                     select (not_noise labels) a = a.
Proof.
  induction 1 as [| l labels Hl Hrest IH]; intros [| v a] Hlen;
    try discriminate; [reflexivity |].
  cbn [not_noise map select]. apply Z.eqb_neq in Hl. rewrite Hl. cbn [negb].
  f_equal. apply IH. now injection Hlen.
Qed.

Lemma big_labels_clustered : Forall (fun l => l <> (-1)%Z) big_labels.
Proof.
  unfold big_labels.
  apply Forall_cons; [discriminate |]. apply Forall_cons; [discriminate |].
  apply Forall_forall. intros l Hl. apply repeat_spec in Hl. now subst l.
Qed.

Lemma big_coords_length : Z.of_nat (length big_coords) = 100001%Z.
Proof.
  unfold big_coords. cbn [length]. rewrite repeat_length.
  rewrite !Nat2Z.inj_succ, Z2Nat.id; lia.
Qed.

Lemma big_labels_length : length big_labels = length big_coords.
Proof.
  unfold big_labels, big_coords. cbn [length]. now rewrite !repeat_length.
Qed.

Lemma nodup_repeat (l : Z) (n : nat) :
  nodup Z.eq_dec (repeat l (S n)) = [l].
Proof.
  induction n as [| n IH]; [reflexivity |].
  change (repeat l (S (S n))) with (l :: repeat l (S n)).
  cbn [nodup]. destruct (in_dec Z.eq_dec l (repeat l (S n))) as [_ | Hout].
  - exact IH.
  - exfalso. apply Hout. now left.
Qed.

Lemma two_clusters (n : nat) :
  n_distinct (0%Z :: 1%Z :: repeat 1%Z (S n)) = 2%nat.
Proof.
  unfold n_distinct. cbn [nodup].
  destruct (in_dec Z.eq_dec 0%Z (1%Z :: repeat 1%Z (S n))) as [Hin | _].
  - exfalso. destruct Hin as [Hin | Hin]; [discriminate |].
    apply repeat_spec in Hin. discriminate.
  - destruct (in_dec Z.eq_dec 1%Z (repeat 1%Z (S n))) as [_ | Hout].
    + now rewrite nodup_repeat.
    + exfalso. apply Hout. now left.
Qed.

Lemma big_labels_two_clusters : n_distinct big_labels = 2%nat.
Proof.
  unfold big_labels.
  change 99999%Z with (Z.succ 99998).
  rewrite Z2Nat.inj_succ by lia.
  apply two_clusters.
Qed.

Lemma big_sample (choice : Generator) :
  validation_sample choice big_coords big_labels
  = (take big_coords (choice (length big_coords) 100000%Z),
     take big_labels (choice (length big_coords) 100000%Z)).
Proof.
  unfold validation_sample. now rewrite big_coords_length.
Qed.

Lemma take_first {A : Type} (a : list A) (i : nat) (rest : list nat) (v : A) :
  nth_error a i = Some v -> hd_error (take a (i :: rest)) = Some v.
Proof.
  intros Hv. unfold take. cbn [flat_map]. now rewrite Hv.
Qed.

Lemma draw_head (start : nat) :
  seq start (Z.to_nat 100000) = start :: seq (S start) (Z.to_nat 99999).
Proof.
  replace 100000%Z with (Z.succ 99999) by reflexivity.
  rewrite Z2Nat.inj_succ by lia. reflexivity.
Qed.

(** Below the sampling size the generator is never asked. *)
Lemma small_table_ignores_generator (choice1 choice2 : Generator)
      (coords : list (Q * Q)) (labels : list Z) :
  (Z.of_nat (length (select (not_noise labels) coords)) <= 100000)%Z ->
  calculate_validation_metrics choice1 coords labels
  = calculate_validation_metrics choice2 coords labels.
Proof.
  intros Hsmall. unfold calculate_validation_metrics, validation_sample.
  apply Z.ltb_ge in Hsmall. now rewrite Hsmall.
Qed.

(** C9, where the code leaves it.  On 100,001 clustered points the
    scores are those of the 100,000 rows the generator draws; the script
    sets no seed, and two draws hand scikit-learn two different samples,
    here one that starts at the point of cluster 0 and one that leaves it
    out of first place.  Only up to 100,000 clustered points is the
    result the same for every generator. *)
Theorem validation_subsample_follows_generator :
  (forall choice,
      calculate_validation_metrics choice big_coords big_labels
      = (scores <-
           (silhouette <-
              silhouette_score
                (take big_coords (choice (length big_coords) 100000%Z))
                (take big_labels (choice (length big_coords) 100000%Z)) ;;
            db_index <-
              davies_bouldin_score
                (take big_coords (choice (length big_coords) 100000%Z))
                (take big_labels (choice (length big_coords) 100000%Z)) ;;
            Ok (Some silhouette, Some db_index)) ;;
         cluster_statistics scores big_labels))
  /\
  validation_sample first_rows big_coords big_labels
  <> validation_sample later_rows big_coords big_labels
  /\
  (forall choice1 choice2 coords labels,
      (Z.of_nat (length (select (not_noise labels) coords)) <= 100000)%Z ->
      calculate_validation_metrics choice1 coords labels
      = calculate_validation_metrics choice2 coords labels).
Proof.
  split; [| split].
  - intros choice. unfold calculate_validation_metrics.
    rewrite (select_all big_labels big_labels_clustered big_coords)
      by (symmetry; apply big_labels_length).
    rewrite (select_all big_labels big_labels_clustered big_labels)
      by reflexivity.
    rewrite big_sample, big_labels_two_clusters. reflexivity.
  - rewrite !big_sample. unfold first_rows, later_rows.
    rewrite !draw_head. intros Hsame.
    apply (f_equal (fun sample => hd_error (fst sample))) in Hsame.
    cbn [fst] in Hsame.
    rewrite (take_first big_coords 0 _ (0, 0) eq_refl) in Hsame.
    rewrite (take_first big_coords 1 _ (1, 0) eq_refl) in Hsame.
    discriminate Hsame.
  - exact small_table_ignores_generator.
Qed.

End SubsampleProperties.

(** ** Deduplication on named points *)

Section DeduplicateExamples.
Import MergeRestaurants Names.

Lemma euclidean_nonneg (p c : Q * Q) : 0 <= euclidean p c.
Proof.
  unfold euclidean, root. apply fl_nonneg, quotient_nonneg.
  - change 0 with (inject_Z 0). rewrite <- Zle_Qle. apply Z.sqrt_nonneg.
  - apply Qlt_le_weak, two_power_pos.
Qed.

(** The scan returns a point that is at least as close as every point it
    has seen, and as close as where it started. *)
Lemma nearest_from_closest (c : Q * Q) (points : list (Q * Q)) :
  forall idx best,
    fst (nearest_from idx points c best) <= fst best /\
    (forall p, In p points ->
               fst (nearest_from idx points c best) <= euclidean p c).
Proof.
  induction points as [| p points IH]; intros idx best; cbn [nearest_from].
  - split; [apply Qle_refl | intros p []].
  - set (best' := if Qlt_bool (euclidean p c) (fst best)
                  then (euclidean p c, idx) else best).
    destruct (IH (S idx) best') as [Hb Hin].
    assert (Hbest' : fst best' <= fst best /\ fst best' <= euclidean p c).
    { unfold best'. destruct (Qlt_bool (euclidean p c) (fst best)) eqn:E.
      - apply Qlt_bool_iff in E. cbn. split; lra.
      - split; [lra |]. apply Qnot_lt_le. intros Hlt.
        apply Qlt_bool_iff in Hlt. congruence. }
    split.
    + lra.
    + intros q [<- | Hq]; [lra | now apply Hin].
Qed.

(** The position it returns holds the point whose distance it returns. *)
Lemma nearest_from_position (c : Q * Q) (points : list (Q * Q)) :
  forall idx best,
    nearest_from idx points c best = best \/
    exists k p, nth_error points k = Some p /\
                nearest_from idx points c best = (euclidean p c, (idx + k)%nat).
Proof.
  induction points as [| p points IH]; intros idx best; cbn [nearest_from].
  - now left.
  - destruct (IH (S idx) (if Qlt_bool (euclidean p c) (fst best)
                          then (euclidean p c, idx) else best))
      as [E | (k & q & Hk & E)].
    + rewrite E. destruct (Qlt_bool (euclidean p c) (fst best)).
      * right. exists 0%nat, p. now rewrite Nat.add_0_r.
      * now left.
    + right. exists (S k), q. now rewrite Nat.add_succ_r.
Qed.

#[export] Instance scan_index_laws : @KDTreeLaws scan_index.
Proof.
  constructor; cbn [tree_distance query scan_index].
  - apply euclidean_nonneg.
  - intros [| p0 rest] c Hrows; [congruence |]. cbn [first_nearest].
    destruct (nearest_from_position c rest 1 (euclidean p0 c, 0%nat))
      as [E | (k & p & Hk & E)]; rewrite E; cbn [fst snd].
    + exists p0. now split.
    + exists p. now split.
  - intros [| p0 rest] c q Hq; [destruct Hq |]. cbn [first_nearest].
    destruct (nearest_from_closest c rest 1 (euclidean p0 c, 0%nat))
      as [Hb Hin].
    cbn [fst] in Hb. destruct Hq as [<- | Hq]; [exact Hb | now apply Hin].
Qed.

Lemma two_neighbours_rows : two_neighbours <> [].
Proof. discriminate. Qed.

(** The nearest primary point (5 m) has another name, the second nearest
    (10 m) has the same name: the secondary point stays. *)
Lemma duplicate_iff_nearest_matches_witness :
  tree_distance (coord (google "Corner Deli" 5 0)) (coord joes_osm) == 5 /\
  tree_distance (coord (google "Joe's Pizza" 0 10)) (coord joes_osm) == 10 /\
  In joes_osm
     (filter (fun r => negb (is_duplicate two_neighbours 50 80 r)) [joes_osm]).
Proof.
  split; [vm_compute; reflexivity |]. split; [vm_compute; reflexivity |].
  apply (proj2 (proj2 (proj2
           (@duplicate_iff_nearest_matches exact_names scan_index
              scan_index_laws two_neighbours 50 80 [joes_osm]
              two_neighbours_rows)))
           joes_osm (google "Joe's Pizza" 0 10)).
  - now left.
  - intros row1 [Hin Hmin].
    destruct Hin as [<- | [<- | []]]; [vm_compute; reflexivity |].
    exfalso.
    specialize (Hmin (google "Corner Deli" 5 0) (or_introl eq_refl)).
    vm_compute in Hmin. apply Hmin. reflexivity.
  - right. now left.
  - split; [vm_compute; reflexivity | vm_compute; discriminate].
Defined.

(** A secondary point 10 m from a primary point of its name is dropped;
    one of the same name 200 m away is kept. *)
Example near_dropped_far_kept :
  deduplicate_restaurants [google "Joe's Pizza" 0 0] 50 80
                          [osm "Joe's Pizza" 10 0; osm "Joe's Pizza" 200 0]
  = Ok [google "Joe's Pizza" 0 0; osm "Joe's Pizza" 200 0].
Proof. vm_compute. reflexivity. Qed.

Example merged_size :
  match deduplicate_restaurants [google "Joe's Pizza" 0 0] 50 80
          [osm "Joe's Pizza" 10 0; osm "Joe's Pizza" 200 0] with
  | Ok merged => length merged = (1 + 2 - 1)%nat
  | Raise _ => False
  end.
Proof. vm_compute. reflexivity. Qed.

(** Without a primary row there is no index and no output. *)
Example no_primary_row :
  deduplicate_restaurants [] 50 80 [osm "Joe's Pizza" 10 0]
  = Raise ValueError.
Proof. reflexivity. Qed.

(** The distance compared is the rounded one.  A point at (3, 4 - 2^-51)
    is nearer to the origin than 5, but the nearest float to its
    distance is 5, which is not below a threshold of 5: the row is
    kept. *)
Example rounded_distance_not_below :
  let far := osm "Joe's Pizza" 3 (4 - (1 # 2251799813685248)) in
  x far * x far + y far * y far < 5 * 5 /\
  tree_distance (0, 0) (coord far) == 5 /\
  deduplicate_restaurants [google "Joe's Pizza" 0 0] 5 80 [far]
  = Ok [google "Joe's Pizza" 0 0; far].
Proof.
  cbv zeta. split; [vm_compute; reflexivity |].
  split; vm_compute; reflexivity.
Qed.

End DeduplicateExamples.

(** * Further properties of the pipeline *)

(** ** Dense ranking of the popularity scores *)

Section RankProperties.
Import SpatialIntersection.

Lemma Q_eq_dec (a b : Q) : {a = b} + {a <> b}.
Proof.
  decide equality; [apply Pos.eq_dec | apply Z.eq_dec].
Defined.

(** The scores strictly above [v]. *)
Definition above (col : list Q) (v : Q) : list Q :=
  filter (fun u => negb (Qle_bool u v)) col.

Lemma above_In (col : list Q) (v u : Q) :
  In u (above col v) <-> In u col /\ v < u.
Proof.
  unfold above. rewrite filter_In, negb_true_iff. split.
  - intros [Hu E]. split; [exact Hu |].
    apply Qnot_le_lt. intros Hle. apply Qle_bool_iff in Hle. congruence.
  - intros [Hu Hlt]. split; [exact Hu |].
    destruct (Qle_bool u v) eqn:E; [| reflexivity].
    apply Qle_bool_iff in E. lra.
Qed.

(** One representative, in lowest terms, of each value of the column. *)
Definition classes (col : list Q) : list Q :=
  nodup Q_eq_dec (map Qred col).

Lemma classes_In (col : list Q) (c : Q) :
  In c (classes col) <-> exists u, In u col /\ c = Qred u.
Proof.
  unfold classes. rewrite nodup_In, in_map_iff. split.
  - intros (u & <- & Hu). now exists u.
  - intros (u & Hu & ->). now exists u.
Qed.

Lemma distinct_classes (col : list Q) :
  length (distinct col) = length (classes col).
Proof.
  unfold classes. induction col as [| v rest IH]; [reflexivity |].
  cbn [distinct map nodup].
  destruct (existsb (Qeq_bool v) rest) eqn:E;
    destruct (in_dec Q_eq_dec (Qred v) (map Qred rest)) as [Hin | Hout].
  - exact IH.
  - exfalso. apply Hout. apply existsb_exists in E.
    destruct E as (u & Hu & Evu). apply Qeq_bool_iff in Evu.
    apply in_map_iff. exists u. split; [| exact Hu].
    symmetry. now apply Qred_complete.
  - exfalso. apply in_map_iff in Hin. destruct Hin as (u & Eu & Hu).
    assert (existsb (Qeq_bool v) rest = true); [| congruence].
    apply existsb_exists. exists u. split; [exact Hu |].
    apply Qeq_bool_iff. symmetry. now apply Qred_eq_iff.
  - cbn [length]. now rewrite IH.
Qed.

Lemma dense_rank_classes (col : list Q) (v : Q) :
  dense_rank col v = (1 + Z.of_nat (length (classes (above col v))))%Z.
Proof.
  unfold dense_rank. fold (above col v). now rewrite distinct_classes.
Qed.

Lemma above_comp (col : list Q) (v w : Q) : v == w -> above col v = above col w.
Proof.
  intros E. unfold above. apply filter_ext. intros u.
  destruct (Qle_bool u v) eqn:Ev, (Qle_bool u w) eqn:Ew; try reflexivity.
  - apply Qle_bool_iff in Ev. rewrite E in Ev. apply Qle_bool_iff in Ev.
    congruence.
  - apply Qle_bool_iff in Ew. rewrite <- E in Ew. apply Qle_bool_iff in Ew.
    congruence.
Qed.

Lemma dense_rank_tie (col : list Q) (v w : Q) :
  v == w -> dense_rank col v = dense_rank col w.
Proof.
  intros E. unfold dense_rank. fold (above col v) (above col w).
  now rewrite (above_comp col v w E).
Qed.

Lemma dense_rank_lower (col : list Q) (v w : Q) :
  In w col -> v < w -> (dense_rank col w < dense_rank col v)%Z.
Proof.
  intros Hw Hlt. rewrite !dense_rank_classes.
  assert (Hnew : ~ In (Qred w) (classes (above col w))).
  { rewrite classes_In. intros (u & Hu & E).
    apply above_In in Hu. apply Qred_eq_iff in E. lra. }
  assert (Hnodup : NoDup (Qred w :: classes (above col w))).
  { constructor; [exact Hnew | apply NoDup_nodup]. }
  assert (Hincl : incl (Qred w :: classes (above col w)) (classes (above col v))).
  { intros c [<- | Hc].
    - apply classes_In. exists w. split; [now apply above_In | reflexivity].
    - apply classes_In in Hc. destruct Hc as (u & Hu & ->).
      apply above_In in Hu. apply classes_In. exists u.
      split; [apply above_In; split; [tauto | lra] | reflexivity]. }
  pose proof (NoDup_incl_length Hnodup Hincl) as Hlen. cbn [length] in Hlen.
  lia.
Qed.

Lemma least_of (col : list Q) :
  col <> [] -> exists u, In u col /\ forall w, In w col -> u <= w.
Proof.
  induction col as [| v rest IH]; [congruence | intros _].
  destruct rest as [| v' rest'].
  - exists v. split; [now left |]. intros w [<- | []]. apply Qle_refl.
  - destruct IH as (u & Hu & Hmin); [discriminate |].
    destruct (Qlt_le_dec v u) as [Hvu | Huv].
    + exists v. split; [now left |].
      intros w [<- | Hw]; [apply Qle_refl |]. specialize (Hmin w Hw). lra.
    + exists u. split; [now right |].
      intros w [<- | Hw]; [exact Huv | now apply Hmin].
Qed.

(** Below rank 1 the next rank up is taken by the next score up. *)
Lemma dense_rank_step (col : list Q) (v : Q) :
  above col v <> [] ->
  exists u, In u col /\ v < u /\
            (forall w, In w col -> v < w -> u <= w) /\
            dense_rank col v = (dense_rank col u + 1)%Z.
Proof.
  intros Hne. destruct (least_of (above col v) Hne) as (u & Hu & Hmin).
  apply above_In in Hu. destruct Hu as [Hu Hvu].
  assert (Hleast : forall w, In w col -> v < w -> u <= w).
  { intros w Hw Hvw. apply Hmin. now apply above_In. }
  exists u. split; [exact Hu |]. split; [exact Hvu |].
  split; [exact Hleast |].
  rewrite !dense_rank_classes.
  assert (Hnew : ~ In (Qred u) (classes (above col u))).
  { rewrite classes_In. intros (w & Hw & E).
    apply above_In in Hw. apply Qred_eq_iff in E. lra. }
  assert (Hnodup : NoDup (Qred u :: classes (above col u))).
  { constructor; [exact Hnew | apply NoDup_nodup]. }
  assert (Hsub : incl (Qred u :: classes (above col u)) (classes (above col v))).
  { intros c [<- | Hc].
    - apply classes_In. exists u. split; [now apply above_In | reflexivity].
    - apply classes_In in Hc. destruct Hc as (w & Hw & ->).
      apply above_In in Hw. apply classes_In. exists w.
      split; [apply above_In; split; [tauto | lra] | reflexivity]. }
  assert (Hsup : incl (classes (above col v)) (Qred u :: classes (above col u))).
  { intros c Hc. apply classes_In in Hc. destruct Hc as (w & Hw & ->).
    apply above_In in Hw. destruct Hw as [Hw Hvw].
    specialize (Hleast w Hw Hvw).
    destruct (Qlt_le_dec u w) as [Huw | Hwu].
    - right. apply classes_In. exists w.
      split; [now apply above_In | reflexivity].
    - left. apply Qred_complete. lra. }
  pose proof (NoDup_incl_length Hnodup Hsub) as H1.
  pose proof (NoDup_incl_length (NoDup_nodup Q_eq_dec _) Hsup) as H2.
  cbn [length] in H1, H2. unfold classes in *. lia.
Qed.

Lemma dense_rank_bounds (col : list Q) (v : Q) :
  In v col -> (1 <= dense_rank col v <= Z.of_nat (length col))%Z.
Proof.
  intros Hv. rewrite dense_rank_classes. split; [lia |].
  assert (Hnew : ~ In (Qred v) (classes (above col v))).
  { rewrite classes_In. intros (u & Hu & E).
    apply above_In in Hu. apply Qred_eq_iff in E. lra. }
  assert (Hnodup : NoDup (Qred v :: classes (above col v))).
  { constructor; [exact Hnew | apply NoDup_nodup]. }
  assert (Hincl : incl (Qred v :: classes (above col v)) (map Qred col)).
  { intros c [<- | Hc].
    - now apply in_map.
    - apply classes_In in Hc. destruct Hc as (u & Hu & ->).
      apply above_In in Hu. apply in_map. tauto. }
  pose proof (NoDup_incl_length Hnodup Hincl) as Hlen.
  cbn [length] in Hlen. rewrite length_map in Hlen. lia.
Qed.

Lemma scored_length (G : Type) `{Geometry G} (cs : list (Candidate G)) :
  length (calculate_composite_scores cs) = length cs.
Proof.
  unfold calculate_composite_scores.
  destruct cs as [| c cs']; [reflexivity |].
  cbn [length Nat.eqb]. now rewrite !length_map.
Qed.

Lemma scored_rank (G : Type) `{Geometry G} (cs : list (Candidate G)) (h : Hotspot G) :
  In h (calculate_composite_scores cs) ->
  rank h = dense_rank (map (@popularity_score G) (calculate_composite_scores cs))
                      (popularity_score h).
Proof.
  unfold calculate_composite_scores.
  destruct (length cs =? 0)%nat; [intros [] |].
  rewrite in_map_iff. intros (c & <- & Hc). cbn [rank popularity_score].
  now rewrite map_map.
Qed.

(** X1. The rank follows the popularity score downwards: rows of equal score
    share a rank, and a row of larger score has a strictly smaller rank. *)
Theorem rank_orders_by_popularity (G : Type) `{Geometry G}
        (cs : list (Candidate G)) (h1 h2 : Hotspot G) :
  In h1 (calculate_composite_scores cs) ->
  In h2 (calculate_composite_scores cs) ->
  (popularity_score h1 == popularity_score h2 -> rank h1 = rank h2) /\
  (popularity_score h1 < popularity_score h2 -> (rank h2 < rank h1)%Z) /\
  ((rank h2 < rank h1)%Z -> popularity_score h1 < popularity_score h2).
Proof.
  intros H1 H2. rewrite (scored_rank G cs h1 H1), (scored_rank G cs h2 H2).
  set (col := map (@popularity_score G) (calculate_composite_scores cs)).
  assert (Hin1 : In (popularity_score h1) col) by now apply in_map.
  assert (Hin2 : In (popularity_score h2) col) by now apply in_map.
  split; [apply dense_rank_tie |]. split; [now apply dense_rank_lower |].
  intros Hrank.
  destruct (Qlt_le_dec (popularity_score h1) (popularity_score h2))
    as [Hlt | Hge]; [exact Hlt | exfalso].
  destruct (Qlt_le_dec (popularity_score h2) (popularity_score h1))
    as [Hlt | Hle].
  - pose proof (dense_rank_lower col _ _ Hin1 Hlt). lia.
  - assert (E : popularity_score h1 == popularity_score h2) by lra.
    pose proof (dense_rank_tie col _ _ E). lia.
Qed.

(** X2. The ranking is dense: ranks start at 1, the rows of the largest
    score have rank 1, and below a row of rank [k > 1] there is a row of
    rank [k - 1], the row of the next score up. *)
Theorem rank_is_dense (G : Type) `{Geometry G}
        (cs : list (Candidate G)) (h : Hotspot G) :
  In h (calculate_composite_scores cs) ->
  (1 <= rank h <= Z.of_nat (length cs))%Z /\
  ((forall h', In h' (calculate_composite_scores cs) ->
               popularity_score h' <= popularity_score h) ->
   rank h = 1%Z) /\
  ((1 < rank h)%Z ->
   exists h', In h' (calculate_composite_scores cs) /\
              rank h' = (rank h - 1)%Z /\
              popularity_score h < popularity_score h' /\
              forall h'', In h'' (calculate_composite_scores cs) ->
                          popularity_score h < popularity_score h'' ->
                          popularity_score h' <= popularity_score h'').
Proof.
  intros Hh. rewrite (scored_rank G cs h Hh).
  set (col := map (@popularity_score G) (calculate_composite_scores cs)).
  assert (Hrows : forall u, In u col ->
                            exists h', In h' (calculate_composite_scores cs) /\
                                       popularity_score h' = u).
  { intros u Hu. apply in_map_iff in Hu. destruct Hu as (h' & E & Hh').
    now exists h'. }
  assert (Hsize : length col = length cs).
  { unfold col, calculate_composite_scores.
    destruct cs as [| c cs']; [reflexivity |].
    cbn [length Nat.eqb]. now rewrite !length_map. }
  split; [| split].
  - rewrite dense_rank_classes. split; [lia |].
    assert (Hnew : ~ In (Qred (popularity_score h))
                        (classes (above col (popularity_score h)))).
    { rewrite classes_In. intros (u & Hu & E).
      apply above_In in Hu. apply Qred_eq_iff in E. lra. }
    assert (Hnodup : NoDup (Qred (popularity_score h)
                            :: classes (above col (popularity_score h)))).
    { constructor; [exact Hnew | apply NoDup_nodup]. }
    assert (Hincl : incl (Qred (popularity_score h)
                          :: classes (above col (popularity_score h)))
                         (map Qred col)).
    { intros c [<- | Hc].
      - apply in_map. now apply in_map.
      - apply classes_In in Hc. destruct Hc as (u & Hu & ->).
        apply above_In in Hu. apply in_map. tauto. }
    pose proof (NoDup_incl_length Hnodup Hincl) as Hlen.
    cbn [length] in Hlen. rewrite length_map, Hsize in Hlen. lia.
  - intros Htop. rewrite dense_rank_classes.
    assert (E : above col (popularity_score h) = []).
    { destruct (above col (popularity_score h)) as [| u rest] eqn:Ea;
        [reflexivity | exfalso].
      assert (Hu : In u (above col (popularity_score h)))
        by (rewrite Ea; now left).
      apply above_In in Hu. destruct Hu as [Hu Hlt].
      destruct (Hrows u Hu) as (h' & Hh' & <-).
      specialize (Htop h' Hh'). lra. }
    now rewrite E.
  - intros Hlow.
    destruct (dense_rank_step col (popularity_score h))
      as (u & Hu & Hlt & Hleast & Estep).
    { intros E. rewrite dense_rank_classes, E in Hlow. cbn in Hlow. lia. }
    destruct (Hrows u Hu) as (h' & Hh' & <-).
    exists h'. split; [exact Hh' |].
    rewrite (scored_rank G cs h' Hh'). fold col.
    split; [lia |]. split; [exact Hlt |].
    intros h'' Hh'' Hlt''. apply Hleast; [now apply in_map | exact Hlt''].
Qed.

End RankProperties.

Section RankExamples.
Import SpatialIntersection Boxes.

Definition dense_row : Hotspot Box :=
  nth 0 (calculate_composite_scores two_candidates)
      {| candidate := Spec.candidate_of 0 scenario_dining 0 scenario_taxi;
         restaurant_density := 0; taxi_density := 0; restaurant_score := 0;
         taxi_score := 0; popularity_score := 0; rank := 0 |}.

Definition sparse_row : Hotspot Box :=
  nth 1 (calculate_composite_scores two_candidates) dense_row.

Lemma rank_orders_by_popularity_witness :
  (popularity_score sparse_row == popularity_score dense_row ->
   rank sparse_row = rank dense_row) /\
  (popularity_score sparse_row < popularity_score dense_row ->
   (rank dense_row < rank sparse_row)%Z) /\
  ((rank dense_row < rank sparse_row)%Z ->
   popularity_score sparse_row < popularity_score dense_row).
Proof.
  apply (rank_orders_by_popularity Box two_candidates sparse_row dense_row).
  - right. left. reflexivity.
  - left. reflexivity.
Defined.

Lemma rank_is_dense_witness :
  (1 <= rank sparse_row <= 2)%Z /\
  exists h', In h' (calculate_composite_scores two_candidates) /\
             rank h' = (rank sparse_row - 1)%Z.
Proof.
  destruct (rank_is_dense Box two_candidates sparse_row
              (or_intror (or_introl eq_refl))) as (Hbounds & _ & Hstep).
  split; [exact Hbounds |].
  destruct (Hstep eq_refl) as (h' & Hh' & Hrank & _).
  exists h'. split; [exact Hh' | exact Hrank].
Defined.

End RankExamples.

(** ** Filtering twice, raising thresholds *)

Section FilterProperties.
Import SpatialIntersection.
Context {G : Type} `{Geometry G}.

Lemma Qle_bool_max (a a' v : Q) :
  Qle_bool (Qmax a a') v = Qle_bool a v && Qle_bool a' v.
Proof.
  destruct (Qle_bool (Qmax a a') v) eqn:E.
  - apply Qle_bool_iff in E. apply Q.max_lub_iff in E. destruct E as [Ha Ha'].
    apply Qle_bool_iff in Ha, Ha'. now rewrite Ha, Ha'.
  - destruct (Qle_bool a v) eqn:Ea, (Qle_bool a' v) eqn:Ea'; try reflexivity.
    apply Qle_bool_iff in Ea, Ea'.
    assert (Qle_bool (Qmax a a') v = true); [| congruence].
    apply Qle_bool_iff. now apply Q.max_lub.
Qed.

Lemma filter_filter {A : Type} (f g : A -> bool) (l : list A) :
  filter f (filter g l) = filter (fun a => g a && f a) l.
Proof.
  induction l as [| a l IH]; [reflexivity |]. cbn [filter].
  destruct (g a); cbn [filter andb]; [destruct (f a) |]; now rewrite IH.
Qed.

(** X3. Filtering a filtered table is filtering once at the larger of each
    pair of thresholds.  So the filter is idempotent, and with higher
    thresholds it keeps a part of what it kept with lower ones. *)
Theorem filter_twice (cs : list (Candidate G)) (a r a' r' : Q) :
  apply_filtering_criteria (apply_filtering_criteria cs a r) a' r'
  = apply_filtering_criteria cs (Qmax a a') (Qmax r r')
  /\
  apply_filtering_criteria (apply_filtering_criteria cs a r) a r
  = apply_filtering_criteria cs a r
  /\
  (length (apply_filtering_criteria cs a r) <= length cs)%nat
  /\
  (a <= a' -> r <= r' ->
   incl (apply_filtering_criteria cs a' r') (apply_filtering_criteria cs a r)).
Proof.
  rewrite !apply_filtering_criteria_filter.
  assert (Htwice : forall b s,
             filter (passes b s) (filter (passes a r) cs)
             = filter (passes (Qmax a b) (Qmax r s)) cs).
  { intros b s. rewrite filter_filter. apply filter_ext. intros c.
    unfold passes. rewrite !Qle_bool_max.
    destruct (Qle_bool a _), (Qle_bool r _), (Qle_bool b _), (Qle_bool s _);
      reflexivity. }
  split; [apply Htwice |]. split; [| split].
  - rewrite Htwice. apply filter_ext. intros c. unfold passes.
    rewrite !Qle_bool_max.
    destruct (Qle_bool a _), (Qle_bool r _); reflexivity.
  - apply filter_length_le.
  - intros Ha Hr c. rewrite !filter_In, !passes_iff.
    intros (Hc & Hca & Hcr). repeat split; [exact Hc | lra | lra].
Qed.

End FilterProperties.

(** ** The scan of all pairs, in order *)

Module Main08.
Import SpatialIntersection.

(** Steps 2 to 4 of [main]: the scan, the filter, the scores. *)
Definition hotspots {G : Type} `{Geometry G}
           (gdf_dining : list (DiningZone G)) (gdf_taxi : list (TaxiZone G))
           (min_area_sqm min_overlap_ratio : Q) : result (list (Hotspot G)) :=
  gdf_intersections <- compute_spatial_intersections gdf_dining gdf_taxi ;;
  Ok (calculate_composite_scores
        (apply_filtering_criteria gdf_intersections
                                  min_area_sqm min_overlap_ratio)).

End Main08.

Section ScanOrder.
Import SpatialIntersection.
Context {G : Type} `{Geometry G} `{!GeometryLaws G}.

(** The rows of a table with their positions, from position [start]. *)
Definition enumerate_from {A : Type} (start : nat) (rows : list A)
  : list (nat * A) :=
  combine (seq start (length rows)) rows.

(** What one dining row contributes: its candidates with the taxi rows
    it overlaps, in the order of the taxi table. *)
Definition row_candidates (idx_d : nat) (a : DiningZone G)
           (taxi : list (nat * TaxiZone G)) : list (Candidate G) :=
  flat_map (fun jb => if overlaps (d_geometry a) (t_geometry (snd jb))
                      then [Spec.candidate_of idx_d a (fst jb) (snd jb)]
                      else [])
           taxi.

Lemma taxi_loop_in_order (idx_d : nat) (a : DiningZone G)
      (taxi : list (TaxiZone G)) :
  forall idx_t,
    taxi_loop idx_d a idx_t taxi
    = Ok (row_candidates idx_d a (enumerate_from idx_t taxi)).
Proof.
  induction taxi as [| b taxi IH]; intros idx_t; [reflexivity |].
  cbn [taxi_loop]. rewrite intersect_pair_overlaps, IH. cbn [bind].
  unfold row_candidates, enumerate_from.
  cbn [length seq combine flat_map fst snd].
  now destruct (overlaps (d_geometry a) (t_geometry b)).
Qed.

Lemma dining_loop_in_order (taxi : list (TaxiZone G))
      (dining : list (DiningZone G)) :
  forall idx_d,
    dining_loop idx_d dining taxi
    = Ok (flat_map (fun ia => row_candidates (fst ia) (snd ia)
                                             (enumerate_from 0 taxi))
                   (enumerate_from idx_d dining)).
Proof.
  induction dining as [| a dining IH]; intros idx_d; [reflexivity |].
  cbn [dining_loop]. rewrite taxi_loop_in_order, IH. reflexivity.
Qed.

Lemma row_candidates_length (idx_d : nat) (a : DiningZone G)
      (taxi : list (nat * TaxiZone G)) :
  (length (row_candidates idx_d a taxi) <= length taxi)%nat.
Proof.
  unfold row_candidates. induction taxi as [| jb taxi IH]; [apply Nat.le_refl |].
  cbn [flat_map length]. rewrite length_app.
  destruct (overlaps _ _); cbn [length]; lia.
Qed.

Lemma enumerate_from_length {A : Type} (start : nat) (rows : list A) :
  length (enumerate_from start rows) = length rows.
Proof.
  unfold enumerate_from. rewrite length_combine, length_seq. lia.
Qed.

(** X4. Over a lawful geometry the scan returns the candidates pair by pair
    in row-major order, dining rows outside and taxi rows inside, one
    candidate for each overlapping pair: never more than there are
    pairs, and none when either table is empty. *)
Theorem scan_in_row_major_order
        (dining : list (DiningZone G)) (taxi : list (TaxiZone G)) :
  compute_spatial_intersections dining taxi
  = Ok (flat_map (fun ia => row_candidates (fst ia) (snd ia)
                                           (enumerate_from 0 taxi))
                 (enumerate_from 0 dining))
  /\
  (forall cands, compute_spatial_intersections dining taxi = Ok cands ->
                 (length cands <= length dining * length taxi)%nat)
  /\
  (dining = [] \/ taxi = [] ->
   compute_spatial_intersections dining taxi = Ok []).
Proof.
  unfold compute_spatial_intersections. rewrite dining_loop_in_order.
  split; [reflexivity |]. split.
  - intros cands E. injection E as <-.
    generalize (enumerate_from 0 dining) (enumerate_from_length 0 dining).
    intros rows Hrows. rewrite <- Hrows. clear Hrows.
    induction rows as [| ia rows IH]; [apply Nat.le_refl |].
    cbn [flat_map length]. rewrite length_app.
    pose proof (row_candidates_length (fst ia) (snd ia) (enumerate_from 0 taxi))
      as Hrow.
    rewrite enumerate_from_length in Hrow. lia.
  - intros [-> | ->]; [reflexivity |]. f_equal.
    induction (enumerate_from 0 dining) as [| ia rows IH]; [reflexivity |].
    cbn [flat_map]. rewrite IH. reflexivity.
Qed.

(** The rows a lawful scan emits are well formed once the zones carry no
    negative count or weight. *)
Definition sound_dining (a : DiningZone G) : Prop :=
  (0 <= get (d_n_restaurants a) 0)%Z.

Definition sound_taxi (b : TaxiZone G) : Prop :=
  0 <= get (t_total_weight b) 0.

Lemma scored_row_bounds (cs : list (Candidate G)) (h : Hotspot G) :
  Forall well_formed cs ->
  In h (calculate_composite_scores cs) ->
  0 <= popularity_score h /\
  popularity_score h <= 100 + Binary64.ulp_100.
Proof.
  intros Hwf Hh.
  destruct (scores_within_one_ulp cs Hwf) as [Hall _].
  destruct (Hall h Hh) as (_ & Hpop & _). exact Hpop.
Qed.

(** X5. Steps 2 to 4 of [main] together.  Over a lawful geometry and zones
    without negative counts or weights the three steps raise nothing, and
    every final hotspot is the candidate of an overlapping pair of rows,
    meets both thresholds, and has a popularity score between 0 and
    100 + 2^-46 (one unit in the last place above 100, which rounding
    can reach) and a rank between 1 and the number of hotspots. *)
Theorem final_hotspots_sound
        (dining : list (DiningZone G)) (taxi : list (TaxiZone G))
        (min_area min_ratio : Q) :
  Forall sound_dining dining ->
  Forall sound_taxi taxi ->
  exists final,
    Main08.hotspots dining taxi min_area min_ratio = Ok final /\
    forall h, In h final ->
      (exists i a j b,
          nth_error dining i = Some a /\ nth_error taxi j = Some b /\
          overlaps (d_geometry a) (t_geometry b) = true /\
          candidate h = Spec.candidate_of i a j b) /\
      min_area <= intersection_area_sqm (candidate h) /\
      min_ratio <= min_overlap_ratio (candidate h) /\
      (0 <= popularity_score h /\
       popularity_score h <= 100 + Binary64.ulp_100) /\
      (1 <= rank h <= Z.of_nat (length final))%Z.
Proof.
  intros Hdining Htaxi. rewrite Forall_forall in Hdining, Htaxi.
  unfold Main08.hotspots, compute_spatial_intersections.
  destruct (dining_loop_emits taxi dining 0) as (cands & Hrun & Hin).
  rewrite Hrun. cbn [bind]. eexists. split; [reflexivity |].
  set (kept := apply_filtering_criteria cands min_area min_ratio).
  assert (Hkept : forall c, In c kept ->
                            In c cands /\
                            min_area <= intersection_area_sqm c /\
                            min_ratio <= min_overlap_ratio c).
  { intros c Hc. unfold kept in Hc.
    rewrite apply_filtering_criteria_filter, filter_In, passes_iff in Hc.
    tauto. }
  assert (Hwf : Forall well_formed kept).
  { apply Forall_forall. intros c Hc. apply Hkept in Hc.
    destruct Hc as (Hc & _). apply Hin in Hc.
    destruct Hc as (i & a & j & b & Hi & Hj & Hov & ->).
    destruct (overlap_areas _ _ Hov) as (Hpos & _).
    repeat split.
    - exact Hpos.
    - apply (Hdining a). now apply nth_error_In in Hi.
    - apply (Htaxi b). now apply nth_error_In in Hj. }
  intros h Hh.
  destruct (scored_rows kept h Hh) as (Hc & _).
  destruct (Hkept _ Hc) as (Hcand & Harea & Hratio).
  split; [| split; [exact Harea | split; [exact Hratio | split]]].
  - apply Hin in Hcand. destruct Hcand as (i & a & j & b & Hi & Hj & Hov & E).
    exists i, a, j, b. cbn [Nat.add] in E. tauto.
  - exact (scored_row_bounds kept h Hwf Hh).
  - rewrite (scored_rank G kept h Hh).
    pose proof (dense_rank_bounds
                  (map (@popularity_score G) (calculate_composite_scores kept))
                  (popularity_score h) (in_map _ _ _ Hh)) as Hrank.
    now rewrite length_map in Hrank.
Qed.

End ScanOrder.

Section ScanExamples.
Import SpatialIntersection Boxes.

Lemma scan_in_row_major_order_witness :
  compute_spatial_intersections [scenario_dining; plaza_dining]
                                [touching_taxi; scenario_taxi]
  = Ok [Spec.candidate_of 0 scenario_dining 1 scenario_taxi;
        Spec.candidate_of 1 plaza_dining 0 touching_taxi;
        Spec.candidate_of 1 plaza_dining 1 scenario_taxi].
Proof.
  exact (proj1 (scan_in_row_major_order (G := Box)
                  [scenario_dining; plaza_dining]
                  [touching_taxi; scenario_taxi])).
Defined.

Lemma box_zones_sound :
  Forall sound_dining [scenario_dining; plaza_dining] /\
  Forall sound_taxi [touching_taxi; scenario_taxi].
Proof.
  split; repeat constructor; discriminate.
Qed.

Lemma final_hotspots_sound_witness :
  exists final,
    Main08.hotspots [scenario_dining; plaza_dining]
                    [touching_taxi; scenario_taxi] 10000 0.15 = Ok final /\
    forall h, In h final ->
              10000 <= intersection_area_sqm (candidate h) /\
              0.15 <= min_overlap_ratio (candidate h) /\
              (0 <= popularity_score h /\
               popularity_score h <= 100 + Binary64.ulp_100).
Proof.
  destruct (final_hotspots_sound (G := Box)
              [scenario_dining; plaza_dining] [touching_taxi; scenario_taxi]
              10000 0.15 (proj1 box_zones_sound) (proj2 box_zones_sound))
    as (final & Hrun & Hall).
  exists final. split; [exact Hrun |].
  intros h Hh. destruct (Hall h Hh) as (_ & Ha & Hr & Hp & _). tauto.
Defined.

Example final_hotspots_run :
  match Main08.hotspots [scenario_dining; plaza_dining]
                        [touching_taxi; scenario_taxi] 10000 0.15 with
  | Ok final => map (fun h => (taxi_hotspot_id (candidate h),
                               Qred (popularity_score h), rank h)) final
  | Raise _ => []
  end = [(0%Z, 50, 2%Z); (3%Z, 2932031007402667 # 35184372088832, 1%Z)].
Proof. vm_compute. reflexivity. Qed.

(** The bound is reached: the hotspot of the two corner zones. *)
Example corner_hotspot_run :
  match Main08.hotspots [corner_dining] [corner_taxi] 10000 0.15 with
  | Ok final => map (fun h => (Qred (popularity_score h), rank h)) final
  | Raise _ => []
  end = [(7036874417766401 # 70368744177664, 1%Z)].
Proof. vm_compute. reflexivity. Qed.

End ScanExamples.

(** ** utils/config_loader.py, and the thresholds [main] reads with it *)

Module ConfigLoader.

(** What [yaml.safe_load] returns. *)
#[local] Set Warnings "-register-all".
Inductive Yaml : Type :=
| YNone
| YBool (b : bool)
| YInt (n : Z)
| YFloat (x : Q)
| YStr (s : string)
| YList (items : list Yaml)
| YDict (entries : list (string * Yaml)).

(** The exceptions of [value[key]]. *)
Inductive LookupError : Type :=
| KeyError (key : string)
| TypeError.

(** A dictionary entry by its key. *)
Fixpoint entry (key : string) (entries : list (string * Yaml)) : option Yaml :=
  match entries with
  | [] => None
  | (k, v) :: rest => if String.eqb k key then Some v else entry key rest
  end.

(** [value[key]] for a string [key]: only a dictionary can be indexed by
    a string, and only at a key it holds. *)
Definition subscript (value : Yaml) (key : string) : LookupError + Yaml :=
  match value with
  | YDict entries =>
      match entry key entries with
      | Some v => inr v
      | None => inl (KeyError key)
      end
  | _ => inl TypeError
  end.

(** [key_path.split('.')]. *)
Fixpoint split_dots (key_path : string) : list string :=
  match key_path with
  | EmptyString => [EmptyString]
  | String c rest =>
      if Ascii.eqb c "."%char then EmptyString :: split_dots rest
      else match split_dots rest with
           | first :: more => String c first :: more
           | [] => [String c EmptyString]
           end
  end.

(** [for key in keys: value = value[key]]. *)
Fixpoint descend (value : Yaml) (keys : list string) : LookupError + Yaml :=
  match keys with
  | [] => inr value
  | key :: rest =>
      match subscript value key with
      | inl e => inl e
      | inr inner => descend inner rest
      end
  end.

(** [get_config_value(key_path, config)] for a loaded [config]. *)
Definition get_config_value (key_path : string) (config : Yaml)
  : LookupError + Yaml :=
  descend config (split_dots key_path).

(** [get_data_path(dataset_key, config)], up to the project root the
    path is joined to: the configured relative path, which must be a
    string for [project_root / value]. *)
Definition get_data_path (dataset_key : string) (config : Yaml)
  : LookupError + string :=
  match subscript config "data" with
  | inl e => inl e
  | inr data =>
      match descend data (split_dots dataset_key) with
      | inl e => inl e
      | inr (YStr path) => inr path
      | inr _ => inl TypeError
      end
  end.

(** Truth value of a loaded value. *)
Definition truthy (value : Yaml) : bool :=
  match value with
  | YNone => false
  | YBool b => b
  | YInt n => negb (n =? 0)%Z
  | YFloat x => negb (Qeq_bool x 0)
  | YStr s => negb (String.eqb s EmptyString)
  | YList items => match items with [] => false | _ => true end
  | YDict entries => match entries with [] => false | _ => true end
  end.

(** [get_config_value(key_path, config) or default]. *)
Definition configured_or (key_path : string) (config default : Yaml)
  : LookupError + Yaml :=
  match get_config_value key_path config with
  | inl e => inl e
  | inr value => inr (if truthy value then value else default)
  end.

(** The two thresholds of 08_spatial_intersection.py [main]. *)
Definition main_min_area_sqm (config : Yaml) : LookupError + Yaml :=
  configured_or "intersection.min_area_sqm" config (YFloat 10000).

Definition main_min_overlap_ratio (config : Yaml) : LookupError + Yaml :=
  configured_or "intersection.min_overlap_ratio" config (YFloat 0.15).

(** The buffer distances of the two clustering scripts. *)
Definition main_dining_zone_buffer (config : Yaml) : LookupError + Yaml :=
  configured_or "clustering.dining_zone_buffer" config (YFloat 100).

Definition main_taxi_hotspot_buffer (config : Yaml) : LookupError + Yaml :=
  configured_or "clustering.taxi_hotspot_buffer" config (YFloat 150).

End ConfigLoader.

Section ConfigProperties.
Import ConfigLoader.

Lemma split_dots_nonempty (s : string) : split_dots s <> [].
Proof.
  destruct s as [| c s]; cbn [split_dots]; [discriminate |].
  destruct (Ascii.eqb c "."); [discriminate |].
  destruct (split_dots s); discriminate.
Qed.

Lemma split_dots_join (k1 k2 : string) :
  split_dots (String.append k1 (String "." k2)) = split_dots k1 ++ split_dots k2.
Proof.
  induction k1 as [| c k1 IH]; [reflexivity |].
  cbn [String.append split_dots]. rewrite IH.
  destruct (Ascii.eqb c "."); [reflexivity |].
  pose proof (split_dots_nonempty k1) as Hne.
  destruct (split_dots k1) as [| first more]; [congruence | reflexivity].
Qed.

Lemma descend_app (keys1 keys2 : list string) :
  forall value,
    descend value (keys1 ++ keys2)
    = match descend value keys1 with
      | inl e => inl e
      | inr inner => descend inner keys2
      end.
Proof.
  induction keys1 as [| key keys1 IH]; intros value; [reflexivity |].
  cbn [app descend]. destruct (subscript value key); [reflexivity | apply IH].
Qed.

(** X6. Looking up a dotted path is looking up its first part and then, in
    what that returns, the rest; [get_data_path] is the lookup below the
    key "data". *)
Theorem get_config_value_composes (k1 k2 : string) (config : Yaml) :
  get_config_value (String.append k1 (String "." k2)) config
  = match get_config_value k1 config with
    | inl e => inl e
    | inr inner => get_config_value k2 inner
    end
  /\
  get_data_path k2 config
  = match get_config_value (String.append "data" (String "." k2)) config with
    | inl e => inl e
    | inr (YStr path) => inr path
    | inr _ => inl TypeError
    end.
Proof.
  unfold get_config_value, get_data_path. rewrite !split_dots_join, !descend_app.
  split; [reflexivity |]. cbn [split_dots Ascii.eqb descend].
  change (Ascii.eqb "d" ".") with false. cbn.
  destruct (subscript config "data"); reflexivity.
Qed.

(** X7. No default stands in for a missing key: a path whose first key the
    configuration does not hold raises KeyError, and a path through a
    value that is no dictionary raises TypeError, also where [main]
    writes [... or default]. *)
Theorem missing_key_raises (key rest : string) (value default : Yaml) :
  (forall entries,
      value = YDict entries -> entry key entries = None ->
      split_dots key = [key] ->
      configured_or (String.append key (String "." rest)) value default
      = inl (KeyError key))
  /\
  ((forall entries, value <> YDict entries) ->
   configured_or (String.append key (String "." rest)) value default
   = inl TypeError).
Proof.
  split.
  - intros entries -> Hmissing Hkey.
    unfold configured_or, get_config_value.
    rewrite split_dots_join, Hkey. cbn [app descend subscript].
    now rewrite Hmissing.
  - intros Hnodict. unfold configured_or, get_config_value.
    pose proof (split_dots_nonempty (String.append key (String "." rest))) as Hne.
    destruct (split_dots (String.append key (String "." rest))) as [| f m];
      [congruence |].
    cbn [descend]. destruct value; try reflexivity.
    exfalso. now apply (Hnodict entries).
Qed.

(** X8. A configured threshold that is false in Python (0, 0.0, null, an
    empty string) does not reach the filter: the default takes its
    place.  Every other number is used as configured. *)
Theorem falsy_threshold_replaced (config value : Yaml) :
  get_config_value "intersection.min_area_sqm" config = inr value ->
  (truthy value = false -> main_min_area_sqm config = inr (YFloat 10000)) /\
  (value = YInt 0 \/ value = YFloat 0 \/ value = YNone \/
   value = YStr EmptyString ->
   main_min_area_sqm config = inr (YFloat 10000)) /\
  (forall x, ~ x == 0 -> value = YFloat x ->
             main_min_area_sqm config = inr (YFloat x)) /\
  (forall n, n <> 0%Z -> value = YInt n ->
             main_min_area_sqm config = inr (YInt n)).
Proof.
  intros Hget. unfold main_min_area_sqm, configured_or. rewrite Hget.
  split; [| split; [| split]].
  - now intros ->.
  - intros [-> | [-> | [-> | ->]]]; reflexivity.
  - intros x Hx ->. cbn [truthy].
    destruct (Qeq_bool x 0) eqn:E; [| reflexivity].
    apply Qeq_bool_iff in E. contradiction.
  - intros n Hn ->. cbn [truthy]. apply Z.eqb_neq in Hn. now rewrite Hn.
Qed.

Definition sample_config : Yaml :=
  YDict [("clustering"%string,
          YDict [("dining_zone_buffer"%string, YFloat 120);
                 ("taxi_hotspot_buffer"%string, YNone)]);
         ("intersection"%string,
          YDict [("min_area_sqm"%string, YInt 0);
                 ("min_overlap_ratio"%string, YFloat 0.2)]);
         ("data"%string,
          YDict [("processed"%string, YDict [("hotspots"%string, YStr "data/processed/final_hotspots.geojson")])])].

Lemma falsy_threshold_replaced_witness :
  main_min_area_sqm sample_config = inr (YFloat 10000).
Proof.
  exact (proj1 (proj2 (falsy_threshold_replaced sample_config (YInt 0) eq_refl))
               (or_introl eq_refl)).
Defined.

Example sample_config_values :
  main_min_overlap_ratio sample_config = inr (YFloat 0.2) /\
  main_dining_zone_buffer sample_config = inr (YFloat 120) /\
  main_taxi_hotspot_buffer sample_config = inr (YFloat 150) /\
  get_data_path "processed.hotspots" sample_config
  = inr "data/processed/final_hotspots.geojson"%string /\
  get_config_value "clustering.taxi.min_cluster_size" sample_config
  = inl (KeyError "taxi").
Proof. repeat split. Qed.

End ConfigProperties.

(** ** Weighted clustering: expansion and resolution together *)

Section ExpansionProperties.
Import Numpy ClusterTaxi.

Lemma slice_after {A : Type} (l1 l2 : list A) (a b : nat) :
  slice (l1 ++ l2) (length l1 + a) (length l1 + b) = slice l2 a b.
Proof.
  unfold slice. rewrite skipn_app.
  replace (length l1 + a - length l1)%nat with a by lia.
  rewrite (skipn_all2 l1) by lia. cbn [app]. f_equal. lia.
Qed.

Lemma slice_front {A : Type} (l1 l2 : list A) :
  slice (l1 ++ l2) 0 (length l1) = l1.
Proof.
  unfold slice. cbn [skipn]. rewrite Nat.sub_0_r, firstn_app, Nat.sub_diag.
  cbn [firstn]. now rewrite firstn_all, app_nil_r.
Qed.

Lemma most_common_repeat (l : Z) (k : nat) :
  (0 < k)%nat -> most_common (repeat l k) = Ok l.
Proof.
  intros Hk.
  destruct (most_common_smallest_majority (repeat l k)) as (r & E & Hr & _).
  { destruct k; [lia | discriminate]. }
  apply repeat_spec in Hr. now subst r.
Qed.

Lemma labels_original_from_repeated (ws : list Z) :
  forall (point_labels before : list Z),
    Forall (fun w => (1 <= w)%Z) ws ->
    length point_labels = length ws ->
    labels_original_from (before ++ repeat_rows point_labels ws)
                         (length before) ws
    = Ok point_labels.
Proof.
  induction ws as [| w ws IH]; intros point_labels before Hpos Hlen.
  - destruct point_labels; [reflexivity | discriminate].
  - destruct point_labels as [| l point_labels]; [discriminate |].
    inversion Hpos as [| ? ? Hw Hrest]; subst.
    cbn [repeat_rows labels_original_from].
    set (k := Z.to_nat w).
    assert (Hgroup : slice (before ++ repeat l k ++ repeat_rows point_labels ws)
                           (length before) (length before + k)
                     = repeat l k).
    { rewrite <- (Nat.add_0_r (length before)) at 1.
      rewrite slice_after.
      rewrite <- (repeat_length l k) at 2. apply slice_front. }
    rewrite Hgroup, most_common_repeat by (unfold k; lia). cbn [bind].
    rewrite app_assoc.
    replace (length before + k)%nat with (length (before ++ repeat l k))
      by (rewrite length_app, repeat_length; reflexivity).
    rewrite IH; [reflexivity | exact Hrest | now injection Hlen].
Qed.

(** X9. Round trip.  If every copy of a point carries the label of its
    point, the loop of [main] gives each original point its label back,
    whatever the weights. *)
Theorem labels_of_copies_round_trip (point_labels : list Z) (weights : list Q) :
  length point_labels = length weights ->
  labels_original (repeat_rows point_labels (weights_rounded weights)) weights
  = Ok point_labels.
Proof.
  intros Hlen. unfold labels_original.
  apply (labels_original_from_repeated (weights_rounded weights) point_labels []).
  - apply weights_rounded_positive.
  - unfold weights_rounded. now rewrite length_map.
Qed.

Lemma labels_of_copies_round_trip_witness :
  labels_original (repeat_rows [4; -1; 7]%Z (weights_rounded [1.5; 0.3; 2.6]))
                  [1.5; 0.3; 2.6]
  = Ok [4; -1; 7]%Z.
Proof.
  exact (labels_of_copies_round_trip [4; -1; 7]%Z [1.5; 0.3; 2.6] eq_refl).
Defined.

Lemma repeat_rows_groups {A : Type} (rows : list A) :
  forall (ws : list Z) (i : nat) (row : A) (w : Z),
    length rows = length ws ->
    nth_error rows i = Some row ->
    nth_error ws i = Some w ->
    slice (repeat_rows rows ws) (Spec.group_start ws i) (Spec.group_start ws (S i))
    = repeat row (Z.to_nat w).
Proof.
  induction rows as [| r rows IH]; intros ws i row w Hlen Hrow Hw.
  - destruct i; discriminate.
  - destruct ws as [| w0 ws]; [discriminate |].
    cbn [repeat_rows]. destruct i as [| i]; cbn in Hrow, Hw.
    + injection Hrow as <-. injection Hw as <-.
      change (Spec.group_start (w0 :: ws) 0) with 0%nat.
      rewrite group_start_cons.
      change (Spec.group_start ws 0) with 0%nat. rewrite Nat.add_0_r.
      rewrite <- (repeat_length r (Z.to_nat w0)) at 2. apply slice_front.
    + rewrite !group_start_cons.
      rewrite <- (repeat_length r (Z.to_nat w0)) at 2 3.
      rewrite slice_after. apply IH; [now injection Hlen | exact Hrow | exact Hw].
Qed.

Lemma repeat_rows_length {A : Type} (rows : list A) :
  forall ws, length rows = length ws ->
             length (repeat_rows rows ws) = Spec.group_start ws (length ws).
Proof.
  induction rows as [| r rows IH]; intros [| w ws] Hlen; try discriminate;
    [reflexivity |].
  cbn [repeat_rows length]. rewrite group_start_cons, length_app, repeat_length.
  rewrite IH; [reflexivity | now injection Hlen].
Qed.

Lemma group_start_at_least (ws : list Z) :
  Forall (fun w => (1 <= w)%Z) ws ->
  (length ws <= Spec.group_start ws (length ws))%nat.
Proof.
  induction 1 as [| w ws Hw Hrest IH]; [apply Nat.le_refl |].
  cbn [length]. rewrite group_start_cons. lia.
Qed.

(** X10. The expanded table.  It holds the copies of the points group by
    group: the rows from [group_start i] to [group_start (i + 1)] are the
    copies of point [i], as many as its rounded weight.  It has one row
    per copy, at least one per point, and no coordinate that is not a
    point's.  The table is returned unless there is no point at all:
    then the expansion factor of the log is 0/0 and the function
    raises. *)
Theorem expanded_table_groups (df : list Dropoff) :
  let coords_weighted := fst (prepare_weighted_coordinates df) in
  let copies := weights_rounded (map weight df) in
  (df = [] ->
   prepare_weighted_coordinates_logged df = Raise ZeroDivisionError) /\
  (df <> [] ->
   prepare_weighted_coordinates_logged df
   = Ok (prepare_weighted_coordinates df)) /\
  (forall i row,
      nth_error df i = Some row ->
      slice coords_weighted (Spec.group_start copies i)
                            (Spec.group_start copies (S i))
      = repeat (coord row) (Z.to_nat (Z.max (round (weight row)) 1))) /\
  length coords_weighted = Spec.group_start copies (length df) /\
  (length df <= length coords_weighted)%nat /\
  (forall c, In c coords_weighted <-> In c (map coord df)).
Proof.
  intros coords_weighted copies. subst coords_weighted copies.
  cbn [prepare_weighted_coordinates fst].
  assert (Hlen : length (map coord df) = length (weights_rounded (map weight df))).
  { unfold weights_rounded. now rewrite !length_map. }
  assert (Hcopies : length (weights_rounded (map weight df)) = length df).
  { unfold weights_rounded. now rewrite !length_map. }
  split; [| split; [| split; [| split; [| split]]]].
  - intros ->. reflexivity.
  - intros Hrows. unfold prepare_weighted_coordinates_logged.
    rewrite py_div_nonzero; [reflexivity |].
    cbn [prepare_weighted_coordinates snd]. rewrite rows_of_zero.
    intros E. apply map_eq_nil in E. contradiction.
  - intros i row Hrow.
    apply (repeat_rows_groups (map coord df) _ i (coord row)); [exact Hlen | |].
    + now rewrite nth_error_map, Hrow.
    + unfold weights_rounded. now rewrite !nth_error_map, Hrow.
  - rewrite (repeat_rows_length _ _ Hlen). now rewrite Hcopies.
  - rewrite (repeat_rows_length _ _ Hlen), <- Hcopies.
    apply group_start_at_least, weights_rounded_positive.
  - intros c. rewrite repeat_rows_flat_map, in_flat_map, in_map_iff. split.
    + intros (row & Hrow & Hc). apply repeat_spec in Hc. now exists row.
    + intros (row & <- & Hrow). exists row. split; [exact Hrow |].
      rewrite <- weights_rounded_copies.
      destruct (Z.to_nat (Z.max (round (weight row)) 1)) as [| k] eqn:Ek;
        [lia | now left].
Qed.

End ExpansionProperties.

(** ** The cluster statistics of the validation metrics *)

Module Scores.
Import Numpy.

(** A stand-in for scikit-learn that keeps its domain: both scores want
    at least 2 labels and fewer labels than points, and raise ValueError
    otherwise. *)
Definition accepts (labels : list Z) : bool :=
  ((2 <=? n_distinct labels) && (n_distinct labels <? length labels))%nat.

#[export] Instance flat_scores : ClusterMetrics := {
  silhouette_score := fun _ labels =>
    if accepts labels then Ok (1 # 2) else Raise ValueError;
  davies_bouldin_score := fun _ labels =>
    if accepts labels then Ok 1 else Raise ValueError
}.

End Scores.

Section StatisticsProperties.
Import Numpy.
Context `{ClusterMetrics}.

Definition clustered (l : Z) : bool := negb (l =? -1)%Z.

Lemma select_not_noise {A : Type} (labels : list Z) (a : list A) :
  length a = length labels ->
  select (not_noise labels) a
  = map snd (filter (fun la => clustered (fst la)) (combine labels a)).
Proof.
  revert a. induction labels as [| l labels IH]; intros [| v a] Hlen;
    try discriminate; [reflexivity |].
  cbn [not_noise map select combine filter fst]. fold (not_noise labels).
  unfold clustered at 1. destruct (negb (l =? -1)%Z); cbn [map snd];
    rewrite IH by (now injection Hlen); reflexivity.
Qed.

Lemma select_labels (labels : list Z) :
  select (not_noise labels) labels = filter clustered labels.
Proof.
  induction labels as [| l labels IH]; [reflexivity |].
  cbn [not_noise map select filter]. fold (not_noise labels).
  unfold clustered at 1. destruct (negb (l =? -1)%Z); now rewrite IH.
Qed.

Lemma nodup_filter (f : Z -> bool) (l : list Z) :
  nodup Z.eq_dec (filter f l) = filter f (nodup Z.eq_dec l).
Proof.
  induction l as [| a l IH]; [reflexivity |].
  cbn [filter nodup].
  destruct (in_dec Z.eq_dec a l) as [Hin | Hout]; destruct (f a) eqn:Ef.
  - cbn [nodup].
    destruct (in_dec Z.eq_dec a (filter f l)) as [_ | Hout]; [exact IH |].
    exfalso. apply Hout. now apply filter_In.
  - exact IH.
  - cbn [nodup filter]. rewrite Ef.
    destruct (in_dec Z.eq_dec a (filter f l)) as [Hin | _].
    + apply filter_In in Hin. tauto.
    + now rewrite IH.
  - cbn [filter]. now rewrite Ef.
Qed.

Lemma filter_clustered_length (l : list Z) :
  (length (filter clustered l) + count (-1) l = length l)%nat.
Proof.
  unfold count. induction l as [| a l IH]; [reflexivity |].
  cbn [filter count_occ]. unfold clustered at 1.
  destruct (Z.eq_dec a (-1)) as [-> | Hne].
  - rewrite Z.eqb_refl. cbn [negb length]. lia.
  - apply Z.eqb_neq in Hne. rewrite Hne. cbn [negb length]. lia.
Qed.

Lemma contains_In (v : Z) (l : list Z) : contains v l = true <-> In v l.
Proof.
  unfold contains. rewrite existsb_exists. split.
  - intros (u & Hu & E). apply Z.eqb_eq in E. now subst u.
  - intros Hv. exists v. split; [exact Hv | apply Z.eqb_refl].
Qed.

Lemma count_nodup (v : Z) (l : list Z) :
  count v (nodup Z.eq_dec l) = if contains v l then 1%nat else 0%nat.
Proof.
  unfold count.
  destruct (contains v l) eqn:E.
  - apply contains_In in E. apply (nodup_In Z.eq_dec) in E.
    apply (NoDup_count_occ' Z.eq_dec); [apply NoDup_nodup | exact E].
  - apply count_occ_not_In. rewrite nodup_In. intros Hin.
    apply contains_In in Hin. congruence.
Qed.

(** The number the scripts report as [n_clusters] is the number of
    distinct labels among the points that are not noise. *)
Lemma clusters_without_noise (labels : list Z) :
  (Z.of_nat (n_distinct labels) - (if contains (-1) labels then 1 else 0))%Z
  = Z.of_nat (n_distinct (select (not_noise labels) labels)).
Proof.
  rewrite select_labels. unfold n_distinct. rewrite nodup_filter.
  pose proof (filter_clustered_length (nodup Z.eq_dec labels)) as Hlen.
  rewrite count_nodup in Hlen.
  destruct (contains (-1) labels); lia.
Qed.

(** What a [metrics] dictionary says about the labels it was made of. *)
Definition consistent (labels : list Z) (m : Metrics) : Prop :=
  labels <> [] /\
  n_total m = Z.of_nat (length labels) /\
  n_noise m = Z.of_nat (count (-1) labels) /\
  (0 <= n_noise m <= n_total m)%Z /\
  n_clusters m = Z.of_nat (n_distinct (select (not_noise labels) labels)) /\
  (0 <= n_clusters m <= n_total m - n_noise m)%Z /\
  pct_clustered m == 100 * (inject_Z (n_total m - n_noise m) / inject_Z (n_total m)) /\
  (0 <= pct_clustered m /\ pct_clustered m <= 100).

Lemma statistics_consistent (scores : option Q * option Q) (labels : list Z)
      (m : Metrics) :
  ClusterRestaurants.cluster_statistics scores labels = Ok m ->
  consistent labels m /\
  m_silhouette_score m = fst scores /\ m_davies_bouldin_index m = snd scores.
Proof.
  unfold ClusterRestaurants.cluster_statistics, py_div.
  destruct (Qeq_bool (inject_Z (Z.of_nat (length labels))) 0) eqn:Ez;
    [discriminate |].
  cbn [bind]. intros E. injection E as <-.
  cbn [m_silhouette_score m_davies_bouldin_index n_total n_noise n_clusters
       pct_clustered].
  assert (Hlen : (0 < Z.of_nat (length labels))%Z).
  { destruct labels as [| l labels]; [discriminate Ez |]. cbn [length]. lia. }
  pose proof (filter_clustered_length labels) as Hsplit.
  assert (Hnoise : (0 <= Z.of_nat (count (-1) labels) <= Z.of_nat (length labels))%Z)
    by lia.
  assert (Hpos : 0 < inject_Z (Z.of_nat (length labels))).
  { change 0 with (inject_Z 0). now rewrite <- Zlt_Qlt. }
  assert (Hpart : 0 <= inject_Z (Z.of_nat (length labels) - Z.of_nat (count (-1) labels))
                  /\ inject_Z (Z.of_nat (length labels) - Z.of_nat (count (-1) labels))
                     <= inject_Z (Z.of_nat (length labels))).
  { change 0 with (inject_Z 0). rewrite <- !Zle_Qle. lia. }
  split; [| split; reflexivity].
  unfold consistent.
  cbn [m_silhouette_score m_davies_bouldin_index n_total n_noise n_clusters
       pct_clustered].
  rewrite clusters_without_noise.
  refine (conj _ (conj eq_refl (conj eq_refl (conj Hnoise (conj eq_refl
            (conj _ (conj _ (conj _ _)))))))).
  - intros ->. discriminate Ez.
  - rewrite select_labels. unfold n_distinct.
    pose proof (NoDup_incl_length (NoDup_nodup Z.eq_dec (filter clustered labels))
                                  (fun x Hx => proj1 (nodup_In Z.eq_dec _ x) Hx)).
    lia.
  - unfold Qdiv. ring.
  - apply Qmult_le_0_compat; [| lra].
    apply Qle_shift_div_l; [exact Hpos | lra].
  - assert (inject_Z (Z.of_nat (length labels) - Z.of_nat (count (-1) labels))
            / inject_Z (Z.of_nat (length labels)) <= 1)
      by (apply Qle_shift_div_r; [exact Hpos | lra]).
    lra.
Qed.

(** X11. Whenever either clustering script returns its metrics, the counts in
    them fit the labels: noise and clusters are counted out of the total,
    the number of clusters is the number of distinct labels that are not
    noise, the clustered share is a percentage, and the two scores are
    there exactly when at least two clusters are. *)
Theorem metrics_fit_labels :
  (forall coords labels m,
      ClusterRestaurants.calculate_validation_metrics coords labels = Ok m ->
      consistent labels m /\
      (m_silhouette_score m <> None <-> (2 <= n_clusters m)%Z) /\
      (m_davies_bouldin_index m <> None <-> (2 <= n_clusters m)%Z))
  /\
  (forall choice coords labels m,
      ClusterTaxi.calculate_validation_metrics choice coords labels = Ok m ->
      consistent labels m /\
      (m_silhouette_score m <> None <-> (2 <= n_clusters m)%Z) /\
      (m_davies_bouldin_index m <> None <-> (2 <= n_clusters m)%Z)).
Proof.
  assert (Hboth : forall labels (scores : result (option Q * option Q)) m,
             (scores <- scores ;; ClusterRestaurants.cluster_statistics scores labels)
             = Ok m ->
             (forall s, scores = Ok s ->
                        (fst s <> None <->
                         (2 <= n_distinct (select (not_noise labels) labels))%nat) /\
                        (snd s <> None <->
                         (2 <= n_distinct (select (not_noise labels) labels))%nat)) ->
             consistent labels m /\
             (m_silhouette_score m <> None <-> (2 <= n_clusters m)%Z) /\
             (m_davies_bouldin_index m <> None <-> (2 <= n_clusters m)%Z)).
  { intros labels [s | e] m Hrun Hscores; [| discriminate].
    cbn [bind] in Hrun.
    destruct (statistics_consistent s labels m Hrun) as (Hcons & -> & ->).
    split; [exact Hcons |].
    destruct Hcons as (_ & _ & _ & _ & -> & _).
    destruct (Hscores s eq_refl) as [Hs Hd]. rewrite Hs, Hd. split; lia. }
  split.
  - intros coords labels m Hrun.
    apply (Hboth labels _ m Hrun). intros s.
    destruct (1 <? n_distinct (select (not_noise labels) labels))%nat eqn:E.
    + apply Nat.ltb_lt in E.
      destruct (silhouette_score _ _); [| discriminate].
      destruct (davies_bouldin_score _ _); [| discriminate].
      cbn [bind]. intros Es. injection Es as <-. cbn [fst snd].
      split; (split; [intros _; lia | discriminate]).
    + apply Nat.ltb_ge in E. intros Es. injection Es as <-. cbn [fst snd].
      split; (split; [congruence | lia]).
  - intros choice coords labels m Hrun.
    apply (Hboth labels _ m Hrun). intros s.
    destruct (1 <? n_distinct (select (not_noise labels) labels))%nat eqn:E.
    + apply Nat.ltb_lt in E. cbv zeta.
      match goal with
      | |- context [silhouette_score ?a ?b] => destruct (silhouette_score a b)
      end; [| discriminate].
      match goal with
      | |- context [davies_bouldin_score ?a ?b] =>
          destruct (davies_bouldin_score a b)
      end; [| discriminate].
      cbn [bind]. intros Es. injection Es as <-. cbn [fst snd].
      split; (split; [intros _; lia | discriminate]).
    + apply Nat.ltb_ge in E. intros Es. injection Es as <-. cbn [fst snd].
      split; (split; [congruence | lia]).
Qed.

End StatisticsProperties.

Section StatisticsExamples.
Import Numpy Scores.

Example metrics_run :
  ClusterRestaurants.calculate_validation_metrics
    [(0, 0); (1, 0); (50, 50); (51, 50); (900, 900)] [0; 0; 1; 1; -1]%Z
  = Ok {| m_silhouette_score := Some (1 # 2);
          m_davies_bouldin_index := Some 1;
          n_clusters := 2; n_noise := 1; n_total := 5;
          pct_clustered := (4 # 5) * 100 |}.
Proof. reflexivity. Qed.

End StatisticsExamples.

(** ** analysis/clustering.py: the object behind [fit] and [validate] *)

Module ClusteringClass.
Import Numpy Clustering.

(** The attributes of an [HDBSCANClustering] that the methods write;
    [validation_scores_] starts as the empty dictionary, here [None]. *)
Record Object : Type := {
  labels_ : option (list Z);
  n_clusters_ : option Z;
  validation_scores_ : option Validation
}.

(** [__init__]. *)
Definition init : Object :=
  {| labels_ := None; n_clusters_ := None; validation_scores_ := None |}.

(** [fit(X)]: the labels it returns and the object it leaves. *)
Definition fit `{Clusterer} (self : Object) (X : list (Q * Q))
  : result (list Z * Object) :=
  labels <- fit_predict X ;;
  Ok (labels,
      {| labels_ := Some labels;
         n_clusters_ :=
           Some (Z.of_nat (n_distinct labels)
                 - (if contains (-1) labels then 1 else 0))%Z;
         validation_scores_ := validation_scores_ self |}).

(** [validate(X, labels)]: the dictionary it returns and the object it
    leaves.  Only the branch with two clusters or more assigns
    [self.validation_scores_]. *)
Definition validate_method `{ClusterMetrics} (self : Object)
           (X : list (Q * Q)) (labels : option (list Z))
  : result (Validation * Object) :=
  let labels := match labels with
                | Some given => Some given
                | None => labels_ self
                end in
  match labels with
  | None => Raise ValueError
  | Some labels =>
      let valid_mask := not_noise labels in
      let X_valid := select valid_mask X in
      let labels_valid := select valid_mask labels in
      let clusters := n_distinct labels_valid in
      let noise := Z.of_nat (length (filter (Z.eqb (-1)) labels)) in
      if (clusters <? 2)%nat then
        Ok ({| v_n_clusters := Z.of_nat clusters;
               v_n_noise := noise;
               v_silhouette_score := None;
               v_davies_bouldin_score := None;
               v_noise_ratio := None |},
            self)
      else
        sil_score <- silhouette_score X_valid labels_valid ;;
        db_score <- davies_bouldin_score X_valid labels_valid ;;
        let scores :=
          {| v_n_clusters := Z.of_nat clusters;
             v_n_noise := noise;
             v_silhouette_score := Some sil_score;
             v_davies_bouldin_score := Some db_score;
             v_noise_ratio :=
               Some (inject_Z noise / inject_Z (Z.of_nat (length labels))) |} in
        Ok (scores,
            {| labels_ := labels_ self;
               n_clusters_ := n_clusters_ self;
               validation_scores_ := Some scores |})
  end.

(** [cluster_restaurants] and [cluster_taxi_dropoffs], on the projected
    coordinates: a fresh object, [fit], then [validate]; the cluster ids
    written to the table and the metrics. *)
Definition cluster_points `{Clusterer} `{ClusterMetrics} (coords : list (Q * Q))
  : result (list Z * Validation) :=
  fitted <- fit init coords ;;
  validated <- validate_method (snd fitted) coords None ;;
  Ok (fst fitted, fst validated).

End ClusteringClass.

Section ClassProperties.
Import Numpy Clustering ClusteringClass.
Context `{Clusterer} `{ClusterMetrics}.

Lemma validate_method_returns (self : Object) (X : list (Q * Q))
      (labels : option (list Z)) :
  match validate_method self X labels with
  | Ok (v, _) => validate (labels_ self) X labels = Ok v
  | Raise e => validate (labels_ self) X labels = Raise e
  end.
Proof.
  unfold validate_method, validate.
  destruct (match labels with Some given => Some given | None => labels_ self end)
    as [ls |]; [| reflexivity].
  destruct (n_distinct (select (not_noise ls) ls) <? 2)%nat; [reflexivity |].
  destruct (silhouette_score _ _); [| reflexivity].
  destruct (davies_bouldin_score _ _); reflexivity.
Qed.

Lemma noise_filter_count (labels : list Z) :
  length (filter (Z.eqb (-1)) labels) = count (-1) labels.
Proof.
  unfold count. induction labels as [| l labels IH]; [reflexivity |].
  cbn [filter count_occ]. destruct (Z.eq_dec l (-1)) as [-> | Hne].
  - rewrite Z.eqb_refl. cbn [length]. now rewrite IH.
  - assert (E : (-1 =? l)%Z = false) by (apply Z.eqb_neq; congruence).
    now rewrite E.
Qed.

(** X12. [validate] needs labels from somewhere: on an object that was never
    fitted and without labels of its own it raises ValueError; after
    [fit] it does not raise for that reason, it validates the fitted
    labels, and the number of clusters it returns is the one [fit]
    stored. *)
Theorem validate_needs_labels (X : list (Q * Q)) :
  validate_method init X None = Raise ValueError
  /\
  (forall self labels fitted,
      fit self X = Ok (labels, fitted) ->
      labels_ fitted = Some labels /\
      validate_method fitted X None = validate_method fitted X (Some labels) /\
      forall v after,
        validate_method fitted X None = Ok (v, after) ->
        Some (v_n_clusters v) = n_clusters_ fitted /\
        v_n_noise v = Z.of_nat (count (-1) labels) /\
        labels_ after = Some labels).
Proof.
  split; [reflexivity |].
  intros self labels fitted Hfit. unfold fit in Hfit.
  destruct (fit_predict X) as [ls |]; [| discriminate].
  cbn [bind] in Hfit. injection Hfit as <- <-. cbn [labels_ n_clusters_].
  split; [reflexivity |]. split; [reflexivity |].
  intros v after.
  cbv beta iota zeta delta [validate_method labels_ n_clusters_ validation_scores_].
  rewrite clusters_without_noise, noise_filter_count.
  destruct (n_distinct (select (not_noise ls) ls) <? 2)%nat.
  - intros E. injection E as <- <-. repeat split.
  - destruct (silhouette_score _ _); [| discriminate].
    destruct (davies_bouldin_score _ _); [| discriminate].
    cbn [bind]. intros E. injection E as <- <-. repeat split.
Qed.

(** X13. The scores kept on the object are those of the last validation that
    found two clusters or more: a validation with fewer clusters returns
    absent scores and leaves the object as it was, older scores
    included. *)
Theorem degraded_validation_keeps_scores (self : Object) (X : list (Q * Q))
        (labels : list Z) :
  (n_distinct (select (not_noise labels) labels) < 2)%nat ->
  exists v,
    validate_method self X (Some labels) = Ok (v, self) /\
    v_silhouette_score v = None /\
    v_davies_bouldin_score v = None /\
    v_noise_ratio v = None /\
    v_n_clusters v = Z.of_nat (n_distinct (select (not_noise labels) labels)).
Proof.
  intros Hfew. unfold validate_method.
  apply Nat.ltb_lt in Hfew. rewrite Hfew.
  eexists. split; [reflexivity |]. repeat split.
Qed.

(** X14. With two clusters or more the returned dictionary is the one stored,
    and its noise ratio is the share of noise points, between 0 and 1. *)
Theorem validation_scores_stored (self after : Object) (X : list (Q * Q))
        (labels : list Z) (v : Validation) :
  (2 <= n_distinct (select (not_noise labels) labels))%nat ->
  validate_method self X (Some labels) = Ok (v, after) ->
  validation_scores_ after = Some v /\
  labels_ after = labels_ self /\
  v_silhouette_score v <> None /\
  v_davies_bouldin_score v <> None /\
  exists ratio,
    v_noise_ratio v = Some ratio /\
    ratio == inject_Z (Z.of_nat (count (-1) labels))
             / inject_Z (Z.of_nat (length labels)) /\
    0 <= ratio /\ ratio < 1.
Proof.
  intros Hmany. unfold validate_method.
  assert (E : (n_distinct (select (not_noise labels) labels) <? 2)%nat = false)
    by (apply Nat.ltb_ge; lia).
  cbv beta iota zeta. rewrite E, noise_filter_count.
  destruct (silhouette_score _ _); [| discriminate].
  destruct (davies_bouldin_score _ _); [| discriminate].
  cbn [bind]. intros Erun. injection Erun as <- <-.
  cbn [validation_scores_ labels_ v_silhouette_score v_davies_bouldin_score
       v_noise_ratio].
  split; [reflexivity |]. split; [reflexivity |].
  split; [discriminate |]. split; [discriminate |].
  eexists. split; [reflexivity |]. split; [reflexivity |].
  pose proof (filter_clustered_length labels) as Hsplit.
  assert (Hclustered : (2 <= length (filter clustered labels))%nat).
  { rewrite select_labels in Hmany. unfold n_distinct in Hmany.
    pose proof (NoDup_incl_length (NoDup_nodup Z.eq_dec (filter clustered labels))
                                  (fun x Hx => proj1 (nodup_In Z.eq_dec _ x) Hx)).
    lia. }
  assert (Hpos : 0 < inject_Z (Z.of_nat (length labels))).
  { change 0 with (inject_Z 0). rewrite <- Zlt_Qlt. lia. }
  split.
  - apply Qle_shift_div_l; [exact Hpos |].
    rewrite Qmult_0_l. change 0 with (inject_Z 0). rewrite <- Zle_Qle. lia.
  - apply Qlt_shift_div_r; [exact Hpos |].
    rewrite Qmult_1_l. rewrite <- Zlt_Qlt. lia.
Qed.

End ClassProperties.

Section ClassExamples.
Import Numpy Clustering ClusteringClass Scores.

Definition earlier_scores : Validation :=
  {| v_n_clusters := 2; v_n_noise := 0;
     v_silhouette_score := Some (1 # 2); v_davies_bouldin_score := Some 1;
     v_noise_ratio := Some 0 |}.

Definition validated_before : Object :=
  {| labels_ := Some [0; 0; 0; 1; 1; 1]%Z; n_clusters_ := Some 2%Z;
     validation_scores_ := Some earlier_scores |}.

Lemma degraded_validation_keeps_scores_witness :
  exists v,
    validate_method validated_before [(0, 0); (1, 1); (9, 9)]
                    (Some [0; 0; -1]%Z) = Ok (v, validated_before) /\
    v_silhouette_score v = None /\
    validation_scores_ validated_before = Some earlier_scores.
Proof.
  destruct (degraded_validation_keeps_scores validated_before
              [(0, 0); (1, 1); (9, 9)] [0; 0; -1]%Z)
    as (v & Hrun & Hsil & _); [cbn; lia |].
  exists v. split; [exact Hrun |]. split; [exact Hsil | reflexivity].
Defined.

Definition six_points : list (Q * Q) :=
  [(0, 0); (1, 0); (0, 1); (50, 50); (51, 50); (900, 900)].

Definition six_labels : list Z := [0; 0; 0; 1; 1; -1]%Z.

Definition six_validation : Validation :=
  {| v_n_clusters := 2; v_n_noise := 1;
     v_silhouette_score := Some (1 # 2); v_davies_bouldin_score := Some 1;
     v_noise_ratio := Some (inject_Z 1 / inject_Z 6) |}.

Lemma validation_scores_stored_witness :
  validate_method init six_points (Some six_labels)
  = Ok (six_validation,
        {| labels_ := None; n_clusters_ := None;
           validation_scores_ := Some six_validation |}) /\
  exists ratio, v_noise_ratio six_validation = Some ratio /\
                0 <= ratio /\ ratio < 1.
Proof.
  split; [reflexivity |].
  destruct (validation_scores_stored init
              {| labels_ := None; n_clusters_ := None;
                 validation_scores_ := Some six_validation |}
              six_points six_labels six_validation)
    as (_ & _ & _ & _ & ratio & Hratio & _ & H0 & H1);
    [cbn; lia | reflexivity |].
  exists ratio. split; [exact Hratio |]. split; [exact H0 | exact H1].
Defined.

End ClassExamples.

(** ** Zones: create_dining_zones and create_hotspot_polygons *)

Module Zones.
Import Numpy SpatialIntersection.

(** shapely, for the zone of a cluster: the convex hull of its points
    ([MultiPoint(...).convex_hull]) and [buffer]. *)
Class Shapes (G : Type) : Type := {
  convex_hull : list (Q * Q) -> G;
  buffer : G -> Q -> G
}.

(** Why no table of zones comes back: the labels do not fit the table
    ([gdf['cluster'] = labels] raises ValueError), or no cluster was
    left to make a zone of.  In the second case the frame is built from
    an empty list and has no column: depending on its version geopandas
    refuses the CRS of a frame without geometry, or the sum over the
    column area_sqkm in the log line that follows raises KeyError. *)
Inductive ZoneError : Type :=
| LengthMismatch
| NoColumns.

(** [sorted(set(labels))]: the distinct labels in increasing order. *)
Definition sorted_set (labels : list Z) : list Z :=
  map fst (unique_counts labels).

(** The cluster ids the loop makes a zone of: [-1] is skipped. *)
Definition cluster_ids (labels : list Z) : list Z :=
  filter (fun cluster_id => negb (cluster_id =? -1)%Z) (sorted_set labels).

(** [gdf[gdf['cluster'] == cluster_id]]. *)
Definition members {A : Type} (cluster_id : Z) (labels : list Z)
           (rows : list A) : list A :=
  map snd (filter (fun lr => (fst lr =? cluster_id)%Z) (combine labels rows)).

(** The values of a column that are not missing. *)
Definition present (col : list (option Q)) : list Q :=
  flat_map (fun v => match v with Some q => [q] | None => [] end) col.

Definition series_sum (col : list Q) : Q := fold_right Qplus 0 col.

(** [Series.mean()]: the mean of the values that are there, missing
    (NaN) when none is. *)
Definition series_mean (col : list (option Q)) : option Q :=
  match present col with
  | [] => None
  | values => Some (series_sum values / inject_Z (Z.of_nat (length values)))
  end.

Section Builders.
Context {G : Type} `{Geometry G} `{Shapes G}.

(** A row of dining_zones.geojson as it is built. *)
Record DiningRow : Type := {
  z_cluster_id : Z;
  z_n_restaurants : Z;
  z_area_sqm : Q;
  z_area_sqkm : Q;
  z_avg_rating : option Q;
  z_geometry : G
}.

(** The body of the loop of [create_dining_zones]. *)
Definition dining_zone (gdf_proj : list MergeRestaurants.Restaurant)
           (labels : list Z) (buffer_distance : Q) (cluster_id : Z)
  : DiningRow :=
  let cluster_restaurants := members cluster_id labels gdf_proj in
  let hull := convex_hull (map MergeRestaurants.coord cluster_restaurants) in
  let zone_polygon := buffer hull buffer_distance in
  {| z_cluster_id := cluster_id;
     z_n_restaurants := Z.of_nat (length cluster_restaurants);
     z_area_sqm := area zone_polygon;
     z_area_sqkm := area zone_polygon / 1000000;
     z_avg_rating :=
       series_mean (map MergeRestaurants.rating cluster_restaurants);
     z_geometry := zone_polygon |}.

Definition create_dining_zones (gdf_proj : list MergeRestaurants.Restaurant)
           (labels : list Z) (buffer_distance : Q)
  : ZoneError + list DiningRow :=
  if negb (length labels =? length gdf_proj)%nat then inl LengthMismatch
  else
    match map (dining_zone gdf_proj labels buffer_distance)
              (cluster_ids labels) with
    | [] => inl NoColumns
    | zones => inr zones
    end.

(** A row of taxi_hotspots.geojson as it is built. *)
Record HotspotRow : Type := {
  h_hotspot_id : Z;
  h_n_dropoffs : Z;
  h_total_weight : Q;
  h_area_sqm : Q;
  h_area_sqkm : Q;
  h_geometry : G
}.

(** The body of the loop of [create_hotspot_polygons], for a table with
    its weight column. *)
Definition hotspot_polygon (df : list ClusterTaxi.Dropoff) (labels : list Z)
           (buffer_distance : Q) (cluster_id : Z) : HotspotRow :=
  let cluster_points := members cluster_id labels df in
  let hull := convex_hull (map ClusterTaxi.coord cluster_points) in
  let hotspot_polygon := buffer hull buffer_distance in
  {| h_hotspot_id := cluster_id;
     h_n_dropoffs := Z.of_nat (length cluster_points);
     h_total_weight := series_sum (map ClusterTaxi.weight cluster_points);
     h_area_sqm := area hotspot_polygon;
     h_area_sqkm := area hotspot_polygon / 1000000;
     h_geometry := hotspot_polygon |}.

Definition create_hotspot_polygons (df : list ClusterTaxi.Dropoff)
           (labels : list Z) (buffer_distance : Q)
  : ZoneError + list HotspotRow :=
  if negb (length labels =? length df)%nat then inl LengthMismatch
  else
    match map (hotspot_polygon df labels buffer_distance)
              (cluster_ids labels) with
    | [] => inl NoColumns
    | hotspots => inr hotspots
    end.

(** The rows as 08_spatial_intersection.py reads them back from the two
    files. *)
Definition as_dining_zone (z : DiningRow) : DiningZone G :=
  {| d_cluster_id := Some (z_cluster_id z);
     d_n_restaurants := Some (z_n_restaurants z);
     d_avg_rating := z_avg_rating z;
     d_geometry := z_geometry z |}.

Definition as_taxi_zone (h : HotspotRow) : TaxiZone G :=
  {| t_hotspot_id := Some (h_hotspot_id h);
     t_n_dropoffs := Some (h_n_dropoffs h);
     t_total_weight := Some (h_total_weight h);
     t_geometry := h_geometry h |}.

End Builders.

Arguments DiningRow G : clear implicits.
Arguments HotspotRow G : clear implicits.

End Zones.

Section ZoneProperties.
Import Numpy SpatialIntersection Zones.

Lemma tally_positive (v : Z) (table : list (Z * nat)) :
  Forall (fun e => (0 < snd e)%nat) table ->
  Forall (fun e => (0 < snd e)%nat) (tally v table).
Proof.
  induction table as [| [k n] rest IH]; cbn [tally]; intros Hall.
  - repeat constructor.
  - inversion Hall as [| ? ? Hn Hrest]; subst.
    destruct (v <? k)%Z; [| destruct (v =? k)%Z].
    + constructor; [cbn; lia | exact Hall].
    + constructor; [cbn; lia | exact Hrest].
    + constructor; [exact Hn | now apply IH].
Qed.

Lemma unique_counts_positive (labels : list Z) :
  Forall (fun e => (0 < snd e)%nat) (unique_counts labels).
Proof.
  unfold unique_counts. induction labels as [| l labels IH]; cbn [fold_right].
  - constructor.
  - now apply tally_positive.
Qed.

Lemma sorted_set_In (labels : list Z) (k : Z) :
  In k (sorted_set labels) <-> In k labels.
Proof.
  unfold sorted_set. split.
  - intros Hk. apply in_map_iff in Hk. destruct Hk as ([k' n] & <- & He).
    pose proof (sorted_total_entry _ _ _ (unique_counts_sorted labels) He) as Ht.
    rewrite unique_counts_total in Ht.
    pose proof (unique_counts_positive labels) as Hpos.
    rewrite Forall_forall in Hpos. specialize (Hpos _ He). cbn [snd fst] in *.
    apply (count_occ_In Z.eq_dec). unfold count in Ht. lia.
  - intros Hk. apply (count_occ_In Z.eq_dec) in Hk.
    destruct (total_pos_entry (unique_counts labels) k) as (n & Hn).
    { rewrite unique_counts_total. exact Hk. }
    apply in_map_iff. now exists (k, n).
Qed.

Lemma sorted_filter (f : Z -> bool) (keys : list Z) :
  StronglySorted Z.lt keys -> StronglySorted Z.lt (filter f keys).
Proof.
  induction 1 as [| k keys Hs IH Hall]; cbn [filter]; [constructor |].
  destruct (f k); [| exact IH].
  constructor; [exact IH |].
  apply Forall_forall. intros j Hj. apply filter_In in Hj.
  rewrite Forall_forall in Hall. now apply Hall.
Qed.

Lemma sorted_NoDup (keys : list Z) : StronglySorted Z.lt keys -> NoDup keys.
Proof.
  induction 1 as [| k keys Hs IH Hall]; constructor; [| exact IH].
  intros Hk. rewrite Forall_forall in Hall. specialize (Hall k Hk). lia.
Qed.

Lemma cluster_ids_sorted (labels : list Z) :
  StronglySorted Z.lt (cluster_ids labels).
Proof.
  apply sorted_filter. apply unique_counts_sorted.
Qed.

Lemma cluster_ids_In (labels : list Z) (k : Z) :
  In k (cluster_ids labels) <-> In k labels /\ k <> (-1)%Z.
Proof.
  unfold cluster_ids. rewrite filter_In, sorted_set_In, negb_true_iff, Z.eqb_neq.
  tauto.
Qed.

Lemma cluster_ids_length (labels : list Z) :
  length (cluster_ids labels) = n_distinct (select (not_noise labels) labels).
Proof.
  rewrite select_labels. unfold n_distinct.
  apply Nat.le_antisymm.
  - apply NoDup_incl_length; [apply sorted_NoDup, cluster_ids_sorted |].
    intros k Hk. apply cluster_ids_In in Hk. apply nodup_In, filter_In.
    split; [tauto |]. unfold clustered. now rewrite negb_true_iff, Z.eqb_neq.
  - apply NoDup_incl_length; [apply NoDup_nodup |].
    intros k Hk. apply nodup_In, filter_In in Hk. apply cluster_ids_In.
    split; [tauto |]. destruct Hk as [_ Hk]. unfold clustered in Hk.
    now rewrite negb_true_iff, Z.eqb_neq in Hk.
Qed.

Lemma members_length {A : Type} (k : Z) (labels : list Z) :
  forall rows : list A,
    length labels = length rows ->
    length (members k labels rows) = count k labels.
Proof.
  unfold members, count.
  induction labels as [| l labels IH]; intros [| r rows] Hlen;
    try discriminate; [reflexivity |].
  cbn [combine filter fst count_occ].
  destruct (Z.eq_dec l k) as [-> | Hne].
  - rewrite Z.eqb_refl. cbn [map length]. f_equal. apply IH. now injection Hlen.
  - apply Z.eqb_neq in Hne. rewrite Hne. apply IH. now injection Hlen.
Qed.

(** Of the rows of a table, those whose label is one of [ks]. *)
Definition labelled_in {A : Type} (ks : list Z) (labels : list Z)
           (rows : list A) : list A :=
  map snd (filter (fun lr => existsb (Z.eqb (fst lr)) ks) (combine labels rows)).

Lemma existsb_once (l : Z) (ks : list Z) :
  NoDup ks ->
  fold_right Z.add 0%Z (map (fun k => if (l =? k)%Z then 1%Z else 0%Z) ks)
  = if existsb (Z.eqb l) ks then 1%Z else 0%Z.
Proof.
  induction 1 as [| k ks Hk Hks IH]; [reflexivity |].
  cbn [map fold_right existsb]. rewrite IH.
  destruct (l =? k)%Z eqn:E; cbn [orb]; [| lia].
  apply Z.eqb_eq in E. subst k.
  assert (Hno : existsb (Z.eqb l) ks = false).
  { destruct (existsb (Z.eqb l) ks) eqn:Ex; [| reflexivity].
    apply existsb_exists in Ex. destruct Ex as (j & Hj & Ej).
    apply Z.eqb_eq in Ej. subst j. contradiction. }
  now rewrite Hno.
Qed.

Lemma members_counts {A : Type} (ks : list Z) (labels : list Z) :
  NoDup ks ->
  forall rows : list A,
    fold_right Z.add 0%Z
               (map (fun k => Z.of_nat (length (members k labels rows))) ks)
    = Z.of_nat (length (labelled_in ks labels rows)).
Proof.
  intros Hks. unfold members, labelled_in.
  induction labels as [| l labels IH]; intros rows.
  - cbn [combine filter map length]. induction ks; [reflexivity |].
    cbn [map fold_right]. inversion Hks; subst. rewrite IHks by assumption.
    reflexivity.
  - destruct rows as [| r rows].
    + cbn [combine filter map length]. clear IH. induction ks; [reflexivity |].
      cbn [map fold_right]. inversion Hks; subst. rewrite IHks by assumption.
      reflexivity.
    + cbn [combine filter fst].
      specialize (IH rows).
      assert (Hstep : forall js,
                 fold_right Z.add 0%Z
                   (map (fun k => Z.of_nat (length (map snd
                      (if (l =? k)%Z
                       then (l, r) :: filter (fun lr => (fst lr =? k)%Z) (combine labels rows)
                       else filter (fun lr => (fst lr =? k)%Z) (combine labels rows))))) js)
                 = (fold_right Z.add 0%Z
                      (map (fun k => if (l =? k)%Z then 1%Z else 0%Z) js)
                    + fold_right Z.add 0%Z
                        (map (fun k => Z.of_nat (length (map snd
                           (filter (fun lr => (fst lr =? k)%Z) (combine labels rows))))) js))%Z).
      { induction js as [| j js IHjs]; [reflexivity |].
        cbn [map fold_right]. rewrite IHjs.
        destruct (l =? j)%Z; cbn [map length]; lia. }
      rewrite Hstep, IH, (existsb_once l ks Hks).
      destruct (existsb (Z.eqb l) ks); cbn [map length]; lia.
Qed.

Lemma series_sum_app (l1 l2 : list Q) :
  series_sum (l1 ++ l2) == series_sum l1 + series_sum l2.
Proof.
  unfold series_sum. induction l1 as [| v l1 IH]; cbn [app fold_right].
  - ring.
  - rewrite IH. ring.
Qed.

Lemma series_sum_cons (v : Q) (l : list Q) :
  series_sum (v :: l) = v + series_sum l.
Proof. reflexivity. Qed.

Lemma series_sum_map_ext {B : Type} (g h : B -> Q) (ks : list B) :
  (forall k, g k == h k) ->
  series_sum (map g ks) == series_sum (map h ks).
Proof.
  intros Hgh. induction ks as [| k ks IH]; [reflexivity |].
  cbn [map]. rewrite !series_sum_cons, IH, (Hgh k). reflexivity.
Qed.

Lemma series_sum_map_plus {B : Type} (g h : B -> Q) (ks : list B) :
  series_sum (map (fun k => g k + h k) ks)
  == series_sum (map g ks) + series_sum (map h ks).
Proof.
  induction ks as [| k ks IH]; [reflexivity |].
  cbn [map]. rewrite !series_sum_cons, IH. ring.
Qed.

Lemma indicator_once (l : Z) (x : Q) (ks : list Z) :
  NoDup ks ->
  series_sum (map (fun k => if (l =? k)%Z then x else 0) ks)
  == if existsb (Z.eqb l) ks then x else 0.
Proof.
  induction 1 as [| k ks Hk Hks IH]; [reflexivity |].
  cbn [map existsb]. rewrite series_sum_cons, IH.
  destruct (l =? k)%Z eqn:E; cbn [orb]; [| ring].
  apply Z.eqb_eq in E. subst k.
  assert (Hno : existsb (Z.eqb l) ks = false).
  { destruct (existsb (Z.eqb l) ks) eqn:Ex; [| reflexivity].
    apply existsb_exists in Ex. destruct Ex as (j & Hj & Ej).
    apply Z.eqb_eq in Ej. subst j. contradiction. }
  rewrite Hno. ring.
Qed.

Lemma members_weights {A : Type} (f : A -> Q) (ks : list Z) (labels : list Z) :
  NoDup ks ->
  forall rows : list A,
    series_sum (map (fun k => series_sum (map f (members k labels rows))) ks)
    == series_sum (map f (labelled_in ks labels rows)).
Proof.
  intros Hks. unfold members, labelled_in.
  assert (Hzero : forall js : list Z,
             series_sum (map (fun _ => series_sum (map f (@nil A))) js) == 0).
  { induction js as [| j js IHjs]; [reflexivity |].
    cbn [map]. rewrite series_sum_cons. cbn [map] in IHjs. rewrite IHjs.
    reflexivity. }
  induction labels as [| l labels IH]; intros rows.
  - cbn [combine filter map]. apply Hzero.
  - destruct rows as [| r rows]; [cbn [combine filter map]; apply Hzero |].
    cbn [combine filter fst].
    transitivity
      (series_sum
         (map (fun k => (if (l =? k)%Z then f r else 0)
                        + series_sum (map f (map snd
                            (filter (fun lr => (fst lr =? k)%Z)
                                    (combine labels rows))))) ks)).
    { apply series_sum_map_ext. intros k.
      destruct (l =? k)%Z; cbn [map snd].
      - now rewrite series_sum_cons.
      - ring. }
    rewrite series_sum_map_plus, (indicator_once l (f r) ks Hks), (IH rows).
    destruct (existsb (Z.eqb l) ks); cbn [map snd].
    + now rewrite series_sum_cons.
    + ring.
Qed.

Lemma labelled_in_clusters {A : Type} (labels : list Z) (rows : list A) :
  length rows = length labels ->
  labelled_in (cluster_ids labels) labels rows = select (not_noise labels) rows.
Proof.
  intros Hlen. rewrite (select_not_noise labels rows Hlen). unfold labelled_in.
  f_equal. apply filter_ext_in. intros [l r] Hlr. cbn [fst].
  apply in_combine_l in Hlr. unfold clustered.
  destruct (existsb (Z.eqb l) (cluster_ids labels)) eqn:E.
  - apply existsb_exists in E. destruct E as (k & Hk & Ek).
    apply Z.eqb_eq in Ek. subst k. apply cluster_ids_In in Hk.
    symmetry. apply negb_true_iff, Z.eqb_neq. tauto.
  - destruct (Z.eq_dec l (-1)) as [-> | Hne]; [reflexivity |].
    assert (existsb (Z.eqb l) (cluster_ids labels) = true); [| congruence].
    apply existsb_exists. exists l. split; [| apply Z.eqb_refl].
    apply cluster_ids_In. tauto.
Qed.

End ZoneProperties.

Section ZoneTheorems.
Import Numpy SpatialIntersection Zones.
Context {G : Type} `{Geometry G} `{Shapes G}.

Lemma cluster_ids_nonempty (labels : list Z) :
  (exists l, In l labels /\ l <> (-1)%Z) -> cluster_ids labels <> [].
Proof.
  intros (l & Hl & Hne) E.
  assert (Hin : In l (cluster_ids labels)) by (apply cluster_ids_In; tauto).
  rewrite E in Hin. destruct Hin.
Qed.

(** X15. One dining zone per cluster.  For labels that fit the table and
    leave at least one point out of the noise, [create_dining_zones]
    returns the zones in increasing order of cluster id, one for each
    label that is not noise and none for -1, as many as the metrics
    count clusters.  Every zone has at least one restaurant, and the
    restaurants of the zones together are the points that are not
    noise: no point is counted twice or left out.  The zones, read back
    by the intersection script, carry no negative count. *)
Theorem dining_zones_cover_clusters
        (gdf_proj : list MergeRestaurants.Restaurant) (labels : list Z)
        (buffer_distance : Q) :
  length labels = length gdf_proj ->
  (exists l, In l labels /\ l <> (-1)%Z) ->
  exists zones,
    create_dining_zones gdf_proj labels buffer_distance = inr zones /\
    StronglySorted Z.lt (map z_cluster_id zones) /\
    (forall k, In k (map z_cluster_id zones) <-> In k labels /\ k <> (-1)%Z) /\
    length zones = n_distinct (select (not_noise labels) labels) /\
    (forall z, In z zones ->
               z_n_restaurants z = Z.of_nat (count (z_cluster_id z) labels) /\
               (1 <= z_n_restaurants z)%Z) /\
    fold_right Z.add 0%Z (map z_n_restaurants zones)
    = Z.of_nat (length (select (not_noise labels) gdf_proj)) /\
    Forall sound_dining (map as_dining_zone zones).
Proof.
  intros Hlen Hsome. unfold create_dining_zones.
  rewrite Hlen, Nat.eqb_refl. cbn [negb].
  set (zones := map (dining_zone gdf_proj labels buffer_distance)
                    (cluster_ids labels)).
  assert (Hids : map z_cluster_id zones = cluster_ids labels).
  { unfold zones. rewrite map_map. cbn. apply map_id. }
  assert (Hz : forall z, In z zones ->
                         z_n_restaurants z = Z.of_nat (count (z_cluster_id z) labels) /\
                         (1 <= z_n_restaurants z)%Z).
  { intros z Hin. apply in_map_iff in Hin. destruct Hin as (k & <- & Hk).
    cbn [dining_zone z_n_restaurants z_cluster_id].
    rewrite (members_length k labels gdf_proj Hlen). split; [reflexivity |].
    apply cluster_ids_In in Hk. destruct Hk as [Hk _].
    apply (count_occ_In Z.eq_dec) in Hk. unfold count. lia. }
  exists zones. split.
  { pose proof (cluster_ids_nonempty labels Hsome) as Hne.
    destruct zones eqn:E; [| reflexivity].
    apply (f_equal (@length _)) in E. unfold zones in E.
    rewrite length_map in E. destruct (cluster_ids labels); [congruence | discriminate]. }
  split; [rewrite Hids; apply cluster_ids_sorted |].
  split; [intros k; rewrite Hids; apply cluster_ids_In |].
  split; [rewrite <- (length_map z_cluster_id), Hids; apply cluster_ids_length |].
  split; [exact Hz |]. split.
  - unfold zones. rewrite map_map. cbn [dining_zone z_n_restaurants].
    rewrite (members_counts (cluster_ids labels) labels
               (sorted_NoDup _ (cluster_ids_sorted labels)) gdf_proj).
    now rewrite labelled_in_clusters.
  - apply Forall_forall. intros a Ha. apply in_map_iff in Ha.
    destruct Ha as (z & <- & Hin). unfold sound_dining. cbn.
    destruct (Hz z Hin) as [_ Hone]. lia.
Qed.

(** X16. One taxi hotspot per cluster, in the same way, with the weights:
    the total weights of the hotspots add up to the weight of the
    drop-offs that are not noise, and are not negative when no weight
    is. *)
Theorem taxi_hotspots_cover_clusters
        (df : list ClusterTaxi.Dropoff) (labels : list Z) (buffer_distance : Q) :
  length labels = length df ->
  (exists l, In l labels /\ l <> (-1)%Z) ->
  exists hotspots,
    create_hotspot_polygons df labels buffer_distance = inr hotspots /\
    StronglySorted Z.lt (map h_hotspot_id hotspots) /\
    (forall k, In k (map h_hotspot_id hotspots) <-> In k labels /\ k <> (-1)%Z) /\
    length hotspots = n_distinct (select (not_noise labels) labels) /\
    (forall h, In h hotspots ->
               h_n_dropoffs h = Z.of_nat (count (h_hotspot_id h) labels) /\
               (1 <= h_n_dropoffs h)%Z) /\
    fold_right Z.add 0%Z (map h_n_dropoffs hotspots)
    = Z.of_nat (length (select (not_noise labels) df)) /\
    series_sum (map h_total_weight hotspots)
    == series_sum (map ClusterTaxi.weight (select (not_noise labels) df)) /\
    (Forall (fun row => 0 <= ClusterTaxi.weight row) df ->
     Forall sound_taxi (map as_taxi_zone hotspots)).
Proof.
  intros Hlen Hsome. unfold create_hotspot_polygons.
  rewrite Hlen, Nat.eqb_refl. cbn [negb].
  set (hotspots := map (hotspot_polygon df labels buffer_distance)
                       (cluster_ids labels)).
  assert (Hids : map h_hotspot_id hotspots = cluster_ids labels).
  { unfold hotspots. rewrite map_map. cbn. apply map_id. }
  exists hotspots. split.
  { pose proof (cluster_ids_nonempty labels Hsome) as Hne.
    destruct hotspots eqn:E; [| reflexivity].
    apply (f_equal (@length _)) in E. unfold hotspots in E.
    rewrite length_map in E. destruct (cluster_ids labels); [congruence | discriminate]. }
  split; [rewrite Hids; apply cluster_ids_sorted |].
  split; [intros k; rewrite Hids; apply cluster_ids_In |].
  split; [rewrite <- (length_map h_hotspot_id), Hids; apply cluster_ids_length |].
  split; [| split; [| split]].
  - intros h Hin. apply in_map_iff in Hin. destruct Hin as (k & <- & Hk).
    cbn [hotspot_polygon h_n_dropoffs h_hotspot_id].
    rewrite (members_length k labels df Hlen). split; [reflexivity |].
    apply cluster_ids_In in Hk. destruct Hk as [Hk _].
    apply (count_occ_In Z.eq_dec) in Hk. unfold count. lia.
  - unfold hotspots. rewrite map_map. cbn [hotspot_polygon h_n_dropoffs].
    rewrite (members_counts (cluster_ids labels) labels
               (sorted_NoDup _ (cluster_ids_sorted labels)) df).
    now rewrite labelled_in_clusters.
  - unfold hotspots. rewrite map_map. cbn [hotspot_polygon h_total_weight].
    rewrite (members_weights ClusterTaxi.weight (cluster_ids labels) labels
               (sorted_NoDup _ (cluster_ids_sorted labels)) df).
    now rewrite labelled_in_clusters.
  - intros Hweights. rewrite Forall_forall in Hweights.
    apply Forall_forall. intros b Hb. apply in_map_iff in Hb.
    destruct Hb as (h & <- & Hin). unfold sound_taxi. cbn.
    apply in_map_iff in Hin. destruct Hin as (k & <- & _).
    cbn [hotspot_polygon h_total_weight].
    assert (Hmem : forall row, In row (members k labels df) -> In row df).
    { unfold members. intros row Hrow. apply in_map_iff in Hrow.
      destruct Hrow as ([l r] & <- & Hlr). apply filter_In in Hlr.
      destruct Hlr as [Hlr _]. now apply in_combine_r in Hlr. }
    induction (members k labels df) as [| row rest IH]; [apply Qle_refl |].
    cbn [map]. rewrite series_sum_cons.
    assert (0 <= ClusterTaxi.weight row) by (apply Hweights, Hmem; now left).
    assert (0 <= series_sum (map ClusterTaxi.weight rest))
      by (apply IH; intros r Hr; apply Hmem; now right).
    lra.
Qed.

(** X17. When no zone can be made.  Labels that do not fit the table stop
    both builders at the assignment of the cluster column; labels that
    are all noise, or a table without rows, leave them with a frame
    without columns, which is not returned either. *)
Theorem zones_need_a_cluster (labels : list Z) (buffer_distance : Q) :
  (forall gdf_proj,
      length labels <> length gdf_proj ->
      create_dining_zones gdf_proj labels buffer_distance = inl LengthMismatch)
  /\
  (forall df,
      length labels <> length df ->
      create_hotspot_polygons df labels buffer_distance = inl LengthMismatch)
  /\
  (Forall (fun l => l = (-1)%Z) labels ->
   (forall gdf_proj,
       length labels = length gdf_proj ->
       create_dining_zones gdf_proj labels buffer_distance = inl NoColumns) /\
   (forall df,
       length labels = length df ->
       create_hotspot_polygons df labels buffer_distance = inl NoColumns)).
Proof.
  split; [| split].
  - intros gdf_proj Hne. unfold create_dining_zones.
    apply Nat.eqb_neq in Hne. now rewrite Hne.
  - intros df Hne. unfold create_hotspot_polygons.
    apply Nat.eqb_neq in Hne. now rewrite Hne.
  - intros Hnoise.
    assert (Hids : cluster_ids labels = []).
    { destruct (cluster_ids labels) as [| k ks] eqn:E; [reflexivity | exfalso].
      assert (Hk : In k (cluster_ids labels)) by (rewrite E; now left).
      apply cluster_ids_In in Hk. destruct Hk as [Hk Hne].
      rewrite Forall_forall in Hnoise. now apply Hne, Hnoise. }
    split.
    + intros gdf_proj Hlen. unfold create_dining_zones.
      now rewrite Hlen, Nat.eqb_refl, Hids.
    + intros df Hlen. unfold create_hotspot_polygons.
      now rewrite Hlen, Nat.eqb_refl, Hids.
Qed.

End ZoneTheorems.

Module BoxShapes.
Import SpatialIntersection Boxes Zones.

(** The smallest grid box around some points; the box of no point is
    empty. *)
Definition bounding_box (points : list (Q * Q)) : Box :=
  match points with
  | [] => {| x_min := 0; x_max := -1; y_min := 0; y_max := -1 |}
  | p :: rest =>
      fold_left (fun b q => {| x_min := Z.min (x_min b) (Qfloor (fst q));
                               x_max := Z.max (x_max b) (Qceiling (fst q));
                               y_min := Z.min (y_min b) (Qfloor (snd q));
                               y_max := Z.max (y_max b) (Qceiling (snd q)) |})
                rest
                {| x_min := Qfloor (fst p); x_max := Qceiling (fst p);
                   y_min := Qfloor (snd p); y_max := Qceiling (snd p) |}
  end.

(** A box widened on every side. *)
Definition widen (b : Box) (distance : Q) : Box :=
  if box_is_empty b then b
  else {| x_min := x_min b - Qceiling distance;
          x_max := x_max b + Qceiling distance;
          y_min := y_min b - Qceiling distance;
          y_max := y_max b + Qceiling distance |}.

(** Boxes in place of hulls: the box around the points stands for their
    convex hull, the widened box for the buffered hull. *)
#[export] Instance box_shapes : Shapes Box := {
  convex_hull := bounding_box;
  buffer := widen
}.

Definition five_restaurants : list MergeRestaurants.Restaurant :=
  [Names.google "Joe's Pizza" 0 0; Names.google "Corner Deli" 30 40;
   Names.osm "Noodle Bar" 5000 5000; Names.google "Taqueria" 900 900;
   Names.osm "Bistro" 950 920].

Definition five_labels : list Z := [3; 3; -1; 8; 8]%Z.

Definition four_dropoffs : list ClusterTaxi.Dropoff :=
  [{| ClusterTaxi.coord := (10, 10); ClusterTaxi.weight := 1.5 |};
   {| ClusterTaxi.coord := (20, 30); ClusterTaxi.weight := 0.3 |};
   {| ClusterTaxi.coord := (4000, 100); ClusterTaxi.weight := 1 |};
   {| ClusterTaxi.coord := (25, 15); ClusterTaxi.weight := 1.2 |}].

Definition four_labels : list Z := [0; 0; -1; 0]%Z.

End BoxShapes.

Section ZoneExamples.
Import Numpy SpatialIntersection Boxes Zones BoxShapes.

Example dining_zones_run :
  match create_dining_zones five_restaurants five_labels 100 with
  | inr zones => map (fun z => (z_cluster_id z, z_n_restaurants z,
                                option_map Qred (z_avg_rating z),
                                z_geometry z)) zones
  | inl _ => []
  end
  = [(3%Z, 2%Z, Some (9 # 2),
      {| x_min := -100; x_max := 130; y_min := -100; y_max := 140 |});
     (8%Z, 2%Z, Some (9 # 2),
      {| x_min := 800; x_max := 1050; y_min := 800; y_max := 1020 |})].
Proof. vm_compute. reflexivity. Qed.

Lemma five_labels_clustered : exists l, In l five_labels /\ l <> (-1)%Z.
Proof. exists 3%Z. split; [now left | discriminate]. Defined.

Lemma four_labels_clustered : exists l, In l four_labels /\ l <> (-1)%Z.
Proof. exists 0%Z. split; [now left | discriminate]. Defined.

Lemma dining_zones_cover_clusters_witness :
  exists zones,
    create_dining_zones five_restaurants five_labels 100 = inr zones /\
    map z_cluster_id zones = [3; 8]%Z /\
    fold_right Z.add 0%Z (map z_n_restaurants zones) = 4%Z.
Proof.
  destruct (dining_zones_cover_clusters (G := Box) five_restaurants five_labels
              100 eq_refl five_labels_clustered)
    as (zones & Hrun & _ & _ & _ & _ & Hsum & _).
  exists zones. split; [exact Hrun |]. split; [| exact Hsum].
  vm_compute in Hrun. injection Hrun as <-. reflexivity.
Defined.

Lemma taxi_hotspots_cover_clusters_witness :
  exists hotspots,
    create_hotspot_polygons four_dropoffs four_labels 150 = inr hotspots /\
    series_sum (map h_total_weight hotspots) == 3 /\
    fold_right Z.add 0%Z (map h_n_dropoffs hotspots) = 3%Z.
Proof.
  destruct (taxi_hotspots_cover_clusters (G := Box) four_dropoffs four_labels
              150 eq_refl four_labels_clustered)
    as (hotspots & Hrun & _ & _ & _ & _ & Hcount & Hweight & _).
  exists hotspots. split; [exact Hrun |]. split; [| exact Hcount].
  rewrite Hweight. vm_compute. reflexivity.
Defined.

End ZoneExamples.

(** ** Deduplication: what the thresholds and the order do *)

Section DeduplicateMore.
Import MergeRestaurants.
Context `{NameSimilarity} `{KDTree} `{!KDTreeLaws}.
Variables (primary : list Restaurant) (thr : Q) (nthr : Z).

Lemma filter_all {A : Type} (f : A -> bool) (l : list A) :
  (forall a, In a l -> f a = true) -> filter f l = l.
Proof.
  induction l as [| a l IH]; intros Hall; [reflexivity |].
  cbn [filter]. rewrite (Hall a (or_introl eq_refl)). f_equal.
  apply IH. intros b Hb. apply Hall. now right.
Qed.

(** The rows of the secondary table that a merge keeps. *)
Definition kept_rows (secondary : list Restaurant) : list Restaurant :=
  filter (fun r => negb (is_duplicate primary thr nthr r)) secondary.

(** X18. The secondary rows are judged one by one against the primary
    table alone.  So, on a primary table with rows, the merge of a
    secondary table cut in two is the merge of the first part followed
    by the rows kept of the second, rows keep their order, and merging
    again what a merge kept of the secondary table drops nothing more;
    rows of the secondary table are never compared with each other. *)
Theorem merge_row_by_row (s1 s2 : list Restaurant) :
  primary <> [] ->
  exists merged1 merged2,
    deduplicate_restaurants primary thr nthr s1 = Ok merged1 /\
    deduplicate_restaurants primary thr nthr s2 = Ok merged2 /\
    deduplicate_restaurants primary thr nthr (s1 ++ s2)
    = Ok (merged1 ++ skipn (length primary) merged2) /\
    deduplicate_restaurants primary thr nthr (skipn (length primary) merged1)
    = Ok merged1 /\
    (forall row,
        In (length s1 + row)%nat
           (duplicates_from primary thr nthr 0 (s1 ++ s2))
        <-> In row (duplicates_from primary thr nthr 0 s2)).
Proof.
  intros Hrows.
  exists (primary ++ kept_rows s1), (primary ++ kept_rows s2).
  assert (Hskip : forall s, skipn (length primary) (primary ++ kept_rows s)
                            = kept_rows s).
  { intros s. now rewrite skipn_app, Nat.sub_diag, skipn_all. }
  rewrite !Hskip, !(deduplicate_restaurants_filter _ _ _ _ Hrows).
  fold (kept_rows s1) (kept_rows s2) (kept_rows (s1 ++ s2))
       (kept_rows (kept_rows s1)).
  refine (conj eq_refl (conj eq_refl (conj _ (conj _ _)))).
  - unfold kept_rows. now rewrite filter_app, app_assoc.
  - do 2 f_equal. unfold kept_rows at 1. apply filter_all.
    intros r Hr. apply filter_In in Hr. tauto.
  - intros row. rewrite !duplicates_from_positions. cbn [Nat.add]. split.
    + intros (k & r & E & Hk & Hd). exists row, r.
      assert (Hrow : k = (length s1 + row)%nat) by lia. subst k.
      rewrite nth_error_app2 in Hk by lia.
      replace (length s1 + row - length s1)%nat with row in Hk by lia.
      now repeat split.
    + intros (k & r & E & Hk & Hd). subst k.
      exists (length s1 + row)%nat, r. repeat split; [| exact Hd].
      rewrite nth_error_app2 by lia.
      now replace (length s1 + row - length s1)%nat with row by lia.
Qed.

(** X19. Thresholds that switch the merge off, on a primary table with
    rows.  A distance threshold of 0 or less, or a name threshold above
    every similarity score, marks no row: the output is the two tables
    one after the other. *)
Theorem merge_switched_off (secondary : list Restaurant) :
  primary <> [] ->
  (thr <= 0 ->
   deduplicate_restaurants primary thr nthr secondary
   = Ok (primary ++ secondary))
  /\
  ((forall a b, (fuzz_ratio a b < nthr)%Z) ->
   deduplicate_restaurants primary thr nthr secondary
   = Ok (primary ++ secondary)).
Proof.
  intros Hrows.
  assert (Hnone : (forall r, is_duplicate primary thr nthr r = false) ->
                  deduplicate_restaurants primary thr nthr secondary
                  = Ok (primary ++ secondary)).
  { intros Hno. rewrite (deduplicate_restaurants_filter _ _ _ _ Hrows).
    do 2 f_equal. apply filter_all. intros r _. now rewrite Hno. }
  split.
  - intros Hthr. apply Hnone. intros r.
    destruct (consulted_neighbour primary thr nthr r Hrows)
      as (idx1 & row1 & _ & _ & Hiff).
    destruct (is_duplicate primary thr nthr r); [| reflexivity].
    destruct (proj1 Hiff eq_refl) as [Hlt _].
    pose proof (@tree_distance_nonneg _ _ (coord row1) (coord r)). lra.
  - intros Hlow. apply Hnone. intros r.
    destruct (consulted_neighbour primary thr nthr r Hrows)
      as (idx1 & row1 & _ & _ & Hiff).
    destruct (is_duplicate primary thr nthr r); [| reflexivity].
    destruct (proj1 Hiff eq_refl) as [_ Hsim].
    specialize (Hlow (lower (name row1)) (lower (name r))). lia.
Qed.

End DeduplicateMore.

Section DeduplicateMoreExamples.
Import MergeRestaurants Names.

Lemma one_primary_row : [google "Joe's Pizza" 0 0] <> [].
Proof. discriminate. Qed.

Lemma merge_row_by_row_witness :
  exists merged1 merged2,
    deduplicate_restaurants [google "Joe's Pizza" 0 0] 50 80
                            [osm "Joe's Pizza" 10 0] = Ok merged1 /\
    deduplicate_restaurants [google "Joe's Pizza" 0 0] 50 80
                            [osm "Joe's Pizza" 200 0] = Ok merged2 /\
    deduplicate_restaurants [google "Joe's Pizza" 0 0] 50 80
                            [osm "Joe's Pizza" 10 0; osm "Joe's Pizza" 200 0]
    = Ok (merged1 ++ skipn 1 merged2).
Proof.
  destruct (@merge_row_by_row exact_names scan_index
              [google "Joe's Pizza" 0 0] 50 80
              [osm "Joe's Pizza" 10 0] [osm "Joe's Pizza" 200 0]
              one_primary_row)
    as (merged1 & merged2 & H1 & H2 & H12 & _).
  exists merged1, merged2. split; [exact H1 |]. split; [exact H2 | exact H12].
Defined.

Lemma merge_switched_off_witness :
  deduplicate_restaurants [google "Joe's Pizza" 0 0] 0 80
                          [osm "Joe's Pizza" 10 0; osm "Joe's Pizza" 200 0]
  = Ok [google "Joe's Pizza" 0 0;
        osm "Joe's Pizza" 10 0; osm "Joe's Pizza" 200 0].
Proof.
  apply (proj1 (@merge_switched_off exact_names scan_index scan_index_laws
                  [google "Joe's Pizza" 0 0] 0 80
                  [osm "Joe's Pizza" 10 0; osm "Joe's Pizza" 200 0]
                  one_primary_row)).
  discriminate.
Defined.

End DeduplicateMoreExamples.

(** * What is done with the ranking *)

(** ** pandas' orderings

    [sort_values], [nlargest] and [head] of pandas.  The first two are
    not code of the repository: they enter as an interface that returns
    the positions of the rows in their new order, with the laws pandas
    documents.  How rows of equal value are ordered is left to the
    implementation. *)

Module Frames.

(** A column read at a position. *)
Definition at_position (col : list Q) (p : nat) : Q := nth p col 0.

(** Position [p] may stand before position [q] in a descending order. *)
Definition descending (col : list Q) (p q : nat) : Prop :=
  at_position col q <= at_position col p.

(** [head(n)] is [iloc[:n]]: the first [n] rows, and for a negative [n]
    all rows but the last [-n]. *)
Definition head {A : Type} (n : Z) (rows : list A) : list A :=
  if (0 <=? n)%Z then firstn (Z.to_nat n) rows
  else firstn (length rows - Z.to_nat (- n)) rows.

Class Ordering : Type := {
  (** [sort_values(column, ascending=False)] *)
  sort_values : list Q -> list nat;
  (** [nlargest(n, column)] *)
  nlargest : nat -> list Q -> list nat
}.

Class OrderingLaws `{Ordering} : Prop := {
  (** every row once *)
  sort_values_rows :
    forall col, NoDup (sort_values col) /\
                forall p, In p (sort_values col) <-> (p < length col)%nat;
  sort_values_order :
    forall col, StronglySorted (descending col) (sort_values col);
  (** [n] rows, or all of them, no row twice *)
  nlargest_rows :
    forall n col, NoDup (nlargest n col) /\
                  forall p, In p (nlargest n col) -> (p < length col)%nat;
  nlargest_length :
    forall n col, length (nlargest n col) = Nat.min n (length col);
  nlargest_order :
    forall n col, StronglySorted (descending col) (nlargest n col);
  (** no row left out has a larger value than a row selected *)
  nlargest_cut :
    forall n col p q,
      In p (nlargest n col) -> (q < length col)%nat ->
      ~ In q (nlargest n col) -> descending col p q
}.

End Frames.

(** ** 08_spatial_intersection.py: the top of the table in the summary *)

Module SaveOutputs.
Import SpatialIntersection Numpy Frames.

Section Top.
Context {G : Type} `{Geometry G} `{Ordering}.

(** An entry of [analysis['top_hotspots']], without the two coordinates
    of the centroid, which come from the projection library. *)
Record TopEntry : Type := {
  e_rank : Z;
  e_popularity_score : Q;
  e_n_restaurants : Z;
  e_n_taxi_dropoffs : Z;
  e_area_sqkm : Q;
  e_avg_rating : option Q
}.

Definition top_entry (row : Hotspot G) : TopEntry :=
  {| e_rank := rank row;
     e_popularity_score := popularity_score row;
     e_n_restaurants := n_restaurants (candidate row);
     e_n_taxi_dropoffs := n_taxi_dropoffs (candidate row);
     e_area_sqkm := intersection_area_sqm (candidate row) / 1000000;
     e_avg_rating := avg_rating (candidate row) |}.

(** [gdf_hotspots.nlargest(10, 'popularity_score')], the rows the loop
    over [top_10.iterrows()] visits. *)
Definition top_10 (gdf_hotspots : list (Hotspot G)) : list (Hotspot G) :=
  take gdf_hotspots (nlargest 10 (map (@popularity_score G) gdf_hotspots)).

(** The list under ['top_hotspots']: empty for a table without rows. *)
Definition top_hotspots (gdf_hotspots : list (Hotspot G)) : list TopEntry :=
  if (0 <? length gdf_hotspots)%nat then map top_entry (top_10 gdf_hotspots)
  else [].

End Top.

Arguments TopEntry : clear implicits.

End SaveOutputs.

(** ** app.py: the recommendations near a point *)

Module App.
Import SpatialIntersection Numpy Frames.
Set Implicit Arguments.

(** [user_point_proj.distance(hotspot.geometry.centroid)], in metres, for
    the longitude and latitude of the request: shapely and the projection
    library. *)
Class Locator (G : Type) : Type := {
  distance : Q -> Q -> G -> Q
}.

Class LocatorLaws (G : Type) `{Locator G} : Prop := {
  distance_nonneg : forall lon lat g, 0 <= distance lon lat g
}.

Arguments LocatorLaws G {_}.

(** The body of the request: [data.get(key)] is [None] for a key that is
    absent. *)
Record Query : Type := {
  user_lat : option Q;
  user_lon : option Q;
  max_distance_km : option Q;
  limit : option Z
}.

Section Recommend.
Context {G : Type} `{Geometry G} `{Locator G} `{Ordering}.

(** A row of [hotspots_nearby] with the three columns the view adds. *)
Record Recommendation : Type := {
  hotspot : Hotspot G;
  distance_km : Q;
  accessibility_score : Q;
  recommendation_score : Q
}.

Inductive Response : Type :=
| NoData                      (** 500, no table loaded *)
| MissingLatLon               (** 400 *)
| Unhandled                   (** an exception leaves the view *)
| NoneFound (search_radius_km : Q)
| Found (search_radius_km : Q) (total_found : nat)
        (recommendations : list Recommendation).

Definition accessibility (max_dist d : Q) : Q :=
  if Qlt_le_dec 0 max_dist then 100 * (1 - d / max_dist) else 100.

(** The two scores of the rows within reach. *)
Definition score_nearby (hotspots_nearby : list (Hotspot G * Q))
  : list Recommendation :=
  let max_dist := series_max 0 (map snd hotspots_nearby) in
  map (fun row =>
         let a := accessibility max_dist (snd row) in
         {| hotspot := fst row;
            distance_km := snd row;
            accessibility_score := a;
            recommendation_score :=
              0.6 * popularity_score (fst row) + 0.4 * a |})
      hotspots_nearby.

(** The rows with their distance, and those of them within reach. *)
Definition with_distance (lon lat : Q) (table : list (Hotspot G))
  : list (Hotspot G * Q) :=
  map (fun h => (h, distance lon lat (geometry (candidate h)) / 1000)) table.

Definition nearby (max_distance : Q) (rows : list (Hotspot G * Q))
  : list (Hotspot G * Q) :=
  filter (fun row => Qle_bool (snd row) max_distance) rows.

(** The view.  A table without rows gives a frame of distances without
    columns, and reading its column ['distance_km'] raises. *)
Definition get_recommendations (hotspots_data : option (list (Hotspot G)))
           (data : Query) : Response :=
  match hotspots_data with
  | None => NoData
  | Some table =>
      let max_distance := get (max_distance_km data) 2.0 in
      let lim := get (limit data) 10%Z in
      match user_lat data, user_lon data with
      | Some lat, Some lon =>
          match table with
          | [] => Unhandled
          | _ :: _ =>
              let hotspots_nearby :=
                nearby max_distance (with_distance lon lat table) in
              if (length hotspots_nearby =? 0)%nat then NoneFound max_distance
              else
                let scored := score_nearby hotspots_nearby in
                let sorted :=
                  take scored
                       (sort_values (map recommendation_score scored)) in
                let recommendations := head lim sorted in
                Found max_distance (length recommendations) recommendations
          end
      | _, _ => MissingLatLon
      end
  end.

End Recommend.

Arguments Recommendation G : clear implicits.
Arguments Response G : clear implicits.
Arguments NoData {G}.
Arguments MissingLatLon {G}.
Arguments Unhandled {G}.
Arguments NoneFound {G} search_radius_km.
Arguments Found {G} search_radius_km total_found recommendations.
Unset Implicit Arguments.

End App.

(** ** run_pipeline.py: the phases one after the other *)

Module RunPipeline.

Record Phase : Type := {
  script : string;
  phase_name : string;
  description : string
}.

Definition phases : list Phase :=
  [{| script := "src/data_processing/02_process_taxi_data.py";
      phase_name := "Phase 2: Taxi Data Processing";
      description :=
        "Filter taxi data to dining hours and apply temporal weights" |};
   {| script := "src/data_processing/02_merge_restaurants.py";
      phase_name := "Phase 3: Restaurant Data Merging";
      description :=
        "Merge Google Maps and OSM restaurants, remove duplicates" |};
   {| script := "src/data_processing/06_cluster_restaurants.py";
      phase_name := "Phase 6: Restaurant Clustering";
      description := "Apply HDBSCAN to identify dining zones" |};
   {| script := "src/data_processing/07_cluster_taxi_dropoffs.py";
      phase_name := "Phase 7: Taxi Clustering";
      description := "Apply HDBSCAN to identify taxi hotspots" |};
   {| script := "src/data_processing/08_spatial_intersection.py";
      phase_name := "Phase 8: Spatial Intersection";
      description := "Identify final dining hotspots from intersection" |}]%string.

(** How a run ends: [sys.exit(1)], or the summary with its verdict. *)
Inductive Outcome : Type :=
| SysExit (code : Z) (results : list (string * bool))
| Summary (results : list (string * bool)) (all_success : bool).

Section Run.

(** The world outside: does the script, started after the scripts in
    [launched], leave with exit code 0?  And what [check_prerequisites]
    finds on the disk. *)
Variable exits_cleanly : list string -> string -> bool.
Variable path_exists : string -> bool.
Variable dir_has_entries : string -> bool.

(** [subprocess.run(..., check=True)] raises [CalledProcessError] on a
    non-zero exit code, which [run_script] turns into [False]. *)
Definition run_script (launched : list string) (script_path : string) : bool :=
  exits_cleanly launched script_path.

Definition required_files : list string :=
  ["config/config.yaml"; "data/external/boundaries/nybb.shp"]%string.

Definition required_dirs : list string :=
  ["data/raw/taxi"; "data/raw/restaurants"]%string.

Definition missing : list string :=
  (flat_map (fun file_path =>
               if negb (path_exists file_path)
               then [("File: " ++ file_path)%string] else [])
            required_files
   ++
   flat_map (fun dir_path =>
               if negb (path_exists dir_path)
               then [("Directory: " ++ dir_path)%string]
               else if negb (dir_has_entries dir_path)
                    then [("Directory (empty): " ++ dir_path)%string]
                    else [])
            required_dirs)%list.

Definition check_prerequisites : bool :=
  match missing with
  | [] => true
  | _ :: _ => false
  end.

(** The loop over the phases: [launched] are the scripts started so far,
    [results] what has been recorded of them. *)
Fixpoint execute (todo : list Phase) (launched : list string)
         (results : list (string * bool)) : Outcome * list string :=
  match todo with
  | [] => (Summary results (forallb snd results), launched)
  | phase :: rest =>
      let success := run_script launched (script phase) in
      let launched' := (launched ++ [script phase])%list in
      let results' := (results ++ [(phase_name phase, success)])%list in
      if negb success then (SysExit 1 results', launched')
      else execute rest launched' results'
  end.

(** [main], for a list of phases: the outcome and the scripts started. *)
Definition main_with (todo : list Phase) : Outcome * list string :=
  if negb check_prerequisites then (SysExit 1 [], [])
  else execute todo [] [].

Definition main : Outcome * list string := main_with phases.

End Run.

End RunPipeline.

(** A stable insertion sort as the ordering, to run the code on. *)

Module StableSort.
Import Frames.

(** [p] goes before the first position whose value is not larger. *)
Fixpoint insert_descending (col : list Q) (p : nat) (sorted : list nat)
  : list nat :=
  match sorted with
  | [] => [p]
  | q :: rest =>
      if Qle_bool (at_position col q) (at_position col p)
      then p :: q :: rest
      else q :: insert_descending col p rest
  end.

Definition sort_positions (col : list Q) (positions : list nat) : list nat :=
  fold_right (insert_descending col) [] positions.

#[export] Instance stable_ordering : Ordering := {
  sort_values col := sort_positions col (seq 0 (length col));
  nlargest n col := firstn n (sort_positions col (seq 0 (length col)))
}.

End StableSort.

Section OrderingProperties.
Import Numpy Frames StableSort.

Lemma take_In {A : Type} (a : list A) (indices : list nat) (v : A) :
  In v (take a indices) <->
  exists p, In p indices /\ nth_error a p = Some v.
Proof.
  unfold take. rewrite in_flat_map. split.
  - intros (p & Hp & Hv). exists p. split; [exact Hp |].
    destruct (nth_error a p) as [w |]; [| destruct Hv].
    destruct Hv as [<- | []]. reflexivity.
  - intros (p & Hp & E). exists p. split; [exact Hp |].
    rewrite E. now left.
Qed.

Lemma take_in_range {A : Type} (a : list A) (d : A) (indices : list nat) :
  (forall p, In p indices -> (p < length a)%nat) ->
  take a indices = map (fun p => nth p a d) indices.
Proof.
  unfold take. induction indices as [| p indices IH]; intros Hin;
    [reflexivity |].
  cbn [flat_map map].
  rewrite IH by (intros q Hq; apply Hin; now right).
  assert (Hp : (p < length a)%nat) by (apply Hin; now left).
  destruct (nth_error a p) as [v |] eqn:E.
  - now rewrite (nth_error_nth a p d E).
  - apply nth_error_None in E. lia.
Qed.

Lemma take_length {A : Type} (a : list A) (indices : list nat) :
  (forall p, In p indices -> (p < length a)%nat) ->
  length (take a indices) = length indices.
Proof.
  destruct a as [| d a'].
  - destruct indices as [| p indices]; [reflexivity |].
    intros Hin. specialize (Hin p (or_introl eq_refl)). cbn in Hin. lia.
  - intros Hin. rewrite (take_in_range (d :: a') d indices Hin).
    apply length_map.
Qed.

Lemma sorted_map {A B : Type} (R : A -> A -> Prop) (R' : B -> B -> Prop)
      (f : A -> B) (l : list A) :
  (forall p q, In p l -> In q l -> R p q -> R' (f p) (f q)) ->
  StronglySorted R l -> StronglySorted R' (map f l).
Proof.
  induction l as [| a l IH]; intros Hf Hs; [constructor |].
  apply StronglySorted_inv in Hs. destruct Hs as [Hs Hall].
  cbn [map]. constructor.
  - apply IH; [| exact Hs]. intros p q Hp Hq. apply Hf; now right.
  - rewrite Forall_forall in *. intros b Hb. apply in_map_iff in Hb.
    destruct Hb as (q & <- & Hq). apply Hf; [now left | now right |].
    now apply Hall.
Qed.

Lemma sorted_app_cross {A : Type} (R : A -> A -> Prop) (l1 l2 : list A) :
  StronglySorted R (l1 ++ l2) ->
  StronglySorted R l1 /\ forall a b, In a l1 -> In b l2 -> R a b.
Proof.
  induction l1 as [| x l1 IH]; cbn [app]; intros Hs.
  - split; [constructor | intros a b []].
  - apply StronglySorted_inv in Hs. destruct Hs as [Hs Hall].
    destruct (IH Hs) as [Hs1 Hcross]. rewrite Forall_forall in Hall. split.
    + constructor; [exact Hs1 |]. apply Forall_forall. intros b Hb.
      apply Hall, in_or_app. now left.
    + intros a b [<- | Ha] Hb; [| now apply Hcross].
      apply Hall, in_or_app. now right.
Qed.

Lemma sorted_first {A : Type} (R : A -> A -> Prop) (a : A) (l : list A) :
  StronglySorted R (a :: l) -> forall b, In b l -> R a b.
Proof.
  intros Hs. apply StronglySorted_inv in Hs. destruct Hs as [_ Hall].
  now rewrite Forall_forall in Hall.
Qed.

Lemma at_position_map {A : Type} (f : A -> Q) (l : list A) (p : nat) (v : A) :
  nth_error l p = Some v -> at_position (map f l) p = f v.
Proof.
  intros E. unfold at_position.
  rewrite (nth_error_nth (map f l) p 0 (map_nth_error f p l E)). reflexivity.
Qed.

Lemma head_length_le {A : Type} (n : Z) (rows : list A) :
  (length (head n rows) <= length rows)%nat /\
  ((0 <= n)%Z -> length (head n rows) = Nat.min (Z.to_nat n) (length rows)) /\
  ((n < 0)%Z -> length (head n rows) = (length rows - Z.to_nat (- n))%nat).
Proof.
  unfold head. destruct (0 <=? n)%Z eqn:E; rewrite length_firstn.
  - apply Z.leb_le in E. repeat split; lia.
  - apply Z.leb_gt in E. repeat split; lia.
Qed.

Lemma firstn_incl {A : Type} (n : nat) (l : list A) (v : A) :
  In v (firstn n l) -> In v l.
Proof.
  intros Hv. rewrite <- (firstn_skipn n l). apply in_or_app. now left.
Qed.

Lemma head_incl {A : Type} (n : Z) (rows : list A) (v : A) :
  In v (head n rows) -> In v rows.
Proof.
  unfold head. destruct (0 <=? n)%Z; apply firstn_incl.
Qed.

Lemma head_sorted {A : Type} (R : A -> A -> Prop) (n : Z) (rows : list A) :
  StronglySorted R rows -> StronglySorted R (head n rows).
Proof.
  intros Hs. unfold head.
  destruct (0 <=? n)%Z.
  - rewrite <- (firstn_skipn (Z.to_nat n) rows) in Hs.
    now apply sorted_app_cross in Hs.
  - rewrite <- (firstn_skipn (length rows - Z.to_nat (- n)) rows) in Hs.
    now apply sorted_app_cross in Hs.
Qed.

(** The insertion sort. *)

Lemma insert_descending_In (col : list Q) (p : nat) (l : list nat) (x : nat) :
  In x (insert_descending col p l) <-> x = p \/ In x l.
Proof.
  induction l as [| q l IH]; cbn [insert_descending].
  - cbn. intuition congruence.
  - destruct (Qle_bool (at_position col q) (at_position col p)).
    + cbn [In]. intuition congruence.
    + cbn [In]. rewrite IH. tauto.
Qed.

Lemma insert_descending_NoDup (col : list Q) (p : nat) (l : list nat) :
  ~ In p l -> NoDup l -> NoDup (insert_descending col p l).
Proof.
  induction l as [| q l IH]; cbn [insert_descending]; intros Hp Hl.
  - constructor; [intros [] | constructor].
  - destruct (Qle_bool (at_position col q) (at_position col p)).
    + now constructor.
    + apply NoDup_cons_iff in Hl. destruct Hl as [Hq Hl]. constructor.
      * rewrite insert_descending_In. intros [-> | Hin]; [| contradiction].
        apply Hp. now left.
      * apply IH; [| exact Hl]. intros Hin. apply Hp. now right.
Qed.

Lemma insert_descending_sorted (col : list Q) (p : nat) (l : list nat) :
  StronglySorted (descending col) l ->
  StronglySorted (descending col) (insert_descending col p l).
Proof.
  induction l as [| q l IH]; cbn [insert_descending]; intros Hs.
  - repeat constructor.
  - destruct (Qle_bool (at_position col q) (at_position col p)) eqn:E.
    + constructor; [exact Hs |].
      apply Qle_bool_iff in E. constructor; [exact E |].
      apply Forall_forall. intros x Hx.
      pose proof (sorted_first _ _ _ Hs x Hx) as Hqx.
      unfold descending in *. lra.
    + assert (Hlt : at_position col p < at_position col q).
      { apply Qnot_le_lt. intros Hle. apply Qle_bool_iff in Hle. congruence. }
      pose proof (sorted_first _ _ _ Hs) as Hq.
      apply StronglySorted_inv in Hs. destruct Hs as [Hs _].
      constructor; [now apply IH |].
      apply Forall_forall. intros x Hx. apply insert_descending_In in Hx.
      destruct Hx as [-> | Hx]; [| now apply Hq].
      unfold descending. lra.
Qed.

Lemma sort_positions_In (col : list Q) (positions : list nat) (x : nat) :
  In x (sort_positions col positions) <-> In x positions.
Proof.
  unfold sort_positions.
  induction positions as [| p positions IH]; cbn [fold_right]; [tauto |].
  rewrite insert_descending_In, IH. cbn [In]. intuition congruence.
Qed.

Lemma sort_positions_NoDup (col : list Q) (positions : list nat) :
  NoDup positions -> NoDup (sort_positions col positions).
Proof.
  induction positions as [| p positions IH]; intros Hnd; [constructor |].
  apply NoDup_cons_iff in Hnd. destruct Hnd as [Hp Hnd].
  cbn [sort_positions fold_right]. apply insert_descending_NoDup.
  - fold (sort_positions col positions). now rewrite sort_positions_In.
  - now apply IH.
Qed.

Lemma sort_positions_sorted (col : list Q) (positions : list nat) :
  StronglySorted (descending col) (sort_positions col positions).
Proof.
  induction positions as [| p positions IH]; [constructor |].
  cbn [sort_positions fold_right]. now apply insert_descending_sorted.
Qed.

#[export] Instance stable_ordering_laws : OrderingLaws.
Proof.
  constructor; cbn [sort_values nlargest stable_ordering].
  - intros col. split; [apply sort_positions_NoDup, seq_NoDup |].
    intros p. rewrite sort_positions_In, in_seq. lia.
  - intros col. apply sort_positions_sorted.
  - intros n col.
    set (l := sort_positions col (seq 0 (length col))).
    assert (Hnd : NoDup l) by apply sort_positions_NoDup, seq_NoDup.
    split.
    + rewrite <- (firstn_skipn n l) in Hnd.
      now apply NoDup_app_remove_r in Hnd.
    + intros p Hp. apply firstn_incl in Hp. unfold l in Hp.
      rewrite sort_positions_In, in_seq in Hp. lia.
  - intros n col. rewrite length_firstn.
    assert (E : length (sort_positions col (seq 0 (length col))) = length col).
    { pose proof (sort_positions_NoDup col _ (seq_NoDup (length col) 0)) as Hnd.
      assert (E1 : (length (sort_positions col (seq 0 (length col)))
                    <= length (seq 0 (length col)))%nat).
      { apply NoDup_incl_length; [exact Hnd |].
        intros x Hx. now apply sort_positions_In in Hx. }
      assert (E2 : (length (seq 0 (length col))
                    <= length (sort_positions col (seq 0 (length col))))%nat).
      { apply NoDup_incl_length; [apply seq_NoDup |].
        intros x Hx. now apply sort_positions_In. }
      rewrite length_seq in E1, E2. lia. }
    now rewrite E.
  - intros n col.
    pose proof (sort_positions_sorted col (seq 0 (length col))) as Hs.
    rewrite <- (firstn_skipn n (sort_positions _ _)) in Hs.
    now apply sorted_app_cross in Hs.
  - intros n col p q Hp Hq Hout.
    pose proof (sort_positions_sorted col (seq 0 (length col))) as Hs.
    rewrite <- (firstn_skipn n (sort_positions _ _)) in Hs.
    apply sorted_app_cross in Hs.
    destruct Hs as [_ Hcross]. apply Hcross; [exact Hp |].
    assert (Hin : In q (sort_positions col (seq 0 (length col)))).
    { rewrite sort_positions_In, in_seq. lia. }
    rewrite <- (firstn_skipn n (sort_positions _ _)) in Hin.
    apply in_app_or in Hin.
    destruct Hin as [Hin | Hin]; [contradiction | exact Hin].
Qed.

End OrderingProperties.

(** ** The top of the table *)

Section TopProperties.
Import SpatialIntersection Numpy Frames SaveOutputs.
Context {G : Type} `{Geometry G} `{Ordering} `{!OrderingLaws}.

Lemma filter_none {A : Type} (f : A -> bool) (l : list A) :
  (forall a, In a l -> f a = false) -> filter f l = [].
Proof.
  induction l as [| a l IH]; intros Hall; [reflexivity |].
  cbn [filter]. rewrite (Hall a (or_introl eq_refl)).
  apply IH. intros b Hb. apply Hall. now right.
Qed.

Lemma dense_rank_top (col : list Q) (v : Q) :
  (forall u, In u col -> u <= v) -> dense_rank col v = 1%Z.
Proof.
  intros Hmax. unfold dense_rank. rewrite filter_none; [reflexivity |].
  intros u Hu. apply negb_false_iff, Qle_bool_iff. now apply Hmax.
Qed.

Lemma rank_follows_score (cs : list (Candidate G)) (h1 h2 : Hotspot G) :
  In h1 (calculate_composite_scores cs) ->
  In h2 (calculate_composite_scores cs) ->
  popularity_score h2 <= popularity_score h1 ->
  (rank h1 <= rank h2)%Z.
Proof.
  intros Hh1 Hh2 Hle.
  rewrite (scored_rank G cs h1 Hh1), (scored_rank G cs h2 Hh2).
  set (col := map (@popularity_score G) (calculate_composite_scores cs)).
  destruct (Qlt_le_dec (popularity_score h2) (popularity_score h1))
    as [Hlt | Hge].
  - assert (Hin1 : In (popularity_score h1) col) by now apply in_map.
    pose proof (dense_rank_lower col _ _ Hin1 Hlt). lia.
  - assert (E : popularity_score h1 == popularity_score h2) by lra.
    rewrite (dense_rank_tie col _ _ E). lia.
Qed.

Lemma nth_error_in_range {A : Type} (l : list A) (d : A) (p : nat) :
  (p < length l)%nat -> nth_error l p = Some (nth p l d).
Proof.
  intros Hp. destruct (nth_error l p) as [v |] eqn:E.
  - now rewrite (nth_error_nth l p d E).
  - apply nth_error_None in E. lia.
Qed.

(** X20. The list of the summary against the ranking.  Over an ordering that
    keeps the laws, the list under ['top_hotspots'] of a scored table has
    ten entries, or as many as the table has rows; its entries are rows
    of the table, their ranks do not decrease down the list and the
    first one has rank 1; no row left out ranks better than a row
    listed; and a table of at most ten rows is listed whole. *)
Theorem top_hotspots_lead_the_ranking (cs : list (Candidate G)) :
  let gdf_hotspots := calculate_composite_scores cs in
  length (top_hotspots gdf_hotspots) = Nat.min 10 (length cs) /\
  (forall e, In e (top_hotspots gdf_hotspots) ->
             exists row, In row gdf_hotspots /\ e = top_entry row) /\
  StronglySorted Z.le (map e_rank (top_hotspots gdf_hotspots)) /\
  (cs <> [] -> exists e rest,
      top_hotspots gdf_hotspots = e :: rest /\ e_rank e = 1%Z) /\
  (forall row row', In row (top_10 gdf_hotspots) ->
                    In row' gdf_hotspots ->
                    ~ In row' (top_10 gdf_hotspots) ->
                    (rank row <= rank row')%Z) /\
  ((length cs <= 10)%nat ->
   forall row, In row gdf_hotspots ->
               In (top_entry row) (top_hotspots gdf_hotspots)).
Proof.
  intros hs.
  assert (Hscored : hs = calculate_composite_scores cs) by reflexivity.
  clearbody hs.
  assert (Hlen : length hs = length cs)
    by (rewrite Hscored; exact (scored_length G cs)).
  assert (Hmono : forall r1 r2 : Hotspot G,
             In r1 hs -> In r2 hs ->
             popularity_score r2 <= popularity_score r1 ->
             (rank r1 <= rank r2)%Z).
  { rewrite Hscored. exact (rank_follows_score cs). }
  assert (Hrk : forall r : Hotspot G,
             In r hs ->
             rank r = dense_rank (map (@popularity_score G) hs)
                                 (popularity_score r)).
  { rewrite Hscored. intros r Hr. exact (scored_rank G cs r Hr). }
  clear Hscored.
  set (col := map (@popularity_score G) hs) in *.
  set (chosen := nlargest 10 col).
  assert (Hcol : length col = length hs) by apply length_map.
  destruct (nlargest_rows 10 col) as [Hnodup Hrange].
  fold chosen in Hnodup, Hrange. rewrite Hcol in Hrange.
  pose proof (nlargest_length 10 col) as Hsize. fold chosen in Hsize.
  pose proof (nlargest_order 10 col) as Hsorted. fold chosen in Hsorted.
  pose proof (nlargest_cut 10 col) as Hcut. fold chosen in Hcut.
  assert (Hval : forall p row, nth_error hs p = Some row ->
                               at_position col p = popularity_score row).
  { intros p row E. now apply at_position_map. }
  assert (Hcross : forall row row',
             In row (top_10 hs) -> In row' hs -> ~ In row' (top_10 hs) ->
             (rank row <= rank row')%Z).
  { intros row row' Hrow Hrow' Hout. unfold top_10 in Hrow, Hout.
    fold col chosen in Hrow, Hout.
    apply take_In in Hrow. destruct Hrow as (p & Hp & Ep).
    destruct (In_nth_error _ _ Hrow') as (q & Eq).
    assert (Hq : ~ In q chosen).
    { intros Hq. apply Hout, take_In. now exists q. }
    assert (Hql : (q < length col)%nat).
    { rewrite Hcol. apply nth_error_Some. congruence. }
    pose proof (Hcut p q Hp Hql Hq) as Hd. unfold descending in Hd.
    rewrite (Hval _ _ Ep), (Hval _ _ Eq) in Hd.
    apply Hmono; [now apply (nth_error_In _ _ Ep) | exact Hrow' | exact Hd]. }
  unfold top_hotspots.
  destruct (0 <? length hs)%nat eqn:Hpos.
  2: { apply Nat.ltb_ge in Hpos.
       assert (Hnone : forall row : Hotspot G, ~ In row hs).
       { destruct hs; [intros row [] | cbn in Hpos; lia]. }
       refine (conj _ (conj _ (conj _ (conj _ (conj Hcross _))))).
       - cbn [length]. lia.
       - intros e [].
       - constructor.
       - intros Hcs. destruct cs; [congruence | cbn in Hlen; lia].
       - intros _ row Hrow. now apply Hnone in Hrow. }
  apply Nat.ltb_lt in Hpos.
  assert (d : Hotspot G).
  { destruct hs as [| d tl]; [cbn in Hpos; lia | exact d]. }
  unfold top_10. fold col chosen.
  rewrite (take_in_range hs d chosen Hrange).
  assert (Hrank : forall p q, In p chosen -> In q chosen ->
                              descending col p q ->
                              (rank (nth p hs d) <= rank (nth q hs d))%Z).
  { intros p q Hp Hq Hd. unfold descending in Hd.
    pose proof (nth_error_in_range hs d p (Hrange p Hp)) as Ep.
    pose proof (nth_error_in_range hs d q (Hrange q Hq)) as Eq.
    rewrite (Hval _ _ Ep), (Hval _ _ Eq) in Hd.
    apply Hmono;
      [now apply (nth_error_In _ _ Ep) | now apply (nth_error_In _ _ Eq)
       | exact Hd]. }
  refine (conj _ (conj _ (conj _ (conj _ (conj _ _)))));
    [| | | | rewrite <- (take_in_range hs d chosen Hrange); exact Hcross |].
  - rewrite !length_map, Hsize, Hcol. now rewrite Hlen.
  - intros e He. apply in_map_iff in He. destruct He as (row & <- & Hrow).
    apply in_map_iff in Hrow. destruct Hrow as (p & <- & Hp).
    exists (nth p hs d). split; [| reflexivity].
    apply nth_In. now apply Hrange.
  - rewrite !map_map.
    apply (sorted_map (descending col) Z.le
                      (fun p => e_rank (top_entry (nth p hs d))) chosen);
      [| exact Hsorted].
    intros p q Hp Hq Hd. cbn [e_rank top_entry]. now apply Hrank.
  - intros _.
    destruct chosen as [| p0 rest] eqn:Echosen.
    { cbn [length] in Hsize. rewrite Hcol in Hsize. lia. }
    cbn [map]. eexists. eexists. split; [reflexivity |].
    cbn [e_rank top_entry].
    assert (Hp0 : (p0 < length hs)%nat) by (apply Hrange; now left).
    pose proof (nth_error_in_range hs d p0 Hp0) as E0.
    rewrite (Hrk (nth p0 hs d) (nth_error_In _ _ E0)).
    apply dense_rank_top. intros u Hu.
    destruct (In_nth_error _ _ Hu) as (q & Eq).
    assert (Hql : (q < length col)%nat).
    { apply nth_error_Some. congruence. }
    assert (Eu : at_position col q = u).
    { unfold at_position. now apply nth_error_nth. }
    rewrite <- Eu, <- (Hval _ _ E0).
    destruct (in_dec Nat.eq_dec q (p0 :: rest)) as [[<- | Hq] | Hq].
    + apply Qle_refl.
    + exact (sorted_first _ _ _ Hsorted q Hq).
    + apply (Hcut p0 q); [now left | exact Hql | exact Hq].
  - intros Hsmall row Hrow. apply in_map.
    destruct (In_nth_error _ _ Hrow) as (q & Eq).
    assert (Hq : (q < length hs)%nat) by (apply nth_error_Some; congruence).
    assert (Hall : incl (seq 0 (length hs)) chosen).
    { apply NoDup_length_incl; [exact Hnodup | |].
      - rewrite length_seq, Hsize, Hcol. lia.
      - intros p Hp. apply in_seq. specialize (Hrange p Hp). lia. }
    apply in_map_iff. exists q. split.
    + now rewrite (nth_error_nth hs q d Eq).
    + apply Hall, in_seq. lia.
Qed.

End TopProperties.

(** ** The recommendations *)

Section RecommendProperties.
Import SpatialIntersection Numpy Frames App.
Context {G : Type} `{Geometry G} `{Locator G} `{!LocatorLaws G}
        `{Ordering} `{!OrderingLaws}.

Lemma accessibility_bounds (max_dist d : Q) :
  0 <= d -> d <= max_dist ->
  0 <= accessibility max_dist d /\ accessibility max_dist d <= 100.
Proof.
  intros Hd Hmax. unfold accessibility.
  destruct (Qlt_le_dec 0 max_dist) as [Hpos | _]; [| lra].
  assert (Hlo : 0 <= d / max_dist) by (apply Qle_shift_div_l; lra).
  assert (Hhi : d / max_dist <= 1) by (apply Qle_shift_div_r; lra).
  generalize dependent (d / max_dist). intros share Hlo Hhi. lra.
Qed.

Lemma score_nearby_In (rows : list (Hotspot G * Q)) (rec : Recommendation G) :
  In rec (score_nearby rows) <->
  exists row,
    In row rows /\
    rec = {| hotspot := fst row;
             distance_km := snd row;
             accessibility_score :=
               accessibility (series_max 0 (map snd rows)) (snd row);
             recommendation_score :=
               0.6 * popularity_score (fst row)
               + 0.4 * accessibility (series_max 0 (map snd rows)) (snd row) |}.
Proof.
  unfold score_nearby. cbv zeta. rewrite in_map_iff.
  split; intros (row & A & B); exists row.
  - now split.
  - now split.
Qed.

Lemma sort_values_length (col : list Q) :
  length (sort_values col) = length col.
Proof.
  destruct (sort_values_rows col) as [Hnd Hin].
  assert (E1 : (length (sort_values col) <= length (seq 0 (length col)))%nat).
  { apply NoDup_incl_length; [exact Hnd |].
    intros p Hp. apply in_seq. apply Hin in Hp. lia. }
  assert (E2 : (length (seq 0 (length col)) <= length (sort_values col))%nat).
  { apply NoDup_incl_length; [apply seq_NoDup |].
    intros p Hp. apply Hin. apply in_seq in Hp. lia. }
  rewrite length_seq in E1, E2. lia.
Qed.

Lemma head_length_eq {A B : Type} (n : Z) (l1 : list A) (l2 : list B) :
  length l1 = length l2 -> length (head n l1) = length (head n l2).
Proof.
  intros E. unfold head. destruct (0 <=? n)%Z; rewrite !length_firstn; lia.
Qed.

(** X21. The answer to a request that names a point, over a table with rows.
    Either no row is within the radius and the answer says so, or the
    answer lists rows of the table within the radius, by recommendation
    score downwards, as many as [head(limit)] leaves of the rows in
    reach; the accessibility score of each lies in [0, 100], and so does
    the recommendation score when the popularity score does. *)
Theorem recommendations_within_reach
        (table : list (Hotspot G)) (data : Query) (lat lon : Q) :
  user_lat data = Some lat ->
  user_lon data = Some lon ->
  table <> [] ->
  let radius := get (max_distance_km data) 2.0 in
  let reach := nearby radius (with_distance lon lat table) in
  match get_recommendations (Some table) data with
  | NoneFound r => r = radius /\ reach = []
  | Found r total recs =>
      r = radius /\ reach <> [] /\ total = length recs /\
      length recs = length (head (get (limit data) 10%Z) reach) /\
      (forall rec, In rec recs ->
         In (hotspot rec) table /\
         distance_km rec
         = distance lon lat (geometry (candidate (hotspot rec))) / 1000 /\
         (0 <= distance_km rec /\ distance_km rec <= radius) /\
         (0 <= accessibility_score rec /\ accessibility_score rec <= 100) /\
         (0 <= popularity_score (hotspot rec) /\
          popularity_score (hotspot rec) <= 100 ->
          0 <= recommendation_score rec /\ recommendation_score rec <= 100)) /\
      StronglySorted
        (fun a b => recommendation_score b <= recommendation_score a) recs
  | _ => False
  end.
Proof.
  intros Hlat Hlon Htable. cbv zeta.
  unfold get_recommendations. rewrite Hlat, Hlon. cbv zeta.
  destruct table as [| h0 tl]; [congruence |]. cbv iota. clear Htable.
  set (table := h0 :: tl).
  set (radius := get (max_distance_km data) 2.0).
  set (reach := nearby radius (with_distance lon lat table)).
  destruct (length reach =? 0)%nat eqn:En.
  { apply Nat.eqb_eq in En. split; [reflexivity |].
    now apply length_zero_iff_nil. }
  apply Nat.eqb_neq in En.
  set (scored := score_nearby reach).
  set (col := map (@recommendation_score G) scored).
  assert (Hscored : length scored = length reach).
  { unfold scored, score_nearby. cbv zeta. apply length_map. }
  assert (Hcol : length col = length scored) by apply length_map.
  destruct (sort_values_rows col) as [_ Hin].
  assert (Hrange : forall p, In p (sort_values col) -> (p < length scored)%nat).
  { intros p Hp. apply Hin in Hp. lia. }
  assert (d : Recommendation G).
  { destruct (nth_error scored 0) as [d |] eqn:E0; [exact d | exfalso].
    apply nth_error_None in E0. lia. }
  assert (Hrow : forall rec,
             In rec scored ->
             In (hotspot rec) table /\
             distance_km rec
             = distance lon lat (geometry (candidate (hotspot rec))) / 1000 /\
             (0 <= distance_km rec /\ distance_km rec <= radius) /\
             (0 <= accessibility_score rec /\ accessibility_score rec <= 100) /\
             (0 <= popularity_score (hotspot rec) /\
              popularity_score (hotspot rec) <= 100 ->
              0 <= recommendation_score rec /\
              recommendation_score rec <= 100)).
  { intros rec Hrec. apply score_nearby_In in Hrec.
    destruct Hrec as (row & Hrow & ->).
    cbn [hotspot distance_km accessibility_score recommendation_score].
    assert (Hmax : snd row <= series_max 0 (map snd reach)).
    { apply series_max_upper. now apply in_map. }
    unfold reach, nearby in Hrow. apply filter_In in Hrow.
    destruct Hrow as [Hrow Hnear]. apply Qle_bool_iff in Hnear.
    unfold with_distance in Hrow. apply in_map_iff in Hrow.
    destruct Hrow as (h & <- & Hh). cbn [fst snd] in *.
    assert (Hd : 0 <= distance lon lat (geometry (candidate h)) / 1000).
    { apply Qle_shift_div_l; [reflexivity |].
      pose proof (distance_nonneg lon lat (geometry (candidate h))). lra. }
    pose proof (accessibility_bounds _ _ Hd Hmax) as [Ha0 Ha100].
    refine (conj Hh (conj eq_refl (conj (conj Hd Hnear)
                                        (conj (conj Ha0 Ha100) _)))).
    intros [Hp0 Hp100].
    generalize dependent (accessibility (series_max 0 (map snd reach))
                            (distance lon lat (geometry (candidate h)) / 1000)).
    intros a Ha0 Ha100. lra. }
  set (sorted := take scored (sort_values col)).
  assert (Esorted : sorted = map (fun p => nth p scored d) (sort_values col)).
  { apply take_in_range. exact Hrange. }
  refine (conj eq_refl (conj _ (conj eq_refl (conj _ (conj _ _))))).
  - intros E. now rewrite E in En.
  - apply head_length_eq.
    now rewrite Esorted, length_map, sort_values_length, Hcol.
  - intros rec Hrec. apply head_incl in Hrec. unfold sorted in Hrec.
    apply take_In in Hrec. destruct Hrec as (p & _ & Ep).
    apply Hrow. exact (nth_error_In _ _ Ep).
  - apply head_sorted. rewrite Esorted.
    apply (sorted_map (descending col)); [| apply sort_values_order].
    intros p q Hp Hq Hd. unfold descending in Hd.
    pose proof (nth_error_in_range scored d p (Hrange p Hp)) as Ep.
    pose proof (nth_error_in_range scored d q (Hrange q Hq)) as Eq.
    unfold col in Hd.
    now rewrite (at_position_map _ _ _ _ Ep), (at_position_map _ _ _ _ Eq) in Hd.
Qed.

(** X22. Accessibility is measured against the farthest row in reach, not
    against the radius asked for.  So the farthest row in reach, if it is
    not at the point itself, has accessibility 0 and is recommended on
    60% of its popularity alone; a row that is alone in reach is the
    farthest one, however near it is. *)
Theorem farthest_hotspot_earns_no_accessibility
        (hotspots_nearby : list (Hotspot G * Q)) (rec : Recommendation G) :
  In rec (score_nearby hotspots_nearby) ->
  (forall other, In other (score_nearby hotspots_nearby) ->
                 distance_km other <= distance_km rec) ->
  0 < distance_km rec ->
  accessibility_score rec == 0 /\
  recommendation_score rec == 0.6 * popularity_score (hotspot rec) /\
  (forall h : Hotspot G, exists alone : Recommendation G,
      score_nearby [(h, distance_km rec)] = [alone] /\
      accessibility_score alone == 0).
Proof.
  intros Hrec Hfar Hpos.
  assert (Hself : forall d, 0 < d -> accessibility d d == 0).
  { intros d Hd. unfold accessibility.
    destruct (Qlt_le_dec 0 d) as [_ | Hle]; [| lra].
    field. lra. }
  assert (Hmax : series_max 0 (map snd hotspots_nearby) == distance_km rec).
  { apply Qle_antisym.
    - destruct (series_max_attained 0 (map snd hotspots_nearby))
        as (u & Hu & ->).
      + intros E. apply map_eq_nil in E. subst hotspots_nearby.
        destruct Hrec.
      + apply in_map_iff in Hu. destruct Hu as (row & <- & Hrow).
        apply (Hfar {| hotspot := fst row;
                       distance_km := snd row;
                       accessibility_score :=
                         accessibility
                           (series_max 0 (map snd hotspots_nearby)) (snd row);
                       recommendation_score :=
                         0.6 * popularity_score (fst row)
                         + 0.4 * accessibility
                                   (series_max 0 (map snd hotspots_nearby))
                                   (snd row) |}).
        apply score_nearby_In. now exists row.
    - apply score_nearby_In in Hrec. destruct Hrec as (row & Hrow & ->).
      cbn [distance_km]. apply series_max_upper. now apply in_map. }
  assert (Hacc : accessibility_score rec == 0).
  { apply score_nearby_In in Hrec. destruct Hrec as (row & Hrow & ->).
    cbn [accessibility_score distance_km] in *.
    unfold accessibility.
    destruct (Qlt_le_dec 0 (series_max 0 (map snd hotspots_nearby)))
      as [Hlt | Hle]; [| lra].
    rewrite Hmax. field. lra. }
  split; [exact Hacc |]. split.
  - apply score_nearby_In in Hrec. destruct Hrec as (row & Hrow & E).
    rewrite E in Hacc |- *.
    cbn [accessibility_score recommendation_score hotspot] in *.
    rewrite Hacc. ring.
  - intros h. eexists. split; [reflexivity |].
    cbn [accessibility_score map snd series_max fold_left].
    now apply Hself.
Qed.

End RecommendProperties.

(** ** The phases *)

Section PipelineProperties.
Import RunPipeline.
Variable exits_cleanly : list string -> string -> bool.
Variables path_exists dir_has_entries : string -> bool.

(** What the loop records of a phase that ran to its end. *)
Definition succeeded (phase : Phase) : string * bool :=
  (phase_name phase, true).

Lemma execute_stops (todo : list Phase) :
  forall launched results,
    match execute exits_cleanly todo launched results with
    | (Summary res verdict, ran) =>
        res = (results ++ map succeeded todo)%list /\
        ran = (launched ++ map script todo)%list /\
        verdict = forallb snd results /\
        (forall before phase after,
            todo = (before ++ phase :: after)%list ->
            exits_cleanly (launched ++ map script before)%list (script phase)
            = true)
    | (SysExit code res, ran) =>
        code = 1%Z /\
        exists before phase after,
          todo = (before ++ phase :: after)%list /\
          res = (results ++ map succeeded before
                 ++ [(phase_name phase, false)])%list /\
          ran = (launched ++ map script before ++ [script phase])%list /\
          exits_cleanly (launched ++ map script before)%list (script phase)
          = false /\
          (forall before' phase' after',
              before = (before' ++ phase' :: after')%list ->
              exits_cleanly (launched ++ map script before')%list
                            (script phase') = true)
    end.
Proof.
  induction todo as [| phase rest IH]; intros launched results;
    cbn [execute].
  - cbn [map]. rewrite !app_nil_r.
    refine (conj eq_refl (conj eq_refl (conj eq_refl _))).
    intros [| ? ?] ? ? E; discriminate.
  - unfold run_script.
    destruct (exits_cleanly launched (script phase)) eqn:Erun; cbn [negb].
    + specialize (IH (launched ++ [script phase])%list
                     (results ++ [(phase_name phase, true)])%list).
      destruct (execute exits_cleanly rest _ _) as [[code res | res verdict] ran].
      * destruct IH as (Hcode & before & failed & after & E & Hres & Hran
                        & Hfail & Hok).
        split; [exact Hcode |].
        exists (phase :: before), failed, after. subst rest.
        cbn [map app]. rewrite <- !app_assoc in *. cbn [app] in *.
        refine (conj eq_refl (conj Hres (conj Hran (conj Hfail _)))).
        intros [| first before'] phase' after' E; cbn [app] in E;
          injection E as <- E.
        -- cbn [map]. now rewrite app_nil_r.
        -- cbn [map]. specialize (Hok before' phase' after' E).
           now rewrite <- app_assoc in Hok.
      * destruct IH as (Hres & Hran & Hverdict & Hok).
        cbn [map]. rewrite <- !app_assoc in *. cbn [app] in *.
        refine (conj Hres (conj Hran (conj _ _))).
        -- rewrite Hverdict, forallb_app. cbn. now rewrite !andb_true_r.
        -- intros [| first before'] phase' after' E; cbn [app] in E;
             injection E as <- E.
           ++ cbn [map]. now rewrite app_nil_r.
           ++ cbn [map]. specialize (Hok before' phase' after' E).
              now rewrite <- app_assoc in Hok.
    + split; [reflexivity |]. exists [], phase, rest. cbn [map app].
      rewrite app_nil_r.
      refine (conj eq_refl (conj eq_refl (conj eq_refl (conj Erun _)))).
      intros [| ? ?] ? ? E; discriminate.
Qed.

(** X23. The run stops at the first phase that fails.  Whatever the scripts
    do, [main] ends in one of three ways: the prerequisites are missing
    and no script is started; or every phase exits cleanly, each script
    was started once, in order, and the summary reports success; or the
    run exits with code 1 right after the first script that fails, with
    no later script started.  The summary never reports a failure. *)
Theorem pipeline_stops_at_first_failure (todo : list Phase) :
  match main_with exits_cleanly path_exists dir_has_entries todo with
  | (Summary results all_success, launched) =>
      check_prerequisites path_exists dir_has_entries = true /\
      results = map succeeded todo /\
      launched = map script todo /\
      all_success = true
  | (SysExit code results, launched) =>
      code = 1%Z /\
      ((check_prerequisites path_exists dir_has_entries = false /\
        results = [] /\ launched = [])
       \/
       (check_prerequisites path_exists dir_has_entries = true /\
        exists before phase after,
          todo = (before ++ phase :: after)%list /\
          results = (map succeeded before ++ [(phase_name phase, false)])%list /\
          launched = (map script before ++ [script phase])%list /\
          exits_cleanly (map script before) (script phase) = false /\
          (forall before' phase' after',
              before = (before' ++ phase' :: after')%list ->
              exits_cleanly (map script before') (script phase') = true)))
  end.
Proof.
  unfold main_with.
  destruct (check_prerequisites path_exists dir_has_entries); cbn [negb].
  - pose proof (execute_stops todo [] []) as Hrun.
    destruct (execute exits_cleanly todo [] [])
      as [[code res | res verdict] ran]; cbn [app] in Hrun.
    + destruct Hrun as (Hcode & before & phase & after & E & Hres & Hran
                        & Hfail & Hok).
      split; [exact Hcode |]. right. split; [reflexivity |].
      now exists before, phase, after.
    + destruct Hrun as (Hres & Hran & Hverdict & _).
      now refine (conj eq_refl (conj Hres (conj Hran Hverdict))).
  - split; [reflexivity |]. left. now repeat split.
Qed.

End PipelineProperties.

(** ** The ranking handed on, run on boxes *)

Module BoxLocator.
Import SpatialIntersection Boxes App.

(** The centre of a box, and the distance along the axes to it. *)
Definition box_distance (lon lat : Q) (b : Box) : Q :=
  Qabs ((inject_Z (x_min b) + inject_Z (x_max b)) / 2 - lon)
  + Qabs ((inject_Z (y_min b) + inject_Z (y_max b)) / 2 - lat).

#[export] Instance box_locator : Locator Box := {
  distance := box_distance
}.

(** The scored table of the two candidates of the scan. *)
Definition box_table : list (Hotspot Box) :=
  calculate_composite_scores two_candidates.

(** A request from the origin, for the best row within the default
    radius. *)
Definition best_near_origin : Query :=
  {| user_lat := Some 0; user_lon := Some 0;
     max_distance_km := None; limit := Some 1%Z |}.

End BoxLocator.

Section HandedOnExamples.
Import SpatialIntersection Boxes Frames StableSort SaveOutputs App BoxLocator.

#[export] Instance box_locator_laws : LocatorLaws Box.
Proof.
  constructor. intros lon lat g. cbn [distance box_locator].
  unfold box_distance.
  pose proof (Qabs_nonneg ((inject_Z (x_min g) + inject_Z (x_max g)) / 2 - lon)).
  pose proof (Qabs_nonneg ((inject_Z (y_min g) + inject_Z (y_max g)) / 2 - lat)).
  lra.
Qed.

Lemma box_table_rows : box_table <> [].
Proof. intros E. vm_compute in E. discriminate E. Qed.

Example top_hotspots_run :
  map (fun e => (e_rank e, Qred (e_popularity_score e)))
      (top_hotspots box_table)
  = [(1%Z, 100); (2%Z, 2932031007402667 # 140737488355328)].
Proof. vm_compute. reflexivity. Qed.

Lemma top_hotspots_lead_the_ranking_witness :
  length (top_hotspots box_table) = 2%nat /\
  StronglySorted Z.le (map e_rank (top_hotspots box_table)).
Proof.
  pose proof (@top_hotspots_lead_the_ranking
                Box box_geometry stable_ordering stable_ordering_laws
                two_candidates) as Htop.
  cbv zeta in Htop. destruct Htop as (Hlen & _ & Hsorted & _).
  split; [exact Hlen | exact Hsorted].
Defined.

(** Both rows are within 2 km of the origin; the nearer one is the more
    popular one.  The farther one has accessibility 0. *)
Example recommend_run :
  match get_recommendations (Some box_table)
                            {| user_lat := Some 0; user_lon := Some 0;
                               max_distance_km := None; limit := None |} with
  | Found r total recs =>
      Some (total,
            map (fun rec => (rank (hotspot rec), Qred (distance_km rec),
                             Qred (accessibility_score rec),
                             Qred (recommendation_score rec))) recs)
  | _ => None
  end
  = Some (2%nat, [(1%Z, 9 # 40, 200 # 11, 740 # 11);
                  (2%Z, 11 # 40, 0, 8796093022208001 # 703687441776640)]).
Proof. vm_compute. reflexivity. Qed.

(** [limit = -1] is [head(-1)]: every row in reach but the last. *)
Example negative_limit_run :
  match get_recommendations (Some box_table)
                            {| user_lat := Some 0; user_lon := Some 0;
                               max_distance_km := None;
                               limit := Some (-1)%Z |} with
  | Found r total recs => Some (total, map (fun rec => rank (hotspot rec)) recs)
  | _ => None
  end
  = Some (1%nat, [1%Z]).
Proof. vm_compute. reflexivity. Qed.

Lemma recommendations_within_reach_witness :
  match get_recommendations (Some box_table) best_near_origin with
  | Found r total recs =>
      total = length recs /\ length recs = 1%nat /\
      forall rec, In rec recs ->
                  0 <= accessibility_score rec /\ accessibility_score rec <= 100
  | _ => False
  end.
Proof.
  pose proof (@recommendations_within_reach
                Box box_locator box_locator_laws
                stable_ordering stable_ordering_laws
                box_table best_near_origin 0 0 eq_refl eq_refl box_table_rows)
    as Hrun.
  cbv zeta in Hrun.
  destruct (get_recommendations (Some box_table) best_near_origin)
    as [| | | r | r total recs]; try exact Hrun.
  - destruct Hrun as [_ E]. vm_compute in E. discriminate E.
  - destruct Hrun as (_ & _ & Htotal & Hlen & Hall & _).
    split; [exact Htotal |]. split; [rewrite Hlen; vm_compute; reflexivity |].
    intros rec Hrec. destruct (Hall rec Hrec) as (_ & _ & _ & Ha & _).
    exact Ha.
Defined.

(** The rows in reach of the origin, and the farther of the two. *)
Definition reach_of_origin : list (Hotspot Box * Q) :=
  nearby 2.0 (with_distance 0 0 box_table).

Definition farther_row : option (Recommendation Box) :=
  nth_error (score_nearby reach_of_origin) 1.

Lemma farthest_hotspot_earns_no_accessibility_witness :
  exists rec, farther_row = Some rec /\ accessibility_score rec == 0.
Proof.
  destruct farther_row as [rec |] eqn:E; [| vm_compute in E; discriminate E].
  exists rec. split; [reflexivity |].
  unfold farther_row in E. pose proof (nth_error_In _ _ E) as Hin.
  apply (farthest_hotspot_earns_no_accessibility (G := Box)
           reach_of_origin rec Hin).
  - vm_compute in E. injection E as <-.
    intros other Hother. vm_compute in Hother.
    destruct Hother as [<- | [<- | []]]; vm_compute; intros C; discriminate C.
  - vm_compute in E. injection E as <-. vm_compute. reflexivity.
Defined.

End HandedOnExamples.

Section PipelineExamples.
Import RunPipeline.

(** The restaurant clustering fails, everything else would succeed. *)
Definition clustering_fails (launched : list string) (script_path : string)
  : bool :=
  negb (String.eqb script_path "src/data_processing/06_cluster_restaurants.py").

Definition all_there (path : string) : bool := true.

Example third_phase_fails :
  main clustering_fails all_there all_there
  = (SysExit 1 [("Phase 2: Taxi Data Processing", true);
                ("Phase 3: Restaurant Data Merging", true);
                ("Phase 6: Restaurant Clustering", false)]%string,
     ["src/data_processing/02_process_taxi_data.py";
      "src/data_processing/02_merge_restaurants.py";
      "src/data_processing/06_cluster_restaurants.py"]%string).
Proof. reflexivity. Qed.

Example no_configuration :
  main clustering_fails
       (fun path => negb (String.eqb path "config/config.yaml")) all_there
  = (SysExit 1 [], []).
Proof. reflexivity. Qed.

End PipelineExamples.

(** * Aggregation by hexagon *)

(** ** 07_cluster_taxi_dropoffs.py: aggregate_with_h3 *)

Module Aggregation.
Import Numpy Zones.

(** The h3 library, when it can be imported: the cell of a point at a
    resolution.  A cell is read as its index; the library prints it as a
    string of hexadecimal digits of fixed length, which pandas sorts in
    the order of the indices. *)
Class H3 : Type := {
  geo_to_h3 : Q -> Q -> Z -> Z
}.

(** A row of the drop-off table; [h3_cell] is absent until the
    aggregation adds the column. *)
Record TaxiRow : Type := {
  dropoff_lon : Q;
  dropoff_lat : Q;
  weight : Q;
  h3_cell : option Z
}.

(** [Series.mean()] of a column without missing values. *)
Definition mean (col : list Q) : Q :=
  series_sum col / inject_Z (Z.of_nat (length col)).

(** The cell column [df.apply(...)] computes. *)
Definition cells `{H3} (df : list TaxiRow) (h3_resolution : Z) : list Z :=
  map (fun row => geo_to_h3 (dropoff_lat row) (dropoff_lon row) h3_resolution)
      df.

(** One row of [df.groupby('h3_cell').agg(...)]: the sum of the weights
    and the means of the coordinates of the rows of a cell. *)
Definition cell_row (df : list TaxiRow) (cell_of : list Z) (cell : Z)
  : TaxiRow :=
  let group := members cell cell_of df in
  {| h3_cell := Some cell;
     weight := series_sum (map weight group);
     dropoff_lat := mean (map dropoff_lat group);
     dropoff_lon := mean (map dropoff_lon group) |}.

(** [installed] is [None] when [import h3] raises ImportError.  The last
    log line divides by the number of rows of [df]; on a table without
    rows pandas may refuse the cell column before that line is
    reached, the call raises in either case. *)
Definition aggregate_with_h3 (installed : option H3) (df : list TaxiRow)
           (h3_resolution : Z) (use_h3 : bool) : result (list TaxiRow) :=
  if negb use_h3 then Ok df
  else
    match installed with
    | None => Ok df
    | Some h3 =>
        let cell_of := cells df h3_resolution in
        let df_agg := map (cell_row df cell_of) (sorted_set cell_of) in
        reduction <- py_div (inject_Z (Z.of_nat (length df_agg)))
                            (inject_Z (Z.of_nat (length df))) ;;
        Ok df_agg
    end.

End Aggregation.

Section AggregationProperties.
Import Numpy Zones Aggregation.

Lemma labelled_in_all {A : Type} (ks labels : list Z) :
  (forall l, In l labels -> In l ks) ->
  forall rows : list A,
    length rows = length labels ->
    labelled_in ks labels rows = rows.
Proof.
  intros Hall. unfold labelled_in.
  induction labels as [| l labels IH]; intros [| r rows] Hlen;
    try discriminate; [reflexivity |].
  cbn [combine filter fst].
  assert (E : existsb (Z.eqb l) ks = true).
  { apply existsb_exists. exists l. split; [apply Hall; now left |].
    apply Z.eqb_refl. }
  rewrite E. cbn [map snd]. f_equal.
  apply IH; [intros k Hk; apply Hall; now right | now injection Hlen].
Qed.

Lemma sorted_set_length (labels : list Z) :
  (length (sorted_set labels) <= length labels)%nat.
Proof.
  apply NoDup_incl_length.
  - apply sorted_NoDup. unfold sorted_set. apply unique_counts_sorted.
  - intros k Hk. now apply sorted_set_In.
Qed.

(** X24. Aggregation by hexagon keeps the weight.  Switched off, or without
    the h3 library, the table comes back as it is.  Switched on, a table
    with rows comes back with one row per cell that holds a point, in
    increasing order of the cells, never more rows than before; the
    weights of the new rows add up to the weights of the old ones, and
    the numbers of points of the cells to the number of rows. *)
Theorem h3_aggregation_keeps_weight
        (h3 : H3) (df : list TaxiRow) (h3_resolution : Z) :
  df <> [] ->
  (forall installed,
      aggregate_with_h3 installed df h3_resolution false = Ok df) /\
  (forall use_h3, aggregate_with_h3 None df h3_resolution use_h3 = Ok df) /\
  exists df_agg,
    aggregate_with_h3 (Some h3) df h3_resolution true = Ok df_agg /\
    (exists keys,
        map h3_cell df_agg = map Some keys /\ StronglySorted Z.lt keys /\
        forall cell, In cell keys <-> In cell (cells df h3_resolution)) /\
    (0 < length df_agg <= length df)%nat /\
    series_sum (map weight df_agg) == series_sum (map weight df) /\
    fold_right Z.add 0%Z
               (map (fun cell =>
                       Z.of_nat (count cell (cells df h3_resolution)))
                    (sorted_set (cells df h3_resolution)))
    = Z.of_nat (length df).
Proof.
  intros Hrows.
  split; [reflexivity |]. split; [intros [|]; reflexivity |].
  unfold aggregate_with_h3. cbn [negb].
  set (cell_of := cells df h3_resolution).
  set (keys := sorted_set cell_of).
  assert (Hcells : length cell_of = length df) by apply length_map.
  assert (Hsorted : StronglySorted Z.lt keys)
    by apply unique_counts_sorted.
  assert (Hnodup : NoDup keys) by now apply sorted_NoDup.
  assert (Hall : labelled_in keys cell_of df = df).
  { apply labelled_in_all; [| now symmetry].
    intros l Hl. now apply sorted_set_In. }
  rewrite py_div_nonzero.
  2: { intros E. apply rows_of_zero in E. contradiction. }
  cbn [bind]. eexists. split; [reflexivity |].
  split; [| split; [| split]].
  - exists keys. split; [| split; [exact Hsorted |]].
    + rewrite map_map. reflexivity.
    + intros cell. apply sorted_set_In.
  - rewrite length_map. split.
    + destruct df as [| row rest]; [congruence |].
      assert (Hin : In (geo_to_h3 (dropoff_lat row) (dropoff_lon row)
                                  h3_resolution) keys).
      { apply sorted_set_In. now left. }
      destruct keys; [destruct Hin | cbn; lia].
    + rewrite <- Hcells. apply sorted_set_length.
  - rewrite map_map. cbn [weight cell_row].
    rewrite (members_weights weight keys cell_of Hnodup df).
    now rewrite Hall.
  - fold cell_of keys.
    transitivity (Z.of_nat (length (labelled_in keys cell_of df)));
      [| now rewrite Hall].
    rewrite <- (members_counts keys cell_of Hnodup df).
    f_equal. apply map_ext. intros cell.
    now rewrite (members_length cell cell_of df Hcells).
Qed.

End AggregationProperties.

Section AggregationExamples.
Import Numpy Zones Aggregation.

(** Cells of one degree: a stand-in for the hexagons. *)
#[local] Instance degree_cells : H3 := {
  geo_to_h3 lat lon resolution := (1000 * Qfloor lat + Qfloor lon)%Z
}.

Definition three_dropoffs : list TaxiRow :=
  [{| dropoff_lon := -73.5; dropoff_lat := 40.25; weight := 1.5;
      h3_cell := None |};
   {| dropoff_lon := -72.5; dropoff_lat := 40.5; weight := 0.3;
      h3_cell := None |};
   {| dropoff_lon := -73.25; dropoff_lat := 40.75; weight := 1;
      h3_cell := None |}].

Lemma h3_aggregation_keeps_weight_witness :
  exists df_agg,
    aggregate_with_h3 (Some degree_cells) three_dropoffs 10 true = Ok df_agg /\
    series_sum (map weight df_agg) == 2.8.
Proof.
  destruct (h3_aggregation_keeps_weight degree_cells three_dropoffs 10)
    as (_ & _ & df_agg & Hrun & _ & _ & Hweight & _);
    [discriminate |].
  exists df_agg. split; [exact Hrun |].
  rewrite Hweight. reflexivity.
Defined.

Example aggregation_run :
  match aggregate_with_h3 (Some degree_cells) three_dropoffs 10 true with
  | Ok df_agg => map (fun row => (h3_cell row, Qred (weight row),
                                  Qred (dropoff_lat row),
                                  Qred (dropoff_lon row))) df_agg
  | Raise _ => []
  end
  = [(Some 39926%Z, 5 # 2, 81 # 2, -587 # 8);
     (Some 39927%Z, 3 # 10, 81 # 2, -145 # 2)].
Proof. vm_compute. reflexivity. Qed.

End AggregationExamples.
